(** * Motion-graphics engine: animation evaluation, scene composition and
      render-job orchestration

    A shallow embedding of the engine's TypeScript sources
    (core.ts: [MotionEngine]; effects.ts: [EffectLibrary],
    [TransitionSystem], [SceneComposer]; renderer: [MotionRenderer]) and the
    properties of its specification that were checked against it.

    Modelling conventions.
    - Frame numbers, layers and durations are integers ([Z]).  Every other
      JavaScript number is a [number]: an exact rational or one of the
      non-finite values.  Rounding of IEEE doubles is not modelled.
    - A JavaScript value of type [any] is a [value]: a primitive, [null]
      included, or a plain object given by its fields in insertion order.
      A plain object inherits from [Object.prototype]: the members it finds
      there ([constructor], [toString], ...) are values too ([builtin]).
      Arrays and the functions of the program are outside the model.
    - An operation that raises has no result ([None]).  So has one that
      leaves the model: it replaces the prototype of an object, or it writes
      into a built-in object.
    - Objects that the code shares and mutates (element property bags, the
      keyframe arrays of animations) live in a [Store]; records hold
      locations into it.
    - The easing curves and the spring of the remotion package are not part of
      the repository; they are taken as a parameter ([Remotion]).
    - A call of the asynchronous [renderProject] is followed from one
      suspension ([await]) to the next: [MotionRenderer.resume] is one such
      turn, and the turns of different calls may interleave. *)

From Stdlib Require Import ZArith QArith Qcanon Qround.
From stdpp Require Import base numbers list strings pretty sorting gmap.

Local Open Scope Z_scope.

(** ** JavaScript numbers and values *)

Module JS.

Inductive number :=
  | Fin (q : Qc)
  | Inf (positive : bool)
  | NaN.

#[global] Instance number_eq_dec : EqDecision number.
Proof. solve_decision. Defined.

Definition ofZ (z : Z) : number := Fin (Qc_of_Z z).

(** [Number.isFinite(n)] *)
Definition isFinite (n : number) : bool :=
  match n with Fin _ => true | _ => false end.

Definition Qc_sign_pos (q : Qc) : bool := bool_decide (0 < q)%Qc.

(** [a + b] *)
Definition nadd (a b : number) : number :=
  match a, b with
  | Fin x, Fin y => Fin (x + y)%Qc
  | NaN, _ | _, NaN => NaN
  | Inf s, Inf t => if Bool.eqb s t then Inf s else NaN
  | Inf s, Fin _ | Fin _, Inf s => Inf s
  end.

(** [a * b] *)
Definition nmul (a b : number) : number :=
  match a, b with
  | Fin x, Fin y => Fin (x * y)%Qc
  | NaN, _ | _, NaN => NaN
  | Inf s, Inf t => Inf (Bool.eqb s t)
  | Inf s, Fin y | Fin y, Inf s =>
      if bool_decide (y = 0%Qc) then NaN else Inf (Bool.eqb s (Qc_sign_pos y))
  end.

Definition nneg (a : number) : number :=
  match a with
  | Fin x => Fin (- x)%Qc
  | Inf s => Inf (negb s)
  | NaN => NaN
  end.

(** [a - b] *)
Definition nsub (a b : number) : number := nadd a (nneg b).

(** [a / b] *)
Definition ndiv (a b : number) : number :=
  match a, b with
  | Fin x, Fin y =>
      if bool_decide (y = 0%Qc)
      then (if bool_decide (x = 0%Qc) then NaN else Inf (Qc_sign_pos x))
      else Fin (x / y)%Qc
  | NaN, _ | _, NaN => NaN
  | Inf _, Inf _ => NaN
  | Inf s, Fin y => Inf (Bool.eqb s (bool_decide (0 ≤ y)%Qc))
  | Fin _, Inf _ => Fin 0%Qc
  end.

(** [a < b] and [a <= b]; every comparison with NaN is false *)
Definition nlt (a b : number) : bool :=
  match a, b with
  | Fin x, Fin y => bool_decide (x < y)%Qc
  | NaN, _ | _, NaN => false
  | Inf s, Inf t => negb s && t
  | Inf s, Fin _ => negb s
  | Fin _, Inf t => t
  end.

Definition nle (a b : number) : bool :=
  match a, b with
  | Fin x, Fin y => bool_decide (x ≤ y)%Qc
  | NaN, _ | _, NaN => false
  | Inf s, Inf t => negb s || t
  | Inf s, Fin _ => negb s
  | Fin _, Inf t => t
  end.

(** [Math.max(a, b)] and [Math.min(a, b)] *)
Definition nmax (a b : number) : number :=
  match a, b with
  | NaN, _ | _, NaN => NaN
  | _, _ => if nle a b then b else a
  end.

Definition nmin (a b : number) : number :=
  match a, b with
  | NaN, _ | _, NaN => NaN
  | _, _ => if nle a b then a else b
  end.

(** One interpolated piece of a template literal: the text a value is
    converted to is kept symbolic. *)
Inductive tpart :=
  | TLit (s : string)
  | TNum (n : number)
  | THex2 (n : number)
  | TText (s : string)
  | TBool (b : bool)
  | TUndef
  | TNull
  | TObject
  | TFunction (name : string).

(** The built-in objects that a plain object reaches through its prototype:
    [Object.prototype] itself, and the functions that are its members, each
    named by the member ([constructor] is [Object]). *)
Inductive builtin :=
  | ObjectPrototype
  | Method (name : string).

Inductive prim :=
  | PUndef
  | PNull
  | PNum (n : number)
  | PStr (s : string)
  | PBool (b : bool)
  | PTemplate (parts : list tpart)
  | PBuiltin (b : builtin).

Unset Elimination Schemes.
Inductive value :=
  | VPrim (p : prim)
  | VObj (fields : list (string * value)).
Set Elimination Schemes.

#[global] Instance tpart_eq_dec : EqDecision tpart.
Proof. solve_decision. Defined.

#[global] Instance builtin_eq_dec : EqDecision builtin.
Proof. solve_decision. Defined.

#[global] Instance prim_eq_dec : EqDecision prim.
Proof. solve_decision. Defined.

#[global] Instance value_eq_dec : EqDecision value.
Proof.
  refine (fix go (x y : value) {struct x} : Decision (x = y) :=
    match x, y with
    | VPrim p, VPrim q => cast_if (decide (p = q))
    | VObj fs, VObj gs =>
        cast_if (@list_eq_dec _ (@prod_eq_dec _ _ _ go) fs gs)
    | _, _ => right _
    end); congruence.
Defined.

Abbreviation VUndef := (VPrim PUndef).
Abbreviation VNull := (VPrim PNull).
Abbreviation VNum n := (VPrim (PNum n)).
Abbreviation VStr s := (VPrim (PStr s)).
Abbreviation VBool b := (VPrim (PBool b)).

(** [null] counts as 0.  Other operands that are not numbers are collapsed
    to NaN: the coercion of strings and booleans to numbers is not
    modelled. *)
Definition toNumber (v : value) : number :=
  match v with VNum n => n | VNull => ofZ 0 | _ => NaN end.

(** Truthiness, as used by [||] and conditionals *)
Definition truthy (v : value) : bool :=
  match v with
  | VUndef | VNull => false
  | VNum (Fin q) => negb (bool_decide (q = 0%Qc))
  | VNum NaN => false
  | VNum (Inf _) => true
  | VStr s => negb (String.eqb s "")
  | VBool b => b
  | VPrim (PTemplate _) => true
  | VPrim (PBuiltin _) => true
  | VObj _ => true
  end.

(** [a || b] *)
Definition or_else (a b : value) : value := if truthy a then a else b.

Definition tpart_of (v : value) : tpart :=
  match v with
  | VUndef => TUndef
  | VNull => TNull
  | VNum n => TNum n
  | VStr s => TText s
  | VBool b => TBool b
  | VPrim (PTemplate _) => TObject
  | VPrim (PBuiltin ObjectPrototype) => TObject
  | VPrim (PBuiltin (Method name)) => TFunction name
  | VObj _ => TObject
  end.

(** *** Plain objects: fields in insertion order, keys unique *)

Section Fields.
Context {A : Type}.

(** [obj[k]] *)
Fixpoint get (k : string) (fs : list (string * A)) : option A :=
  match fs with
  | [] => None
  | (k', v) :: rest => if String.eqb k k' then Some v else get k rest
  end.

(** [obj[k] = v]: an existing key keeps its position, a new key is
    appended. *)
Fixpoint set (k : string) (v : A) (fs : list (string * A)) : list (string * A) :=
  match fs with
  | [] => [(k, v)]
  | (k', v') :: rest =>
      if String.eqb k k' then (k, v) :: rest else (k', v') :: set k v rest
  end.

(** [{ ...a, ...b }] *)
Definition spread (a b : list (string * A)) : list (string * A) :=
  fold_left (fun acc kv => set kv.1 kv.2 acc) b a.

Definition keys (fs : list (string * A)) : list string := map fst fs.
End Fields.

(** The names of the members of [Object.prototype], which every plain
    object inherits *)
Definition inheritedNames : list string :=
  [ "constructor"; "__defineGetter__"; "__defineSetter__"; "hasOwnProperty";
    "__lookupGetter__"; "__lookupSetter__"; "isPrototypeOf";
    "propertyIsEnumerable"; "toString"; "valueOf"; "__proto__";
    "toLocaleString" ].

Definition inherited (k : string) : bool := existsb (String.eqb k) inheritedNames.

(** [Object.prototype[k]] as a plain object finds it, for an inherited
    name: the getter of [__proto__] answers the prototype. *)
Definition inheritedMember (k : string) : prim :=
  PBuiltin (if String.eqb k "__proto__" then ObjectPrototype else Method k).

(** [k in obj] on a plain object: an own field, or an inherited member *)
Definition has {A} (k : string) (fs : list (string * A)) : bool :=
  match get k fs with
  | Some _ => true
  | None => inherited k
  end.

(** [obj[k]] on a plain object *)
Definition read (k : string) (fs : list (string * value)) : value :=
  match get k fs with
  | Some v => v
  | None => if inherited k then VPrim (inheritedMember k) else VUndef
  end.

(** [obj[k] = v] on a plain object.  Where [__proto__] is not a field of
    the object the inherited setter runs and no field is made: it ignores a
    primitive, and with an object, a function or [null] it replaces the
    prototype, which leaves the model ([None]). *)
Definition assign (k : string) (v : value) (fs : list (string * value))
    : option (list (string * value)) :=
  match String.eqb k "__proto__", get k fs with
  | true, None =>
      match v with
      | VObj _ | VNull | VPrim (PBuiltin (Method _)) => None
      | _ => Some fs
      end
  | _, _ => Some (set k v fs)
  end.

(** [v[k]] on a value.  Of a primitive and of a built-in object only
    properties that are no member of it or of its wrapper are read (a string
    has its length, its characters and its methods): they are
    [undefined]. *)
Definition field (k : string) (v : value) : value :=
  match v with
  | VObj fs => read k fs
  | _ => VUndef
  end.

(** The own enumerable properties copied by [{ ...v }].  The characters
    that a string spreads into are not modelled. *)
Definition props (v : value) : list (string * value) :=
  match v with VObj fs => fs | _ => [] end.

(** [v.k] as an expression that can throw: reading a property of
    [undefined] or [null] is a TypeError ([None]). *)
Definition member (v : value) (k : string) : option value :=
  match v with
  | VUndef | VNull => None
  | _ => Some (field k v)
  end.

(** [v === undefined || v === null] *)
Definition nullish (v : value) : bool :=
  match v with
  | VUndef | VNull => true
  | _ => false
  end.



(** [s.includes(part)] *)
Fixpoint includes (s part : string) : bool :=
  String.prefix part s ||
  match s with
  | EmptyString => false
  | String _ rest => includes rest part
  end.

(** [{ ...element, k: v }] *)
Definition withField (element : value) (k : string) (v : value) : value :=
  VObj (set k v (props element)).

End JS.

(** ** MotionEngine (core.ts) *)

Module MotionEngine.
Import JS.

Inductive EasingType :=
  | linear | ease | ease_in | ease_out | ease_in_out
  | spring | bounce | elastic | back | cubic_bezier.

(** The curves of the remotion package used by [applyEasing]:
    [interpolate(p, [0, 1], [0, 1], { easing })] for the four bezier
    easings and for bounce, and [spring({ frame: p * 30, fps: 30 })]. *)
Record Remotion := {
  easing_ease : number -> number;
  easing_in_ease : number -> number;
  easing_out_ease : number -> number;
  easing_inOut_ease : number -> number;
  easing_bounce : number -> number;
  spring_30fps : number -> number;
}.

(** remotion's [interpolate(input, [0, 1], [from, to])] with the default
    options (linear easing, extended on both sides).  An output range with a
    value that is not finite raises ([None]); two equal bounds give that
    bound; otherwise the input is scaled onto the output range. *)
Definition interpolate (input from to : number) : option number :=
  match from, to with
  | Fin a, Fin b =>
      if bool_decide (a = b) then Some from
      else Some (nadd (nmul input (nsub to from)) from)
  | _, _ => None
  end.

Record Keyframe := {
  kf_frame : Z;
  kf_value : value;
  kf_easing : option EasingType;
}.

Definition loc := nat.

Record Animation := {
  anim_id : string;
  property : string;
  keyframes : loc;          (* the keyframe array, in the store *)
  easing : EasingType;
  duration : Z;
  delay : Z;
  loop : bool;
  yoyo : bool;
}.

Inductive EffectType :=
  | blur | glow | shadow | outline | gradient | noise | distortion
  | color_correction | chromatic_aberration
  | other_effect (name : string).   (* 'blend', 'mask': looked up by the composer *)

Record Effect := {
  effect_id : string;
  effect_type : EffectType;
  enabled : bool;
  parameters : list (string * value);
  effect_startFrame : option Z;
  effect_endFrame : option Z;
}.

Record MotionElement := {
  id : string;
  name : string;
  startFrame : Z;
  endFrame : Z;
  layer : Z;
  visible : bool;
  locked : bool;
  properties : loc;         (* the property bag, in the store *)
  animations : list Animation;
  effects : list Effect;
}.

Inductive TransitionType :=
  | fade | slide | zoom | wipe | morph | dissolve | push | reveal | iris | flip.

Inductive Direction := dir_in | dir_out | dir_cross.

Record SceneTransition := {
  transition_id : string;
  transition_type : TransitionType;
  transition_duration : Z;
  transition_easing : EasingType;
  direction : option Direction;
  transition_parameters : list (string * value);
}.

Record MotionScene := {
  scene_id : string;
  scene_title : string;
  scene_startFrame : Z;
  scene_endFrame : Z;
  scene_duration : Z;
  elements : list MotionElement;
  transitions : list SceneTransition;
}.

Record MotionProject := {
  project_id : string;
  project_duration : Z;
  fps : Z;
  width : Z;
  height : Z;
  scenes : list MotionScene;
}.

(** A field of a stored object holds a primitive or a reference. *)
Inductive hval :=
  | HPrim (p : prim)
  | HRef (l : loc).

Definition obj := list (string * hval).

Record Store := {
  objs : list obj;                 (* objects, by location *)
  kfs : list (list Keyframe);      (* keyframe arrays, by location *)
}.

Definition set_objs (st : Store) (os : list obj) : Store :=
  {| objs := os; kfs := kfs st |}.

Definition set_kfs (st : Store) (ks : list (list Keyframe)) : Store :=
  {| objs := objs st; kfs := ks |}.

(** [new Object] with the given fields *)
Definition alloc (st : Store) (o : obj) : Store * loc :=
  (set_objs st (objs st ++ [o]), length (objs st)).

(** [keyframes.sort((a, b) => a.frame - b.frame)]: the sort is stable, so
    it is determined by the order on frames. *)
Fixpoint insertKeyframe (k : Keyframe) (ks : list Keyframe) : list Keyframe :=
  match ks with
  | [] => [k]
  | k' :: rest =>
      if kf_frame k <=? kf_frame k' then k :: ks else k' :: insertKeyframe k rest
  end.

Fixpoint sortKeyframes (ks : list Keyframe) : list Keyframe :=
  match ks with
  | [] => []
  | k :: rest => insertKeyframe k (sortKeyframes rest)
  end.

Section Evaluator.
Context (rem : Remotion).

Definition applyEasing (progress : number) (e : EasingType) : number :=
  match e with
  | linear => progress
  | ease => easing_ease rem progress
  | ease_in => easing_in_ease rem progress
  | ease_out => easing_out_ease rem progress
  | ease_in_out => easing_inOut_ease rem progress
  | spring => spring_30fps rem progress
  | bounce => easing_bounce rem progress
  | _ => progress
  end.

(** [typeof v === 'object'] *)
Definition isObjectType (v : value) : bool :=
  match v with
  | VObj _ | VNull | VPrim (PBuiltin ObjectPrototype) => true
  | _ => false
  end.

(** [key in to], and [to[key]] where it is, for a [to] of type 'object':
    [Some None] where the key is not in [to].  On [null] the operator [in]
    raises ([None]). *)
Definition memberIn (key : string) (to : value) : option (option value) :=
  match to with
  | VObj tfs => Some (if has key tfs then Some (read key tfs) else None)
  | VPrim (PBuiltin ObjectPrototype) =>
      Some (if inherited key
            then Some (if String.eqb key "__proto__" then VNull
                       else VPrim (inheritedMember key))
            else None)
  | _ => None
  end.

(** [interpolateValue(from, to, progress)].  The loop [for (const key in
    from)] runs over the fields of a plain object; [null] and
    [Object.prototype] have nothing to enumerate. *)
Fixpoint interpolateValue (from to : value) (progress : number) : option value :=
  match from, to with
  | VNum a, VNum b => n ← interpolate progress a b; Some (VNum n)
  | _, _ =>
      if isObjectType from && isObjectType to then
        match from with
        | VObj ffs =>
            VObj <$>
            (fix each (fs result : list (string * value))
                 : option (list (string * value)) :=
               match fs with
               | [] => Some result
               | (key, fv) :: rest =>
                   shared ← memberIn key to;
                   v ← match shared with
                       | Some tv => interpolateValue fv tv progress
                       | None => Some fv
                       end;
                   result' ← assign key v result;
                   each rest result'
               end) ffs []
        | _ => Some (VObj [])
        end
      else Some (if nlt progress (Fin (Q2Qc (1 # 2))) then from else to)
  end.

(** The loop over consecutive keyframes of [calculateAnimationValue];
    [None] where the interpolation raises. *)
Fixpoint interpolateKeyframes (a : Animation) (currentFrame : Z)
    (ks : list Keyframe) : option value :=
  match ks with
  | current :: ((next :: _) as rest) =>
      if (kf_frame current <=? currentFrame) && (currentFrame <=? kf_frame next)
      then
        let progress :=
          ndiv (ofZ (currentFrame - kf_frame current))
               (ofZ (kf_frame next - kf_frame current)) in
        let easedProgress :=
          applyEasing progress (default (easing a) (kf_easing next)) in
        interpolateValue (kf_value current) (kf_value next) easedProgress
      else interpolateKeyframes a currentFrame rest
  | _ => Some VUndef
  end.

(** The frame inside the loop period; [%] truncates, and both operands
    are non-negative here. *)
Definition loopFrame (a : Animation) (adjustedFrame : Z) : Z :=
  if loop a && (0 <? duration a) then
    let currentFrame := Z.rem adjustedFrame (duration a) in
    if yoyo a && (Z.rem (adjustedFrame / duration a) 2 =? 1)
    then duration a - currentFrame
    else currentFrame
  else adjustedFrame.

(** [calculateAnimationValue] on the keyframe array [ks]: the array as
    the call leaves it, and the value returned, or [None] where the
    interpolation raises. *)
Definition animationValue (a : Animation) (ks : list Keyframe) (frame : Z)
    : list Keyframe * option value :=
  match ks with
  | [] => (ks, Some VUndef)
  | _ :: _ =>
      let adjustedFrame := frame - delay a in
      if adjustedFrame <? 0 then (ks, Some VUndef) else
      let currentFrame := loopFrame a adjustedFrame in
      let keyframes := sortKeyframes ks in
      match keyframes, last keyframes with
      | first :: _, Some final =>
          if currentFrame <=? kf_frame first
          then (keyframes, Some (kf_value first))
          else if kf_frame final <=? currentFrame
          then (keyframes, Some (kf_value final))
          else (keyframes, interpolateKeyframes a currentFrame keyframes)
      | _, _ => (keyframes, Some VUndef)
      end
  end.

(** [calculateAnimationValue(animation, frame)]: the array is sorted in
    place, so the store changes.  Where the call raises there is no result,
    and the store it leaves is not followed further. *)
Definition calculateAnimationValue (st : Store) (a : Animation) (frame : Z)
    : option (Store * value) :=
  ks ← kfs st !! keyframes a;
  let '(ks', result) := animationValue a ks frame in
  v ← result;
  Some (set_kfs st (<[keyframes a := ks']> (kfs st)), v).

(** [path.split('.')] *)
Fixpoint splitPath (path : string) : list string :=
  match path with
  | EmptyString => [EmptyString]
  | String c rest =>
      if Ascii.eqb c (Ascii.ascii_of_nat 46) then EmptyString :: splitPath rest
      else match splitPath rest with
           | p :: ps => String c p :: ps
           | [] => [String c EmptyString]
           end
  end.

(** A value handed to a property bag.  An object is entered as a fresh
    stored object with the same fields; keyframe values themselves stay
    immutable data. *)
Fixpoint storeValue (st : Store) (v : value) : Store * hval :=
  match v with
  | VPrim p => (st, HPrim p)
  | VObj fs =>
      let '(st1, o) :=
        (fix each (st : Store) (fs : list (string * value)) : Store * obj :=
           match fs with
           | [] => (st, [])
           | (k, fv) :: rest =>
               let '(st1, hv) := storeValue st fv in
               let '(st2, o) := each st1 rest in
               (st2, (k, hv) :: o)
           end) st fs in
      let '(st2, l) := alloc st1 o in
      (st2, HRef l)
  end.

(** [current[k] = v] on the stored object at [l].  Where [__proto__] is
    not a field of the object the inherited setter runs and no field is
    made: it ignores a primitive, and with an object, a function or [null]
    it replaces the prototype, which leaves the model ([None]). *)
Definition assignField (st : Store) (l : loc) (k : string) (v : hval)
    : option Store :=
  o ← objs st !! l;
  match String.eqb k "__proto__", JS.get k o with
  | true, None =>
      match v with
      | HRef _ | HPrim PNull | HPrim (PBuiltin (Method _)) => None
      | HPrim _ => Some st
      end
  | _, _ => Some (set_objs st (<[l := JS.set k v o]> (objs st)))
  end.

(** [setNestedProperty(obj, path, value)], on the keys of the path.
    [keys[i] in current] also answers for the members that [current]
    inherits; the loop then goes on inside a built-in object, which the
    store does not hold.  [None]: on a primitive, the TypeError of [in] or
    of the assignment (class bodies are strict code); on a built-in object,
    a write that leaves the model. *)
Fixpoint setNestedProperty (st : Store) (current : hval) (path : list string)
    (v : hval) : option Store :=
  match path with
  | [] => Some st
  | [k] =>
      match current with
      | HRef l => assignField st l k v
      | HPrim _ => None
      end
  | k :: rest =>
      match current with
      | HRef l =>
          o ← objs st !! l;
          match JS.get k o with
          | Some next => setNestedProperty st next rest v
          | None =>
              if inherited k
              then setNestedProperty st (HPrim (inheritedMember k)) rest v
              else
                let '(st1, l') := alloc st [] in
                let st2 :=
                  set_objs st1 (<[l := JS.set k (HRef l') o]> (objs st1)) in
                setNestedProperty st2 (HRef l') rest v
          end
      | HPrim _ => None
      end
  end.

(** The body of [element.animations.forEach(...)] *)
Fixpoint applyAnimations (st : Store) (properties : loc)
    (anims : list Animation) (frame : Z) : option Store :=
  match anims with
  | [] => Some st
  | animation :: rest =>
      '(st1, animatedValue) ← calculateAnimationValue st animation frame;
      st2 ← match animatedValue with
            | VUndef => Some st1
            | _ =>
                let '(st', hv) := storeValue st1 animatedValue in
                setNestedProperty st' (HRef properties)
                  (splitPath (property animation)) hv
            end;
      applyAnimations st2 properties rest frame
  end.

(** [calculateElementPropertiesAtFrame(element, frame)]: the store after
    the call and the location of the returned property bag.
    [{ ...element.properties }] copies the fields of the bag, references
    included. *)
Definition calculateElementPropertiesAtFrame (st : Store)
    (element : MotionElement) (frame : Z) : option (Store * loc) :=
  base ← objs st !! properties element;
  let '(st0, properties) := alloc st base in
  st' ← applyAnimations st0 properties (animations element) frame;
  Some (st', properties).

End Evaluator.

End MotionEngine.

(** ** EffectLibrary (effects.ts) *)

Module EffectLibrary.
Import JS MotionEngine.

Inductive ParameterType := number_t | boolean_t | color_t | select_t | range_t.

Record EffectParameter := {
  param_name : string;
  param_type : ParameterType;
  defaultValue : value;
  min : option number;
  max : option number;
  step : option number;
  options : option (list string);
}.

Record EffectDefinition := {
  def_type : EffectType;
  def_name : string;
  category : string;
  def_parameters : list EffectParameter;
  (* [apply(element, params, frame)].  The built-in resolvers are modelled
     on elements that are objects: where the source reads a property of the
     element and the element is [undefined] or [null], the source raises
     and the resolver here does not. *)
  apply : value -> list (string * value) -> Z -> value;
}.

(** The registry [effects : Map<EffectType, EffectDefinition>] *)
Definition Registry := list (EffectType * EffectDefinition).

#[global] Instance EffectType_eq_dec : EqDecision EffectType.
Proof. solve_decision. Defined.

Fixpoint lookup (t : EffectType) (reg : Registry) : option EffectDefinition :=
  match reg with
  | [] => None
  | (t', d) :: rest => if bool_decide (t = t') then Some d else lookup t rest
  end.

Definition q (n d : Z) : number := Fin (Qc_of_Z n / Qc_of_Z d)%Qc.

Definition range (name : string) (dflt lo hi stp : number) : EffectParameter :=
  {| param_name := name; param_type := range_t; defaultValue := VNum dflt;
     min := Some lo; max := Some hi; step := Some stp; options := None |}.

Definition color (name : string) (dflt : string) : EffectParameter :=
  {| param_name := name; param_type := color_t; defaultValue := VStr dflt;
     min := None; max := None; step := None; options := None |}.

Definition boolean (name : string) (dflt : bool) : EffectParameter :=
  {| param_name := name; param_type := boolean_t; defaultValue := VBool dflt;
     min := None; max := None; step := None; options := None |}.

Definition select (name : string) (dflt : string) (opts : list string) : EffectParameter :=
  {| param_name := name; param_type := select_t; defaultValue := VStr dflt;
     min := None; max := None; step := None; options := Some opts |}.

(** [params.name] *)
Definition param (name : string) (params : list (string * value)) : value :=
  default VUndef (JS.get name params).

Definition template (parts : list tpart) : value := VPrim (PTemplate parts).

(** [{ ...element, filter: { ...element.filter, ...fields } }] *)
Definition withFilter (element : value) (fields : list (string * value)) : value :=
  withField element "filter" (VObj (spread (props (field "filter" element)) fields)).

(** [Math.round(x)] *)
Definition round (x : number) : number :=
  match x with
  | Fin v => ofZ (Qfloor (this (v + Q2Qc (1 # 2))%Qc))
  | other => other
  end.

Definition blurEffect : EffectDefinition :=
  {| def_type := blur; def_name := "Blur"; category := "blur";
     def_parameters :=
       [ range "amount" (ofZ 5) (ofZ 0) (ofZ 50) (q 1 10);
         boolean "directional" false;
         range "angle" (ofZ 0) (ofZ 0) (ofZ 360) (ofZ 1) ];
     apply := fun element params frame =>
       withFilter element
         [("blur",
           if truthy (param "directional" params)
           then template [TLit "blur("; tpart_of (param "amount" params);
                          TLit "px) blur-direction(";
                          tpart_of (param "angle" params); TLit "deg)"]
           else template [TLit "blur("; tpart_of (param "amount" params);
                          TLit "px)"])] |}.

Definition glowEffect : EffectDefinition :=
  {| def_type := glow; def_name := "Glow"; category := "visual";
     def_parameters :=
       [ color "color" "#ffffff";
         range "intensity" (ofZ 1) (ofZ 0) (ofZ 5) (q 1 10);
         range "size" (ofZ 10) (ofZ 0) (ofZ 100) (ofZ 1);
         range "softness" (q 1 2) (ofZ 0) (ofZ 1) (q 1 100) ];
     apply := fun element params frame =>
       withFilter
         (withField element "boxShadow"
            (template
               [TLit "0 0 "; tpart_of (param "size" params); TLit "px ";
                TNum (nmul (toNumber (param "size" params))
                           (toNumber (param "softness" params)));
                TLit "px "; tpart_of (param "color" params)]))
         [("brightness",
           VNum (nadd (ofZ 1)
                   (nmul (toNumber (param "intensity" params)) (q 2 10))))] |}.

Definition shadowEffect : EffectDefinition :=
  {| def_type := shadow; def_name := "Drop Shadow"; category := "visual";
     def_parameters :=
       [ range "offsetX" (ofZ 5) (ofZ (-50)) (ofZ 50) (ofZ 1);
         range "offsetY" (ofZ 5) (ofZ (-50)) (ofZ 50) (ofZ 1);
         range "blur" (ofZ 10) (ofZ 0) (ofZ 50) (ofZ 1);
         color "color" "#000000";
         range "opacity" (q 1 2) (ofZ 0) (ofZ 1) (q 1 100) ];
     apply := fun element params frame =>
       withField element "boxShadow"
         (template
            [tpart_of (param "offsetX" params); TLit "px ";
             tpart_of (param "offsetY" params); TLit "px ";
             tpart_of (param "blur" params); TLit "px ";
             tpart_of (param "color" params);
             THex2 (round (nmul (toNumber (param "opacity" params)) (ofZ 255)))]) |}.

Definition outlineEffect : EffectDefinition :=
  {| def_type := outline; def_name := "Outline"; category := "visual";
     def_parameters :=
       [ range "width" (ofZ 2) (ofZ 0) (ofZ 20) (q 1 2);
         color "color" "#ffffff";
         select "style" "solid" ["solid"; "dashed"; "dotted"] ];
     apply := fun element params frame =>
       withField element "border"
         (template
            [tpart_of (param "width" params); TLit "px ";
             tpart_of (param "style" params); TLit " ";
             tpart_of (param "color" params)]) |}.

Definition gradientEffect : EffectDefinition :=
  {| def_type := gradient; def_name := "Gradient Overlay"; category := "color";
     def_parameters :=
       [ select "type" "linear" ["linear"; "radial"];
         range "angle" (ofZ 45) (ofZ 0) (ofZ 360) (ofZ 1);
         color "color1" "#ff0000";
         color "color2" "#0000ff";
         range "opacity" (q 1 2) (ofZ 0) (ofZ 1) (q 1 100) ];
     apply := fun element params frame =>
       let gradient :=
         match param "type" params with
         | VStr "linear" =>
             template [TLit "linear-gradient("; tpart_of (param "angle" params);
                       TLit "deg, "; tpart_of (param "color1" params);
                       TLit ", "; tpart_of (param "color2" params); TLit ")"]
         | _ =>
             template [TLit "radial-gradient(circle, ";
                       tpart_of (param "color1" params);
                       TLit ", "; tpart_of (param "color2" params); TLit ")"]
         end in
       withField (withField element "background" gradient) "opacity"
         (VNum (nmul (toNumber (field "opacity" element))
                     (toNumber (param "opacity" params)))) |}.

Definition noiseEffect : EffectDefinition :=
  {| def_type := noise; def_name := "Noise"; category := "stylize";
     def_parameters :=
       [ range "amount" (q 1 10) (ofZ 0) (ofZ 1) (q 1 100);
         range "scale" (ofZ 1) (q 1 10) (ofZ 10) (q 1 10);
         boolean "animated" false ];
     apply := fun element params frame =>
       let seed :=
         if truthy (param "animated" params)
         then nmul (ofZ frame) (q 1 10) else ofZ 0 in
       withFilter element
         [("noise", VObj [("amount", param "amount" params);
                          ("scale", param "scale" params);
                          ("seed", VNum seed)])] |}.

Definition colorCorrectionEffect : EffectDefinition :=
  {| def_type := color_correction; def_name := "Color Correction";
     category := "color";
     def_parameters :=
       [ range "brightness" (ofZ 1) (ofZ 0) (ofZ 2) (q 1 100);
         range "contrast" (ofZ 1) (ofZ 0) (ofZ 2) (q 1 100);
         range "saturation" (ofZ 1) (ofZ 0) (ofZ 2) (q 1 100);
         range "hue" (ofZ 0) (ofZ (-180)) (ofZ 180) (ofZ 1) ];
     apply := fun element params frame =>
       withFilter element
         [("brightness", param "brightness" params);
          ("contrast", param "contrast" params);
          ("saturate", param "saturation" params);
          ("hue-rotate",
           template [tpart_of (param "hue" params); TLit "deg"])] |}.

Definition chromaticAberrationEffect : EffectDefinition :=
  {| def_type := chromatic_aberration; def_name := "Chromatic Aberration";
     category := "distortion";
     def_parameters :=
       [ range "amount" (ofZ 2) (ofZ 0) (ofZ 20) (q 1 10);
         range "angle" (ofZ 0) (ofZ 0) (ofZ 360) (ofZ 1) ];
     apply := fun element params frame =>
       withFilter element
         [("chromaticAberration",
           VObj [("amount", param "amount" params);
                 ("angle", param "angle" params)])] |}.

(** [initializeEffects()] *)
Definition initializeEffects : Registry :=
  [ (blur, blurEffect); (glow, glowEffect); (shadow, shadowEffect);
    (outline, outlineEffect); (gradient, gradientEffect);
    (noise, noiseEffect); (color_correction, colorCorrectionEffect);
    (chromatic_aberration, chromaticAberrationEffect) ].

Section Library.
Context (effects : Registry).

Definition applyEffect (element : value) (effect : Effect) (frame : Z) : value :=
  match lookup (effect_type effect) effects with
  | None => element
  | Some definition =>
      if negb (enabled effect) then element
      else if match effect_startFrame effect with
              | Some s => frame <? s | None => false end then element
      else if match effect_endFrame effect with
              | Some e => e <? frame | None => false end then element
      else apply definition element (parameters effect) frame
  end.

Definition applyEffects (element : value) (effs : list Effect) (frame : Z) : value :=
  fold_left (fun result effect => applyEffect result effect frame) effs element.

(** The messages pushed by [validateEffect], with the interpolated parts
    as arguments *)
Inductive ValidationError :=
  | UnknownEffectType (t : EffectType)
  | MissingParameter (name : string)
  | MustBeNumber (name : string)
  | BelowMinimum (name : string) (lo : number)
  | AboveMaximum (name : string) (hi : number)
  | MustBeBoolean (name : string)
  | MustBeOneOf (name : string) (opts : list string).

(** [paramDef.options.includes(value)] *)
Definition includes (opts : list string) (v : value) : bool :=
  match v with
  | VStr s => existsb (String.eqb s) opts
  | _ => false
  end.

(** The errors one parameter definition contributes *)
Definition validateParameter (params : list (string * value))
    (paramDef : EffectParameter) : list ValidationError :=
  match read (param_name paramDef) params with
  | VUndef | VNull => [MissingParameter (param_name paramDef)]
  | v =>
      (match param_type paramDef with
       | number_t | range_t =>
           match v with
           | VNum n =>
               (match min paramDef with
                | Some lo => if nlt n lo
                             then [BelowMinimum (param_name paramDef) lo] else []
                | None => []
                end) ++
               (match max paramDef with
                | Some hi => if nlt hi n
                             then [AboveMaximum (param_name paramDef) hi] else []
                | None => []
                end)
           | _ => [MustBeNumber (param_name paramDef)]
           end
       | _ => []
       end) ++
      (match param_type paramDef, v with
       | boolean_t, VBool _ => []
       | boolean_t, _ => [MustBeBoolean (param_name paramDef)]
       | _, _ => []
       end) ++
      (match param_type paramDef, options paramDef with
       | select_t, Some opts =>
           if includes opts v then []
           else [MustBeOneOf (param_name paramDef) opts]
       | _, _ => []
       end)
  end.

Record ValidationResult := { valid : bool; errors : list ValidationError }.

Definition validateEffect (effect : Effect) : ValidationResult :=
  match lookup (effect_type effect) effects with
  | None =>
      {| valid := false; errors := [UnknownEffectType (effect_type effect)] |}
  | Some definition =>
      let errors :=
        concat (map (validateParameter (parameters effect))
                    (def_parameters definition)) in
      {| valid := Nat.eqb (length errors) 0; errors := errors |}
  end.
End Library.

End EffectLibrary.

(** ** TransitionSystem (effects.ts) *)

Module TransitionSystem.
Import JS MotionEngine.

(** A resolver; [None] is an error raised while it runs: the TypeError of
    a property read on [undefined] or [null], or the error of remotion's
    [interpolate]. *)
Record TransitionEffect := {
  resolver_type : TransitionType;
  apply : number -> value -> value -> list (string * value) -> option value;
  defaultParams : list (string * value);
}.

Definition Registry := list (TransitionType * TransitionEffect).

#[global] Instance TransitionType_eq_dec : EqDecision TransitionType.
Proof. solve_decision. Defined.

Fixpoint lookup (t : TransitionType) (reg : Registry) : option TransitionEffect :=
  match reg with
  | [] => None
  | (t', e) :: rest => if bool_decide (t = t') then Some e else lookup t rest
  end.

Definition param (name : string) (params : list (string * value)) : value :=
  default VUndef (JS.get name params).

Definition q (n d : Z) : number := Fin (Qc_of_Z n / Qc_of_Z d)%Qc.

(** [{ from: a, to: b }] *)
Definition pair_of (a b : value) : value := VObj [("from", a); ("to", b)].

(** [{ ...element, opacity: element.opacity * factor }] *)
Definition scaleOpacity (element : value) (factor : number) : option value :=
  opacity ← member element "opacity";
  Some (withField element "opacity" (VNum (nmul (toNumber opacity) factor))).

(** [{ ...element, position: { x: element.position.x + dx,
                               y: element.position.y + dy } }] *)
Definition shiftPosition (element : value) (dx dy : number) : option value :=
  position ← member element "position";
  x ← member position "x";
  position' ← member element "position";
  y ← member position' "y";
  Some (withField element "position"
          (VObj [("x", VNum (nadd (toNumber x) dx));
                 ("y", VNum (nadd (toNumber y) dy))])).

Definition fadeEffect : TransitionEffect :=
  {| resolver_type := fade;
     apply := fun progress fromElement toElement params =>
       let fadeOut := nsub (ofZ 1) progress in
       let fadeIn := progress in
       from ← scaleOpacity fromElement fadeOut;
       to ← scaleOpacity toElement fadeIn;
       Some (pair_of from to);
     defaultParams := [("crossFade", VBool true)] |}.

Definition slideEffect : TransitionEffect :=
  {| resolver_type := slide;
     apply := fun progress fromElement toElement params =>
       let direction := or_else (param "direction" params) (VStr "left") in
       let distance := toNumber (or_else (param "distance" params) (VNum (ofZ 1920))) in
       let '(fromOffset, toOffset) :=
         match direction with
         | VStr "left" =>
             ((nmul (nneg distance) progress, ofZ 0),
              (nmul distance (nsub (ofZ 1) progress), ofZ 0))
         | VStr "right" =>
             ((nmul distance progress, ofZ 0),
              (nmul (nneg distance) (nsub (ofZ 1) progress), ofZ 0))
         | VStr "up" =>
             ((ofZ 0, nmul (nneg distance) progress),
              (ofZ 0, nmul distance (nsub (ofZ 1) progress)))
         | VStr "down" =>
             ((ofZ 0, nmul distance progress),
              (ofZ 0, nmul (nneg distance) (nsub (ofZ 1) progress)))
         | _ => ((ofZ 0, ofZ 0), (ofZ 0, ofZ 0))
         end in
       from ← shiftPosition fromElement fromOffset.1 fromOffset.2;
       to ← shiftPosition toElement toOffset.1 toOffset.2;
       Some (pair_of from to);
     defaultParams := [("direction", VStr "left"); ("distance", VNum (ofZ 1920))] |}.

(** [{ ...element, scale: { x: element.scale.x * s, y: element.scale.y * s },
       opacity: element.opacity * factor }] *)
Definition zoomLayer (element : value) (s factor : number) : option value :=
  scale ← member element "scale";
  x ← member scale "x";
  scale' ← member element "scale";
  y ← member scale' "y";
  opacity ← member element "opacity";
  Some (withField
          (withField element "scale"
             (VObj [("x", VNum (nmul (toNumber x) s));
                    ("y", VNum (nmul (toNumber y) s))]))
          "opacity" (VNum (nmul (toNumber opacity) factor))).

Definition zoomEffect : TransitionEffect :=
  {| resolver_type := zoom;
     apply := fun progress fromElement toElement params =>
       let zoomOut :=
         match param "zoomOut" params with VBool false => false | _ => true end in
       let maxScale := toNumber (or_else (param "maxScale" params) (VNum (ofZ 2))) in
       let minScale := toNumber (or_else (param "minScale" params) (VNum (q 1 2))) in
       fromScale ←
         (if zoomOut then interpolate progress (ofZ 1) maxScale
          else interpolate progress (ofZ 1) minScale);
       toScale ←
         (if zoomOut then interpolate progress minScale (ofZ 1)
          else interpolate progress maxScale (ofZ 1));
       from ← zoomLayer fromElement fromScale (nsub (ofZ 1) progress);
       to ← zoomLayer toElement toScale progress;
       Some (pair_of from to);
     defaultParams := [("zoomOut", VBool true); ("maxScale", VNum (ofZ 2));
                       ("minScale", VNum (q 1 2))] |}.

Definition wipeEffect : TransitionEffect :=
  {| resolver_type := wipe;
     apply := fun progress fromElement toElement params =>
       let direction := or_else (param "direction" params) (VStr "horizontal") in
       let softness := or_else (param "softness" params) (VNum (q 1 10)) in
       Some (pair_of
         (withField fromElement "mask"
            (VObj [("type", VStr "wipe"); ("progress", VNum progress);
                   ("direction", direction); ("softness", softness)]))
         (withField toElement "mask"
            (VObj [("type", VStr "wipe");
                   ("progress", VNum (nsub (ofZ 1) progress));
                   ("direction", direction); ("softness", softness);
                   ("inverted", VBool true)])));
     defaultParams := [("direction", VStr "horizontal"); ("softness", VNum (q 1 10))] |}.

Definition morphEffect : TransitionEffect :=
  {| resolver_type := morph;
     apply := fun progress fromElement toElement params =>
       let morphType := or_else (param "morphType" params) (VStr "blend") in
       match morphType with
       | VStr "blend" =>
           from ← scaleOpacity fromElement (nsub (ofZ 1) progress);
           to ← scaleOpacity toElement progress;
           Some (VObj [("from", from); ("to", to);
                       ("blend", VObj [("mode", VStr "screen");
                                       ("amount", VNum progress)])])
       | _ =>
           Some (VObj [("from", fromElement); ("to", toElement);
                       ("morphProgress", VNum progress)])
       end;
     defaultParams := [("morphType", VStr "blend")] |}.

Definition dissolveEffect : TransitionEffect :=
  {| resolver_type := dissolve;
     apply := fun progress fromElement toElement params =>
       let noiseScale := or_else (param "noiseScale" params) (VNum (ofZ 1)) in
       let threshold := or_else (param "threshold" params) (VNum (q 1 2)) in
       Some (pair_of
         (withField fromElement "dissolve"
            (VObj [("progress", VNum progress); ("noiseScale", noiseScale);
                   ("threshold", threshold)]))
         (withField toElement "dissolve"
            (VObj [("progress", VNum (nsub (ofZ 1) progress));
                   ("noiseScale", noiseScale); ("threshold", threshold);
                   ("inverted", VBool true)])));
     defaultParams := [("noiseScale", VNum (ofZ 1)); ("threshold", VNum (q 1 2))] |}.

Definition pushEffect : TransitionEffect :=
  {| resolver_type := push;
     apply := fun progress fromElement toElement params =>
       let direction := or_else (param "direction" params) (VStr "left") in
       let distance := toNumber (or_else (param "distance" params) (VNum (ofZ 1920))) in
       let offset :=
         match direction with
         | VStr "left" => (nmul (nneg distance) progress, ofZ 0)
         | VStr "right" => (nmul distance progress, ofZ 0)
         | VStr "up" => (ofZ 0, nmul (nneg distance) progress)
         | VStr "down" => (ofZ 0, nmul distance progress)
         | _ => (ofZ 0, ofZ 0)
         end in
       from ← shiftPosition fromElement offset.1 offset.2;
       to ← shiftPosition toElement (nsub offset.1 distance) offset.2;
       Some (pair_of from to);
     defaultParams := [("direction", VStr "left"); ("distance", VNum (ofZ 1920))] |}.

(** [initializeEffects()] *)
Definition initializeEffects : Registry :=
  [ (fade, fadeEffect); (slide, slideEffect); (zoom, zoomEffect);
    (wipe, wipeEffect); (morph, morphEffect); (dissolve, dissolveEffect);
    (push, pushEffect) ].

Section System.
Context (rem : Remotion) (effects : Registry).

(** [TransitionSystem.applyEasing]: the same switch as the engine's *)
Definition applyEasing (progress : number) (e : EasingType) : number :=
  match e with
  | linear => progress
  | ease => easing_ease rem progress
  | ease_in => easing_in_ease rem progress
  | ease_out => easing_out_ease rem progress
  | ease_in_out => easing_inOut_ease rem progress
  | spring => spring_30fps rem progress
  | bounce => easing_bounce rem progress
  | _ => progress
  end.

Definition applyTransition (transition : SceneTransition) (progress : number)
    (fromElement toElement : value) : option value :=
  match lookup (transition_type transition) effects with
  | None => Some (pair_of fromElement toElement)
  | Some effect =>
      let easedProgress := applyEasing progress (transition_easing transition) in
      let params := spread (defaultParams effect) (transition_parameters transition) in
      apply effect easedProgress fromElement toElement params
  end.
End System.

End TransitionSystem.

(** ** SceneComposer (effects.ts) *)

Module SceneComposer.
Import JS MotionEngine.

Record MaskSettings := {
  mask_type : value;
  inverted : value;
  feather : value;
  expansion : value;
  path : value;
}.

Record CompositionLayer := {
  element : MotionElement;
  computedProperties : loc;
  layer_visible : bool;
  blendMode : value;
  mask : option MaskSettings;
}.

Record ActiveTransition := {
  transition : SceneTransition;
  progress : number;
  at_startFrame : number;
  at_endFrame : number;
  fromScene : option MotionScene;
  toScene : option MotionScene;
}.

Record SceneComposition := {
  scene : MotionScene;
  layers : list CompositionLayer;
  activeTransitions : list ActiveTransition;
  frame : Z;
  timestamp : Z;
}.

(** The predicate of [scene.elements.filter(...)] in [createComposition] *)
Definition isActiveAt (frame : Z) (element : MotionElement) : bool :=
  (startFrame element <=? frame) && (frame <=? endFrame element) && visible element.

(** [activeElements.sort((a, b) => a.layer - b.layer)], a stable sort *)
Fixpoint insertByLayer (e : MotionElement) (es : list MotionElement)
    : list MotionElement :=
  match es with
  | [] => [e]
  | e' :: rest =>
      if layer e <=? layer e' then e :: es else e' :: insertByLayer e rest
  end.

Fixpoint sortByLayer (es : list MotionElement) : list MotionElement :=
  match es with
  | [] => []
  | e :: rest => insertByLayer e (sortByLayer rest)
  end.

Definition param (name : string) (params : list (string * value)) : value :=
  default VUndef (JS.get name params).

Definition getElementBlendMode (element : MotionElement) : value :=
  match List.find (fun effect =>
          bool_decide (effect_type effect = other_effect "blend"))
          (effects element) with
  | Some blendEffect =>
      if enabled blendEffect
      then or_else (param "mode" (parameters blendEffect)) (VStr "normal")
      else VStr "normal"
  | None => VStr "normal"
  end.

Definition getElementMask (element : MotionElement) (frame : Z)
    : option MaskSettings :=
  match List.find (fun effect =>
          bool_decide (effect_type effect = other_effect "mask"))
          (effects element) with
  | Some maskEffect =>
      if enabled maskEffect then
        Some {| mask_type := or_else (param "type" (parameters maskEffect)) (VStr "alpha");
                inverted := or_else (param "inverted" (parameters maskEffect)) (VBool false);
                feather := or_else (param "feather" (parameters maskEffect)) (VNum (ofZ 0));
                expansion := or_else (param "expansion" (parameters maskEffect)) (VNum (ofZ 0));
                path := param "path" (parameters maskEffect) |}
      else None
  | None => None
  end.

Definition getTransitionStartFrame (transition : SceneTransition)
    (scene : MotionScene) : number :=
  match direction transition with
  | Some dir_in => ofZ (scene_startFrame scene)
  | Some dir_out => ofZ (scene_endFrame scene - transition_duration transition)
  | _ =>
      nadd (ofZ (scene_startFrame scene))
           (ndiv (ofZ (scene_duration scene - transition_duration transition))
                 (ofZ 2))
  end.

Section Composer.
Context (rem : Remotion).
(** [motionEngine.getProject()] *)
Context (project : option MotionProject).

(** [project.scenes.findIndex(scene => scene.id === id)] *)
Fixpoint findIndex (id : string) (ss : list MotionScene) (i : Z) : Z :=
  match ss with
  | [] => -1
  | s :: rest => if String.eqb (scene_id s) id then i else findIndex id rest (i + 1)
  end.

(** [scenes[i]] *)
Definition sceneAt (ss : list MotionScene) (i : Z) : option MotionScene :=
  if i <? 0 then None else ss !! Z.to_nat i.

Definition getPreviousScene (currentScene : MotionScene) : option MotionScene :=
  match project with
  | None => None
  | Some p =>
      let currentIndex := findIndex (scene_id currentScene) (scenes p) 0 in
      if 0 <? currentIndex then sceneAt (scenes p) (currentIndex - 1) else None
  end.

Definition getNextScene (currentScene : MotionScene) : option MotionScene :=
  match project with
  | None => None
  | Some p =>
      let currentIndex := findIndex (scene_id currentScene) (scenes p) 0 in
      if currentIndex <? Z.of_nat (length (scenes p)) - 1
      then sceneAt (scenes p) (currentIndex + 1) else None
  end.

(** The body of [scene.transitions.forEach(...)]: the entry pushed for
    one transition, if any *)
Definition activeTransition (scene : MotionScene) (frame : Z)
    (transition : SceneTransition) : option ActiveTransition :=
  let startFrame := getTransitionStartFrame transition scene in
  let endFrame := nadd startFrame (ofZ (transition_duration transition)) in
  if nle startFrame (ofZ frame) && nle (ofZ frame) endFrame then
    let progress :=
      ndiv (nsub (ofZ frame) startFrame) (ofZ (transition_duration transition)) in
    Some {| transition := transition; progress := progress;
            at_startFrame := startFrame; at_endFrame := endFrame;
            fromScene := getPreviousScene scene;
            toScene := getNextScene scene |}
  else None.

Definition calculateActiveTransitions (scene : MotionScene) (frame : Z)
    : list ActiveTransition :=
  omap (activeTransition scene frame) (transitions scene).

(** [properties.opacity <= 0] on the returned property bag; [null] compares
    as 0, any other opacity that is not a number as NaN does. *)
Definition opacityNotPositive (st : Store) (properties : loc) : bool :=
  match objs st !! properties with
  | Some o =>
      match JS.get "opacity" o with
      | Some (HPrim (PNum n)) => nle n (ofZ 0)
      | Some (HPrim PNull) => true
      | _ => false
      end
  | None => false
  end.

Definition isElementVisible (st : Store) (element : MotionElement) (frame : Z)
    : option (Store * bool) :=
  if (frame <? startFrame element) || (endFrame element <? frame)
  then Some (st, false)
  else
    '(st1, properties) ← calculateElementPropertiesAtFrame rem st element frame;
    if opacityNotPositive st1 properties then Some (st1, false)
    else if locked element then Some (st1, false)
    else Some (st1, visible element).

(** The callback of [activeElements.map(...)] *)
Definition composeLayer (st : Store) (element : MotionElement) (frame : Z)
    : option (Store * CompositionLayer) :=
  '(st1, computedProperties) ← calculateElementPropertiesAtFrame rem st element frame;
  '(st2, vis) ← isElementVisible st1 element frame;
  Some (st2, {| element := element;
                computedProperties := computedProperties;
                layer_visible := vis;
                blendMode := getElementBlendMode element;
                mask := getElementMask element frame |}).

Fixpoint composeLayers (st : Store) (es : list MotionElement) (frame : Z)
    : option (Store * list CompositionLayer) :=
  match es with
  | [] => Some (st, [])
  | e :: rest =>
      '(st1, l) ← composeLayer st e frame;
      '(st2, ls) ← composeLayers st1 rest frame;
      Some (st2, l :: ls)
  end.

(** [createComposition(scene, frame)]; [now] is [Date.now()]. *)
Definition createComposition (now : Z) (st : Store) (scene : MotionScene)
    (frame : Z) : option (Store * SceneComposition) :=
  let activeElements :=
    sortByLayer (List.filter (isActiveAt frame) (elements scene)) in
  '(st1, layers) ← composeLayers st activeElements frame;
  let activeTransitions := calculateActiveTransitions scene frame in
  Some (st1, {| scene := scene; layers := layers;
                activeTransitions := activeTransitions;
                frame := frame; timestamp := now |}).

(** The composition cache, a [Map] in insertion order *)
Definition Cache := list (string * SceneComposition).

Definition maxCacheSize : nat := 100.

Definition cacheKey (scene : MotionScene) (frame : Z) : string :=
  scene_id scene +:+ "-" +:+ pretty frame.

Definition cacheComposition (cache : Cache) (key : string)
    (composition : SceneComposition) : Cache :=
  let cache' :=
    if (maxCacheSize <=? length cache)%nat then tail cache else cache in
  JS.set key composition cache'.

(** [composeScene(scene, frame)] *)
Definition composeScene (now : Z) (st : Store) (cache : Cache)
    (scene : MotionScene) (frame : Z)
    : option (Store * Cache * SceneComposition) :=
  match JS.get (cacheKey scene frame) cache with
  | Some cached => Some (st, cache, cached)
  | None =>
      '(st1, composition) ← createComposition now st scene frame;
      Some (st1, cacheComposition cache (cacheKey scene frame) composition,
            composition)
  end.

(** [clearSceneCache(sceneId)] *)
Definition clearSceneCache (cache : Cache) (sceneId : string) : Cache :=
  List.filter (fun entry => negb (String.prefix sceneId entry.1)) cache.
End Composer.

End SceneComposer.

(** ** MotionRenderer (renderer) *)

Module MotionRenderer.
Import JS MotionEngine SceneComposer.

Inductive Format := mp4 | webm | gif | lottie | frames_format.
Inductive Quality := draft | preview_quality | low | medium | high | ultra.
Inductive Resolution := r480p | r720p | r1080p | r1440p | r4k.

Inductive RenderStage :=
  | initializing | composing | rendering | encoding | optimizing | finalizing.

Inductive JobStatus := pending | processing | completed | failed.

#[global] Instance JobStatus_eq_dec : EqDecision JobStatus.
Proof. solve_decision. Defined.

#[global] Instance RenderStage_eq_dec : EqDecision RenderStage.
Proof. solve_decision. Defined.

(** The callbacks [onProgress] and [onStageChange] belong to the caller:
    the options say whether they are present, and their calls are
    recorded. *)
Record RenderOptions := {
  format : Format;
  quality : Quality;
  resolution : Resolution;
  has_onProgress : bool;
  has_onStageChange : bool;
  preview : bool;
}.

Definition extension (f : Format) : string :=
  match f with
  | mp4 => "mp4" | webm => "webm" | gif => "gif" | lottie => "lottie"
  | frames_format => "frames"
  end.

(** [`/api/previews/${id}.${ext}`] and [`/api/videos/${id}.${ext}`];
    generated ids are numbers handed out in sequence. *)
Record Url := { folder : string; uid : nat; ext : string }.

(** An error message: a text of the repository, the message of an error
    raised by the schema library, or the message of an error raised while a
    frame is composed (by the runtime, or by remotion). *)
Inductive Message :=
  | Text (s : string)
  | SchemaError
  | RuntimeError.

Record RenderJob := {
  id : nat;
  project : MotionProject;
  options : RenderOptions;
  status : JobStatus;
  progress : number;
  currentStage : RenderStage;
  startTime : option Z;
  endTime : option Z;
  outputUrl : option Url;
  error : option Message;
}.

Inductive Callback :=
  | OnStageChange (job : nat) (stage : RenderStage)
  | OnProgress (job : nat) (progress : number) (stage : string).

(** Where a call of [renderProject] is suspended.  The frame tasks hold the
    outcome of the [renderFrame] call being awaited ([None]: it threw); the
    two that follow a loop hold the frames handed to [createPreviewVideo]
    and to [encodeVideo]. *)
Inductive Task :=
  | AwaitPreviewFrame (frame frameStep : Z) (frames : list string)
      (frameData : option string)
  | AwaitPreviewVideo (frames : list string) (previewUrl : Url)
  | AwaitFinalFrame (frame : Z) (frames : list string)
      (frameData : option string)
  | AwaitEncode (frames : list string) (videoUrl : Url)
  | AwaitOptimize (optimizedUrl : Url)
  | Rejected (message : Message)
  | Returned (url : Url)
  | Thrown (message : Message).

(** A job is one object, shared by the job table and by the call that works
    on it: the objects are kept by id in [jobObjects], and [jobs] lists the
    ids that are keys of the table, in insertion order. *)
Record Renderer := {
  jobObjects : gmap nat RenderJob;
  jobs : list nat;
  activeJobs : gset nat;
  maxConcurrentJobs : nat;
  tasks : gmap nat Task;
  nextId : nat;
  engineProject : option MotionProject;
  store : Store;
  cache : Cache;
  callbacks : list Callback;
}.

(** [new MotionRenderer()] over a given store *)
Definition create (st : Store) : Renderer :=
  {| jobObjects := ∅; jobs := []; activeJobs := ∅; maxConcurrentJobs := 2; tasks := ∅;
     nextId := 0; engineProject := None; store := st; cache := [];
     callbacks := [] |}.

Definition placeholderFrame : string :=
  "data:image/png;base64,iVBORw0KGgoAAAANSUhEUgAAAAEAAAABCAYAAAAfFcSJAAAADUlEQVR42mNkYPhfDwAChwGA60e6kgAAAABJRU5ErkJggg==".

Definition getResolutionDimensions (r : Resolution) : Z * Z :=
  match r with
  | r480p => (854, 480)
  | r720p => (1280, 720)
  | r1080p => (1920, 1080)
  | r1440p => (2560, 1440)
  | r4k => (3840, 2160)
  end.

(** [(bitrate, crf, preset)] *)
Definition getQualitySettings (qy : Quality) : string * Z * string :=
  match qy with
  | draft => ("500K", 35, "ultrafast")
  | preview_quality => ("1M", 30, "fast")
  | low => ("2M", 28, "medium")
  | medium => ("4M", 23, "medium")
  | high => ("8M", 18, "slow")
  | ultra => ("16M", 15, "slower")
  end.

Section Renderer.
Context (rem : Remotion).

Definition setJob (r : Renderer) (job : RenderJob) : Renderer :=
  {| jobObjects := <[id job := job]> (jobObjects r); jobs := jobs r;
     activeJobs := activeJobs r;
     maxConcurrentJobs := maxConcurrentJobs r; tasks := tasks r;
     nextId := nextId r; engineProject := engineProject r;
     store := store r; cache := cache r; callbacks := callbacks r |}.

(** [this.jobs.set(jobId, job)], for the object of that id *)
Definition tableSet (r : Renderer) (jobId : nat) : Renderer :=
  {| jobObjects := jobObjects r;
     jobs := if bool_decide (jobId ∈ jobs r) then jobs r else jobs r ++ [jobId];
     activeJobs := activeJobs r;
     maxConcurrentJobs := maxConcurrentJobs r; tasks := tasks r;
     nextId := nextId r; engineProject := engineProject r;
     store := store r; cache := cache r; callbacks := callbacks r |}.

Definition setTask (r : Renderer) (jobId : nat) (t : Task) : Renderer :=
  {| jobObjects := jobObjects r; jobs := jobs r; activeJobs := activeJobs r;
     maxConcurrentJobs := maxConcurrentJobs r;
     tasks := <[jobId := t]> (tasks r);
     nextId := nextId r; engineProject := engineProject r;
     store := store r; cache := cache r; callbacks := callbacks r |}.

Definition call (r : Renderer) (c : Callback) : Renderer :=
  {| jobObjects := jobObjects r; jobs := jobs r; activeJobs := activeJobs r;
     maxConcurrentJobs := maxConcurrentJobs r; tasks := tasks r;
     nextId := nextId r; engineProject := engineProject r;
     store := store r; cache := cache r; callbacks := callbacks r ++ [c] |}.

Definition generateId (r : Renderer) : Renderer * nat :=
  ({| jobObjects := jobObjects r; jobs := jobs r; activeJobs := activeJobs r;
      maxConcurrentJobs := maxConcurrentJobs r; tasks := tasks r;
      nextId := S (nextId r); engineProject := engineProject r;
      store := store r; cache := cache r; callbacks := callbacks r |},
   nextId r).

Definition withStatus (job : RenderJob) (s : JobStatus) (e : option Message)
    (url : option Url) (finished : option Z) : RenderJob :=
  {| id := id job; project := project job; options := options job;
     status := s; progress := progress job; currentStage := currentStage job;
     startTime := startTime job; endTime := finished;
     outputUrl := url; error := e |}.

(** [updateJobStage(job, stage)] *)
Definition updateJobStage (r : Renderer) (job : RenderJob) (stage : RenderStage)
    : Renderer * RenderJob :=
  let job' :=
    {| id := id job; project := project job; options := options job;
       status := status job; progress := progress job; currentStage := stage;
       startTime := startTime job; endTime := endTime job;
       outputUrl := outputUrl job; error := error job |} in
  let r1 := setJob r job' in
  (if has_onStageChange (options job)
   then call r1 (OnStageChange (id job) stage) else r1, job').

(** [updateJobProgress(job, progress)] *)
Definition updateJobProgress (r : Renderer) (job : RenderJob) (p : number)
    : Renderer * RenderJob :=
  let job' :=
    {| id := id job; project := project job; options := options job;
       status := status job;
       progress := nmin (ofZ 100) (nmax (ofZ 0) p);
       currentStage := currentStage job;
       startTime := startTime job; endTime := endTime job;
       outputUrl := outputUrl job; error := error job |} in
  (setJob r job', job').

Definition findActiveScene (p : MotionProject) (frame : Z) : option MotionScene :=
  List.find (fun scene =>
    (scene_startFrame scene <=? frame) && (frame <=? scene_endFrame scene))
    (scenes p).

(** [renderFrame(project, frame, preview)] up to its result: the frame
    data, or [None] when composing the scene threw. *)
Definition renderFrame (now : Z) (r : Renderer) (p : MotionProject) (frame : Z)
    : Renderer * option string :=
  match findActiveScene p frame with
  | None => (r, Some placeholderFrame)
  | Some activeScene =>
      match composeScene rem (engineProject r) now (store r) (cache r)
              activeScene frame with
      | Some (st, c, _) =>
          ({| jobObjects := jobObjects r; jobs := jobs r; activeJobs := activeJobs r;
              maxConcurrentJobs := maxConcurrentJobs r; tasks := tasks r;
              nextId := nextId r; engineProject := engineProject r;
              store := st; cache := c; callbacks := callbacks r |},
           Some placeholderFrame)
      | None => (r, None)
      end
  end.

(** [MotionProjectSchema.parse(project)]: the four positive numbers *)
Definition schemaAccepts (p : MotionProject) : bool :=
  (0 <? project_duration p) && (0 <? fps p) && (0 <? width p) && (0 <? height p).

(** [motionEngine.loadProject(project)]; [None] when the schema throws. *)
Definition loadProject (r : Renderer) (p : MotionProject) : option Renderer :=
  if schemaAccepts p then
    Some {| jobObjects := jobObjects r; jobs := jobs r; activeJobs := activeJobs r;
            maxConcurrentJobs := maxConcurrentJobs r; tasks := tasks r;
            nextId := nextId r; engineProject := Some p;
            store := store r; cache := cache r; callbacks := callbacks r |}
  else None.

Definition createPreviewVideo (r : Renderer) (o : RenderOptions) : Renderer * Url :=
  let '(r1, u) := generateId r in
  (r1, {| folder := "/api/previews/"; uid := u; ext := extension (format o) |}).

Definition encodeVideo (r : Renderer) (o : RenderOptions) : Renderer * Url :=
  let '(r1, u) := generateId r in
  (r1, {| folder := "/api/videos/"; uid := u; ext := extension (format o) |}).

(** [videoUrl.replace('.' + a, '.' + b)]: neither the folder nor the id
    holds a dot. *)
Definition replaceExtension (u : Url) (a b : string) : Url :=
  if String.eqb (ext u) a
  then {| folder := folder u; uid := uid u; ext := b |} else u.

Definition optimizeOutput (videoUrl : Url) (o : RenderOptions) : Url :=
  match format o with
  | gif => replaceExtension videoUrl "mp4" "gif"
  | lottie => replaceExtension videoUrl "mp4" "json"
  | _ => videoUrl
  end.

(** The stride of [renderPreview].  Both lines are only used inside the
    loop, which runs for a positive duration only. *)
Definition previewFrames (duration : Z) : Z := Z.min duration 150.

Definition frameStep (duration : Z) : Z :=
  Z.max 1 (duration / previewFrames duration).

(** The head of the loop of [renderPreview] at [frame]: start the next
    frame or leave the loop. *)
Definition previewLoop (now : Z) (r : Renderer) (job : RenderJob)
    (frame step : Z) (frames : list string) : Renderer :=
  if frame <? project_duration (project job) then
    let '(r1, frameData) := renderFrame now r (project job) frame in
    setTask r1 (id job) (AwaitPreviewFrame frame step frames frameData)
  else
    let '(r1, job1) := updateJobStage r job finalizing in
    let '(r2, previewUrl) := createPreviewVideo r1 (options job1) in
    setTask r2 (id job) (AwaitPreviewVideo frames previewUrl).

Definition renderPreview (now : Z) (r : Renderer) (job : RenderJob) : Renderer :=
  let '(r1, job1) := updateJobStage r job composing in
  previewLoop now r1 job1 0 (frameStep (project_duration (project job1))) [].

(** The head of the loop of [renderFinal] at [frame] *)
Definition finalLoop (now : Z) (r : Renderer) (job : RenderJob)
    (frame : Z) (frames : list string) : Renderer :=
  if frame <? project_duration (project job) then
    let '(r1, frameData) := renderFrame now r (project job) frame in
    setTask r1 (id job) (AwaitFinalFrame frame frames frameData)
  else
    let '(r1, job1) := updateJobStage r job encoding in
    let '(r2, videoUrl) := encodeVideo r1 (options job1) in
    setTask r2 (id job) (AwaitEncode frames videoUrl).

Definition renderFinal (now : Z) (r : Renderer) (job : RenderJob) : Renderer :=
  let '(r1, job1) := updateJobStage r job composing in
  match loadProject r1 (project job1) with
  | None => setTask r1 (id job) (Rejected SchemaError)
  | Some r2 =>
      let '(r3, job3) := updateJobStage r2 job1 rendering in
      finalLoop now r3 job3 0 []
  end.

(** [renderProject(project, options)] up to its first suspension; the
    second component is the id of the new job. *)
Definition renderProject (now : Z) (r : Renderer) (p : MotionProject)
    (o : RenderOptions) : Renderer * nat :=
  let '(r1, jobId) := generateId r in
  let job :=
    {| id := jobId; project := p; options := o; status := pending;
       progress := ofZ 0; currentStage := initializing;
       startTime := Some now; endTime := None;
       outputUrl := None; error := None |} in
  let r2 := tableSet (setJob r1 job) jobId in
  (if preview o then renderPreview now r2 job else renderFinal now r2 job,
   jobId).

(** The [catch] block of [renderProject] *)
Definition fail (now : Z) (r : Renderer) (job : RenderJob) (m : Message)
    : Renderer :=
  setTask (setJob r (withStatus job failed (Some m) (outputUrl job) (Some now)))
    (id job) (Thrown m).

(** One turn of the event loop for the call working on [jobId]: it runs
    from the result it awaits to its next suspension, or to its end. *)
Definition resume (now : Z) (r : Renderer) (jobId : nat) : Renderer :=
  match tasks r !! jobId, jobObjects r !! jobId with
  | Some task, Some job =>
      match task with
      | AwaitPreviewFrame frame step frames (Some frameData) =>
          let p := nmul (ndiv (ofZ frame) (ofZ (project_duration (project job))))
                        (ofZ 100) in
          let '(r1, job1) := updateJobProgress r job p in
          previewLoop now r1 job1 (frame + step) step (frames ++ [frameData])
      | AwaitFinalFrame frame frames (Some frameData) =>
          let p := nmul (ndiv (ofZ frame) (ofZ (project_duration (project job))))
                        (ofZ 80) in
          let '(r1, job1) := updateJobProgress r job p in
          let r2 := if has_onProgress (options job1)
                    then call r1 (OnProgress jobId p "rendering") else r1 in
          finalLoop now r2 job1 (frame + 1) (frames ++ [frameData])
      | AwaitPreviewFrame _ _ _ None | AwaitFinalFrame _ _ None =>
          setTask r jobId (Rejected RuntimeError)
      | AwaitPreviewVideo _ previewUrl =>
          setTask (setJob r (withStatus job completed (error job)
                               (Some previewUrl) (Some now)))
            jobId (Returned previewUrl)
      | AwaitEncode _ videoUrl =>
          let '(r1, job1) := updateJobProgress r job (ofZ 90) in
          let '(r2, job2) := updateJobStage r1 job1 optimizing in
          setTask r2 jobId (AwaitOptimize (optimizeOutput videoUrl (options job2)))
      | AwaitOptimize optimizedUrl =>
          let '(r1, job1) := updateJobProgress r job (ofZ 100) in
          let '(r2, job2) := updateJobStage r1 job1 finalizing in
          setTask (setJob r2 (withStatus job2 completed (error job2)
                                (Some optimizedUrl) (Some now)))
            jobId (Returned optimizedUrl)
      | Rejected m => fail now r job m
      | Returned _ | Thrown _ => r
      end
  | _, _ => r
  end.

(** [getJob(jobId)] *)
Definition getJob (r : Renderer) (jobId : nat) : option RenderJob :=
  if bool_decide (jobId ∈ jobs r) then jobObjects r !! jobId else None.

(** [getAllJobs()] *)
Definition getAllJobs (r : Renderer) : list RenderJob :=
  omap (fun jobId => jobObjects r !! jobId) (jobs r).

(** [cancelJob(jobId)] *)
Definition cancelJob (now : Z) (r : Renderer) (jobId : nat) : Renderer * bool :=
  match getJob r jobId with
  | Some job =>
      if bool_decide (status job = processing) then
        let job' := withStatus job failed (Some (Text "Cancelled by user"))
                      (outputUrl job) (Some now) in
        ({| jobObjects := <[jobId := job']> (jobObjects r); jobs := jobs r;
            activeJobs := activeJobs r ∖ {[jobId]};
            maxConcurrentJobs := maxConcurrentJobs r; tasks := tasks r;
            nextId := nextId r; engineProject := engineProject r;
            store := store r; cache := cache r; callbacks := callbacks r |},
         true)
      else (r, false)
  | None => (r, false)
  end.

(** [clearCompletedJobs()] *)
Definition clearCompletedJobs (r : Renderer) : Renderer :=
  {| jobObjects := jobObjects r;
     jobs := List.filter
               (fun jobId =>
                  match jobObjects r !! jobId with
                  | Some job =>
                      negb (bool_decide (status job = completed)
                            || bool_decide (status job = failed))
                  | None => true
                  end) (jobs r);
     activeJobs := activeJobs r;
     maxConcurrentJobs := maxConcurrentJobs r; tasks := tasks r;
     nextId := nextId r; engineProject := engineProject r;
     store := store r; cache := cache r; callbacks := callbacks r |}.

(** [n] turns of the event loop for the call working on [jobId] *)
Fixpoint resumeTimes (n : nat) (now : Z) (r : Renderer) (jobId : nat) : Renderer :=
  match n with
  | O => r
  | S n' => resumeTimes n' now (resume now r jobId) jobId
  end.

(** What can happen to a renderer: a request, a turn of the event loop for
    one of the calls, a cancellation, a cleanup. *)
Inductive Operation :=
  | Request (p : MotionProject) (o : RenderOptions)
  | Resume (jobId : nat)
  | Cancel (jobId : nat)
  | Cleanup.

Definition perform (now : Z) (r : Renderer) (op : Operation) : Renderer :=
  match op with
  | Request p o => (renderProject now r p o).1
  | Resume jobId => resume now r jobId
  | Cancel jobId => (cancelJob now r jobId).1
  | Cleanup => clearCompletedJobs r
  end.

(** A history: operations with the time at which each happens *)
Definition performAll (r : Renderer) (history : list (Z * Operation)) : Renderer :=
  fold_left (fun r step => perform step.1 r step.2) history r.

(** The jobs of the table in a given status *)
Definition jobsIn (s : JobStatus) (r : Renderer) : list RenderJob :=
  List.filter (fun job => bool_decide (status job = s)) (getAllJobs r).
End Renderer.

End MotionRenderer.

(** ** Sample projects and the vocabulary of the properties *)

Module Sample.
Import JS MotionEngine SceneComposer.

(** A stand-in for the remotion curves where an instance is needed; the
    samples use the linear easing only. *)
Definition sampleCurves : Remotion :=
  {| easing_ease := fun p => p; easing_in_ease := fun p => p;
     easing_out_ease := fun p => p; easing_inOut_ease := fun p => p;
     easing_bounce := fun p => p; spring_30fps := fun p => p |}.

Definition half : number := Fin (Q2Qc (1 # 2)).

Definition emptyStore : Store := {| objs := []; kfs := [] |}.

Definition keyframeAt (f : Z) (v : value) : Keyframe :=
  {| kf_frame := f; kf_value := v; kf_easing := None |}.

(** A linear animation of [prop], not looping, over the keyframe array at
    [l] *)
Definition animationOf (prop : string) (l : loc) (d : Z) : Animation :=
  {| anim_id := "a"; property := prop; keyframes := l; easing := linear;
     duration := 0; delay := d; loop := false; yoyo := false |}.

Definition elementOf (n : string) (lay : Z) (vis lock : bool) (s e : Z)
    (props : loc) (anims : list Animation) : MotionElement :=
  {| id := n; name := n; startFrame := s; endFrame := e; layer := lay;
     visible := vis; locked := lock; properties := props;
     animations := anims; effects := [] |}.

Definition sceneOf (es : list MotionElement) (ts : list SceneTransition)
    (s e : Z) : MotionScene :=
  {| scene_id := "scene"; scene_title := "Scene"; scene_startFrame := s;
     scene_endFrame := e; scene_duration := e - s; elements := es;
     transitions := ts |}.

(** The keyframe value [{ constructor: 7 }] *)
Definition taggedValue : value := VObj [("constructor", VNum (ofZ 7))].

(** One animation with the single keyframe (10, 5) *)
Definition singleKeyframeStore : Store :=
  {| objs := []; kfs := [[keyframeAt 10 (VNum (ofZ 5))]] |}.

(** One property bag [{ opacity: 1 }] *)
Definition opaqueStore : Store :=
  {| objs := [[("opacity", HPrim (PNum (ofZ 1)))]]; kfs := [] |}.

(** A locked element above an unlocked one, both visible over frames 0 to
    100 *)
Definition lockedScene : MotionScene :=
  sceneOf [ elementOf "title" 2 true true 0 100 0%nat [];
            elementOf "backdrop" 1 true false 0 100 0%nat [] ] [] 0 100.

(** An element at position (0, 0) whose [position.x] is animated from 0 at
    frame 0 to 300 at frame 30.  Location 0 holds its property bag, location
    1 the position object the bag refers to. *)
Definition movingStore : Store :=
  {| objs := [ [("position", HRef 1%nat); ("opacity", HPrim (PNum (ofZ 1)))];
               [("x", HPrim (PNum (ofZ 0))); ("y", HPrim (PNum (ofZ 0)))] ];
     kfs := [ [keyframeAt 0 (VNum (ofZ 0)); keyframeAt 30 (VNum (ofZ 300))] ] |}.

(** The same element with its two keyframes entered latest first *)
Definition unsortedStore : Store :=
  {| objs := objs movingStore;
     kfs := [ [keyframeAt 30 (VNum (ofZ 300)); keyframeAt 0 (VNum (ofZ 0))] ] |}.

Definition movingElement : MotionElement :=
  elementOf "box" 0 true false 0 100 0%nat [animationOf "position.x" 0%nat 0].

(** [element.properties.position.x], read from the store *)
Definition positionX (st : Store) (element : MotionElement) : option number :=
  bag ← objs st !! properties element;
  position ← JS.get "position" bag;
  match position with
  | HRef l =>
      o ← objs st !! l;
      x ← JS.get "x" o;
      match x with HPrim (PNum n) => Some n | _ => None end
  | HPrim _ => None
  end.

(** The frames of the keyframes of an animation, in the order of its array *)
Definition keyframeOrder (st : Store) (a : Animation) : option (list Z) :=
  map kf_frame <$> (kfs st !! keyframes a).

(** Ascending order of layer *)
Definition byLayer (a b : MotionElement) : Prop := layer a <= layer b.

Definition effectOf (t : EffectType) (params : list (string * value)) : Effect :=
  {| effect_id := "e"; effect_type := t; enabled := true; parameters := params;
     effect_startFrame := None; effect_endFrame := None |}.

(** A blur whose amount, 999, is above the declared maximum of 50 *)
Definition strongBlur : Effect :=
  effectOf blur [("amount", VNum (ofZ 999)); ("directional", VBool false);
                 ("angle", VNum (ofZ 0))].

(** The same blur with the amount at the declared maximum *)
Definition clampedBlur : Effect :=
  effectOf blur [("amount", VNum (ofZ 50)); ("directional", VBool false);
                 ("angle", VNum (ofZ 0))].

(** A linear fade of 30 frames anchored at the start of its scene *)
Definition fadeIn30 : SceneTransition :=
  {| transition_id := "t"; transition_type := fade;
     transition_duration := 30; transition_easing := linear;
     direction := Some dir_in; transition_parameters := [] |}.

(** A scene that starts at frame 10 *)
Definition fadeScene : MotionScene := sceneOf [] [fadeIn30] 10 100.

Definition layerOfOpacity (o : number) : value := VObj [("opacity", VNum o)].

(** A project of [d] frames at 30 fps, 1920 x 1080, without scenes *)
Definition projectOf (d : Z) : MotionProject :=
  {| project_id := "p"; project_duration := d; fps := 30; width := 1920;
     height := 1080; scenes := [] |}.

End Sample.

Module RenderSample.
Import JS MotionEngine SceneComposer MotionRenderer Sample.

Definition optionsOf (isPreview : bool) : RenderOptions :=
  {| format := mp4; quality := medium; resolution := r1080p;
     has_onProgress := false; has_onStageChange := false;
     preview := isPreview |}.

(** The frames handed on once the frame loop of a job is over *)
Definition framesComposed (r : Renderer) (jobId : nat) : option (list string) :=
  match tasks r !! jobId with
  | Some (AwaitPreviewVideo frames _) | Some (AwaitEncode frames _) => Some frames
  | _ => None
  end.

(** A preview of a 299-frame project, after 299 turns of its call *)
Definition previewOf299 : Renderer :=
  resumeTimes sampleCurves 299 0
    (renderProject sampleCurves 0 (create emptyStore) (projectOf 299)
       (optionsOf true)).1 0.

(** [Math.ceil(totalFrames / frameBudget)] *)
Definition ceilDiv (totalFrames frameBudget : Z) : Z :=
  (totalFrames + frameBudget - 1) / frameBudget.



(** Three final renders of a 300-frame project requested in a row *)
Definition threeRequests : Renderer :=
  performAll sampleCurves (create emptyStore)
    [ (0, Request (projectOf 300) (optionsOf false));
      (0, Request (projectOf 300) (optionsOf false));
      (0, Request (projectOf 300) (optionsOf false)) ].

(** A final render of a one-frame project, as its request leaves it *)
Definition oneFrameRender : Renderer :=
  (renderProject sampleCurves 0 (create emptyStore) (projectOf 1)
     (optionsOf false)).1.

(** The status of a job after each of the first [n] turns of its call *)
Definition statusHistory (rem : Remotion) (r : Renderer) (jobId : nat) (n : nat)
    : list (option JobStatus) :=
  map (fun k => status <$> (getJob (resumeTimes rem k 0 r jobId) jobId))
      (seq 0 (S n)).

(** Every job object has a status in [Q]. *)
Definition allStatus (Q : JobStatus -> Prop) (r : Renderer) : Prop :=
  map_Forall (fun _ job => Q (status job)) (jobObjects r).

(** No job object is in status [processing]. *)
Definition noneProcessing (r : Renderer) : Prop :=
  allStatus (fun s => s <> processing) r.

(** What the steps of a render leave alone: the set of active jobs; and
    they keep the statuses in [Q]. *)
Definition quiet (Q : JobStatus -> Prop) (r r' : Renderer) : Prop :=
  activeJobs r' = activeJobs r /\ (allStatus Q r -> allStatus Q r').

End RenderSample.


(** ** Vocabulary of the further properties *)

Module Observe.
Import JS MotionEngine.

(** Ascending order of frame *)
Definition byFrame (a b : Keyframe) : Prop := kf_frame a <= kf_frame b.

(** [keys.join('.')], the inverse of [path.split('.')] *)
Fixpoint joinPath (keys : list string) : string :=
  match keys with
  | [] => EmptyString
  | [k] => k
  | k :: rest => k +:+ String (Ascii.ascii_of_nat 46) (joinPath rest)
  end.

(** The value is a finite number. *)
Definition finiteNumber (v : value) : Prop := exists x, v = VNum (Fin x).

(** The value is a number or [undefined]. *)
Definition numberOrUndefined (v : value) : Prop :=
  v = VUndef \/ exists n, v = VNum n.

(** The keyframe arrays of [st'] are those of [st], each with its keyframes
    in some order. *)
Definition sameKeyframes (st st' : Store) : Prop :=
  length (kfs st') = length (kfs st) /\
  forall i ks, kfs st !! i = Some ks ->
    exists ks', kfs st' !! i = Some ks' /\ ks' ≡ₚ ks.

(** The string holds no dot. *)
Fixpoint dotFree (s : string) : bool :=
  match s with
  | EmptyString => true
  | String c rest => negb (Ascii.eqb c (Ascii.ascii_of_nat 46)) && dotFree rest
  end.

(** [obj.k1.k2...], read from the store: what a later read of the same path
    gives; [None] where there is no such field. *)
Fixpoint getNestedProperty (st : Store) (current : hval) (path : list string)
    : option hval :=
  match path with
  | [] => Some current
  | k :: rest =>
      match current with
      | HRef l =>
          o ← objs st !! l;
          next ← JS.get k o;
          getNestedProperty st next rest
      | HPrim _ => None
      end
  end.



End Observe.


(** ** Further sample data *)

Module MoreSamples.
Import JS MotionEngine Sample.

(** The animation of [position.x] of the moving element *)
Definition moveX : Animation := animationOf "position.x" 0%nat 0.

(** The same animation, looping every 40 frames, with or without yoyo *)
Definition loopingX (back : bool) : Animation :=
  {| anim_id := "a"; property := "position.x"; keyframes := 0%nat;
     easing := linear; duration := 40; delay := 0; loop := true;
     yoyo := back |}.

(** An element over the opaque property bag whose [opacity] is animated by
    the keyframe array at location 0 *)
Definition fadingElement : MotionElement :=
  elementOf "box" 0 true false 0 100 0%nat [animationOf "opacity" 0%nat 0].

Definition fadingStore : Store :=
  {| objs := objs opaqueStore;
     kfs := [ [keyframeAt 0 (VNum (ofZ 0)); keyframeAt 30 (VNum (ofZ 1))] ] |}.


(** A layer of full opacity at scale 1 *)
Definition unitLayer : value :=
  VObj [("scale", VObj [("x", VNum (ofZ 1)); ("y", VNum (ofZ 1))]);
        ("opacity", VNum (ofZ 1))].

(** A linear zoom whose [maxScale] is [Infinity] *)
Definition unboundedZoom : SceneTransition :=
  {| transition_id := "t"; transition_type := zoom;
     transition_duration := 30; transition_easing := linear;
     direction := Some dir_cross;
     transition_parameters := [("maxScale", VNum (Inf true))] |}.

(** A linear push to the left over 100 pixels *)
Definition pushLeft : SceneTransition :=
  {| transition_id := "t"; transition_type := push;
     transition_duration := 30; transition_easing := linear;
     direction := Some dir_cross;
     transition_parameters :=
       [("direction", VStr "left"); ("distance", VNum (ofZ 100))] |}.

End MoreSamples.


(** ** EffectLibrary: presets and effect creation (effects.ts) *)

Module EffectPresets.
Import JS MotionEngine EffectLibrary.

Record EffectPreset := {
  preset_id : string;
  preset_name : string;
  description : string;
  effectType : EffectType;
  preset_parameters : list (string * value);
  preset_category : string;
  tags : list string;
}.

(** [initializePresets()] *)
Definition initializePresets : list EffectPreset :=
  [ {| preset_id := "soft-glow"; preset_name := "Soft Glow";
       description := "Gentle white glow effect"; effectType := glow;
       preset_parameters :=
         [("color", VStr "#ffffff"); ("intensity", VNum (q 8 10));
          ("size", VNum (ofZ 15)); ("softness", VNum (q 7 10))];
       preset_category := "glow"; tags := ["soft"; "subtle"; "white"] |};
    {| preset_id := "neon-glow"; preset_name := "Neon Glow";
       description := "Bright neon glow effect"; effectType := glow;
       preset_parameters :=
         [("color", VStr "#00ffff"); ("intensity", VNum (ofZ 2));
          ("size", VNum (ofZ 25)); ("softness", VNum (q 3 10))];
       preset_category := "glow"; tags := ["neon"; "bright"; "cyan"] |};
    {| preset_id := "dramatic-shadow"; preset_name := "Dramatic Shadow";
       description := "Strong drop shadow for emphasis"; effectType := shadow;
       preset_parameters :=
         [("offsetX", VNum (ofZ 10)); ("offsetY", VNum (ofZ 10));
          ("blur", VNum (ofZ 20)); ("color", VStr "#000000");
          ("opacity", VNum (q 8 10))];
       preset_category := "shadow";
       tags := ["dramatic"; "strong"; "emphasis"] |};
    {| preset_id := "vintage-look"; preset_name := "Vintage Look";
       description := "Retro color grading"; effectType := color_correction;
       preset_parameters :=
         [("brightness", VNum (q 9 10)); ("contrast", VNum (q 12 10));
          ("saturation", VNum (q 8 10)); ("hue", VNum (ofZ 10))];
       preset_category := "color"; tags := ["vintage"; "retro"; "warm"] |} ].

(** [getDefaultParameters(definition)].  The definitions are those of
    [initializeEffects]: none has a parameter named [__proto__], for which the
    assignment would run the inherited setter. *)
Definition getDefaultParameters (definition : EffectDefinition)
    : list (string * value) :=
  fold_left (fun defaults param =>
               JS.set (param_name param) (defaultValue param) defaults)
            (def_parameters definition) [].

Definition getPreset (presets : list EffectPreset) (id : string)
    : option EffectPreset :=
  find (fun preset => String.eqb (preset_id preset) id) presets.

Section Creation.
Context (effects : Registry).

(** [createEffect(type, parameters = {}, enabled = true)], with [newId] the
    generated identifier *)
Definition createEffect (newId : string) (type : EffectType)
    (params : list (string * value)) (isEnabled : bool) : Effect :=
  let defaultParams :=
    match lookup type effects with
    | Some definition => getDefaultParameters definition
    | None => []
    end in
  {| effect_id := newId; effect_type := type; enabled := isEnabled;
     parameters := spread defaultParams params;
     effect_startFrame := None; effect_endFrame := None |}.

Definition createEffectFromPreset (presets : list EffectPreset)
    (newId presetId : string) : option Effect :=
  match getPreset presets presetId with
  | None => None
  | Some preset =>
      Some (createEffect newId (effectType preset) (preset_parameters preset) true)
  end.
End Creation.

(** The value passes the checks that [validateEffect] makes for the
    parameter. *)
Definition accepted (p : EffectParameter) (v : value) : Prop :=
  v <> VUndef /\ v <> VNull /\
  match param_type p with
  | number_t | range_t =>
      exists n, v = VNum n /\
        (forall lo, min p = Some lo -> nlt n lo = false) /\
        (forall hi, max p = Some hi -> nlt hi n = false)
  | boolean_t => exists b, v = VBool b
  | select_t => forall opts, options p = Some opts -> includes opts v = true
  | color_t => True
  end.

(** The effect is applied at [frame]: its type is registered, it is enabled
    and the frame is inside its window. *)
Definition isLive (effects : Registry) (frame : Z) (effect : Effect) : bool :=
  match lookup (effect_type effect) effects with
  | None => false
  | Some _ =>
      enabled effect &&
      match effect_startFrame effect with
      | Some s => negb (frame <? s) | None => true end &&
      match effect_endFrame effect with
      | Some e => negb (e <? frame) | None => true end
  end.

(** The value is a string. *)
Definition isText (v : value) : bool :=
  match v with
  | VStr _ | VPrim (PTemplate _) => true
  | _ => false
  end.

(** The top-level fields and the fields of [filter] that the resolver of a
    built-in effect assigns *)
Definition writtenFields (t : EffectType) : list string :=
  match t with
  | blur | noise | color_correction | chromatic_aberration => ["filter"]
  | glow => ["boxShadow"; "filter"]
  | shadow => ["boxShadow"]
  | outline => ["border"]
  | gradient => ["background"; "opacity"]
  | _ => []
  end.

Definition writtenFilters (t : EffectType) : list string :=
  match t with
  | blur => ["blur"]
  | glow => ["brightness"]
  | noise => ["noise"]
  | color_correction => ["brightness"; "contrast"; "saturate"; "hue-rotate"]
  | chromatic_aberration => ["chromaticAberration"]
  | _ => []
  end.

End EffectPresets.


(** ** TransitionSystem: presets, creation, validation (effects.ts) *)

Module TransitionPresets.
Import JS MotionEngine TransitionSystem.

Record TransitionPreset := {
  preset_id : string;
  preset_name : string;
  description : string;
  preset_type : TransitionType;
  preset_duration : Z;
  preset_easing : EasingType;
  preset_parameters : list (string * value);
}.

(** [initializePresets()] *)
Definition initializePresets : list TransitionPreset :=
  [ {| preset_id := "fade-smooth"; preset_name := "Smooth Fade";
       description := "Gentle cross-fade transition"; preset_type := fade;
       preset_duration := 30; preset_easing := ease_in_out;
       preset_parameters := [("crossFade", VBool true)] |};
    {| preset_id := "slide-left-fast"; preset_name := "Fast Slide Left";
       description := "Quick slide to the left"; preset_type := slide;
       preset_duration := 20; preset_easing := ease_out;
       preset_parameters :=
         [("direction", VStr "left"); ("distance", VNum (ofZ 1920))] |};
    {| preset_id := "zoom-dramatic"; preset_name := "Dramatic Zoom";
       description := "Dramatic zoom in/out effect"; preset_type := zoom;
       preset_duration := 45; preset_easing := ease_in_out;
       preset_parameters :=
         [("zoomOut", VBool true); ("maxScale", VNum (ofZ 3));
          ("minScale", VNum (q 3 10))] |};
    {| preset_id := "wipe-vertical"; preset_name := "Vertical Wipe";
       description := "Clean vertical wipe transition"; preset_type := wipe;
       preset_duration := 25; preset_easing := linear;
       preset_parameters :=
         [("direction", VStr "vertical"); ("softness", VNum (q 5 100))] |} ].

Definition getPreset (presets : list TransitionPreset) (id : string)
    : option TransitionPreset :=
  find (fun preset => String.eqb (preset_id preset) id) presets.

(** The messages pushed by [validateTransition] *)
Inductive TransitionError :=
  | UnknownTransitionType (t : TransitionType)
  | DurationNotPositive
  | DurationTooLong.

Record TransitionValidation := {
  valid : bool;
  errors : list TransitionError;
}.

(** The two checks that [validateTransition] makes on
    [transition.duration], a number *)
Definition validateDuration (d : number) : list TransitionError :=
  (if nle d (ofZ 0) then [DurationNotPositive] else []) ++
  (if nlt (ofZ 300) d then [DurationTooLong] else []).

Section Tools.
Context (rem : Remotion) (effects : Registry).

(** [createTransition(type, duration = 30, easing = 'ease-in-out',
    parameters = {})], with [newId] the generated identifier *)
Definition createTransition (newId : string) (type : TransitionType)
    (duration : Z) (easing : EasingType) (params : list (string * value))
    : SceneTransition :=
  let defaultParams :=
    match lookup type effects with
    | Some effect => defaultParams effect
    | None => []
    end in
  {| transition_id := newId; transition_type := type;
     transition_duration := duration; transition_easing := easing;
     direction := Some dir_cross;
     transition_parameters := spread defaultParams params |}.

Definition createTransitionFromPreset (presets : list TransitionPreset)
    (newId presetId : string) : option SceneTransition :=
  match getPreset presets presetId with
  | None => None
  | Some preset =>
      Some (createTransition newId (preset_type preset) (preset_duration preset)
              (preset_easing preset) (preset_parameters preset))
  end.

Definition validateTransition (transition : SceneTransition)
    : TransitionValidation :=
  let errors :=
    (match lookup (transition_type transition) effects with
     | None => [UnknownTransitionType (transition_type transition)]
     | Some _ => []
     end) ++
    validateDuration (ofZ (transition_duration transition)) in
  {| valid := Nat.eqb (length errors) 0; errors := errors |}.

(** The loop of [precomputeTransition], from index [i] on, for [n] more
    rounds; [None] when a resolver raises. *)
Fixpoint precomputeFrames (transition : SceneTransition)
    (fromElement toElement : value) (frameCount : Z) (n : nat) (i : Z)
    : option (list value) :=
  match n with
  | O => Some []
  | S n' =>
      let progress := ndiv (ofZ i) (ofZ frameCount) in
      result ← applyTransition rem effects transition progress
                 fromElement toElement;
      frames ← precomputeFrames transition fromElement toElement frameCount
                 n' (i + 1);
      Some (result :: frames)
  end.

(** [precomputeTransition(transition, fromElement, toElement, frameCount)]:
    the loop runs for [i = 0 .. frameCount]. *)
Definition precomputeTransition (transition : SceneTransition)
    (fromElement toElement : value) (frameCount : Z) : option (list value) :=
  precomputeFrames transition fromElement toElement frameCount
    (Z.to_nat (frameCount + 1)) 0.
End Tools.

(** [layer.position.x] and [layer.position.y] *)
Definition positionOf (layer : value) : value * value :=
  (field "x" (field "position" layer), field "y" (field "position" layer)).

(** A layer placed at the point [(x, y)] *)
Definition layerAt (x y : Qc) : value :=
  VObj [("position", VObj [("x", VNum (Fin x)); ("y", VNum (Fin y))])].

End TransitionPresets.


(** ** SceneComposer: scene manipulation and layers (effects.ts) *)

Module SceneEditing.
Import JS MotionEngine SceneComposer.

Definition set_elements (scene : MotionScene) (es : list MotionElement)
    : MotionScene :=
  {| scene_id := scene_id scene; scene_title := scene_title scene;
     scene_startFrame := scene_startFrame scene;
     scene_endFrame := scene_endFrame scene;
     scene_duration := scene_duration scene; elements := es;
     transitions := transitions scene |}.

Definition set_range (element : MotionElement) (s e : Z) : MotionElement :=
  {| id := id element; name := name element; startFrame := s; endFrame := e;
     layer := layer element; visible := visible element;
     locked := locked element; properties := properties element;
     animations := animations element; effects := effects element |}.

Definition set_layer (element : MotionElement) (l : Z) : MotionElement :=
  {| id := id element; name := name element;
     startFrame := startFrame element; endFrame := endFrame element;
     layer := l; visible := visible element; locked := locked element;
     properties := properties element; animations := animations element;
     effects := effects element |}.

(** [addElementToScene(scene, element)]: the scene and the cache after the
    call; the element is clipped to the scene in place, so the clipped
    element is what the scene holds. *)
Definition addElementToScene (cache : Cache) (scene : MotionScene)
    (element : MotionElement) : MotionScene * Cache :=
  let element' :=
    set_range element
      (Z.max (startFrame element) (scene_startFrame scene))
      (Z.min (endFrame element) (scene_endFrame scene)) in
  (set_elements scene (elements scene ++ [element']),
   clearSceneCache cache (scene_id scene)).

(** The index of the element that [scene.elements.find(el => el.id ===
    elementId)] returns: the first one with the identifier *)
Fixpoint findElementIndex (elementId : string) (es : list MotionElement)
    : option nat :=
  match es with
  | [] => None
  | el :: rest =>
      if String.eqb (id el) elementId then Some 0%nat
      else S <$> findElementIndex elementId rest
  end.

(** [moveElementToLayer(scene, elementId, newLayer)]: the first element
    with the identifier gets the layer. *)
Definition moveElementToLayer (cache : Cache) (scene : MotionScene)
    (elementId : string) (newLayer : Z) : MotionScene * Cache :=
  match findElementIndex elementId (elements scene) with
  | Some index =>
      (set_elements scene
         (alter (fun element => set_layer element newLayer) index
                (elements scene)),
       clearSceneCache cache (scene_id scene))
  | None => (scene, cache)
  end.

(** [Math.max(...layers)] and [Math.min(...layers)]; of no layers they are
    [-Infinity] and [Infinity] ([None]). *)
Definition maxLayer (es : list MotionElement) : option Z :=
  match es with
  | [] => None
  | e :: rest => Some (fold_left (fun m el => Z.max m (layer el)) rest (layer e))
  end.

Definition minLayer (es : list MotionElement) : option Z :=
  match es with
  | [] => None
  | e :: rest => Some (fold_left (fun m el => Z.min m (layer el)) rest (layer e))
  end.

(** [Number.isSafeInteger(l)]: an integer that doubles hold exactly,
    together with its two neighbours *)
Definition safeLayer (l : Z) : Prop := - 2 ^ 53 < l < 2 ^ 53.

(** [maxLayer + 1] and [minLayer - 1] are exact for layers that are safe
    integers; beyond them the sum of doubles rounds, which is not modelled.
    A scene without elements has no element to move. *)
Definition bringElementToFront (cache : Cache) (scene : MotionScene)
    (elementId : string) : MotionScene * Cache :=
  match maxLayer (elements scene) with
  | Some m => moveElementToLayer cache scene elementId (m + 1)
  | None => (scene, cache)
  end.

Definition sendElementToBack (cache : Cache) (scene : MotionScene)
    (elementId : string) : MotionScene * Cache :=
  match minLayer (elements scene) with
  | Some m => moveElementToLayer cache scene elementId (m - 1)
  | None => (scene, cache)
  end.

End SceneEditing.


(** ** What is observed of render jobs *)

Module RenderObserve.
Import JS MotionEngine SceneComposer MotionRenderer.

(** The progress is a number from 0 to 100. *)
Definition inRange (job : RenderJob) : Prop :=
  exists p, progress job = Fin p /\ (0 <= p)%Qc /\ (p <= Qc_of_Z 100)%Qc.

(** The fields that go with the status *)
Definition settled (job : RenderJob) : Prop :=
  match status job with
  | pending => endTime job = None /\ outputUrl job = None /\ error job = None
  | completed =>
      is_Some (outputUrl job) /\ is_Some (endTime job) /\ error job = None
  | failed =>
      is_Some (error job) /\ is_Some (endTime job) /\ outputUrl job = None
  | processing => False
  end.

(** Where the call working on a job can be, given the job *)
Definition taskOf (task : Task) (job : RenderJob) : Prop :=
  match task with
  | AwaitPreviewFrame frame _ _ _ | AwaitFinalFrame frame _ _ =>
      frame < project_duration (project job) /\ status job = pending
  | AwaitPreviewVideo _ _ | AwaitEncode _ _ | AwaitOptimize _ | Rejected _ =>
      status job = pending
  | Returned url => status job = completed /\ outputUrl job = Some url
  | Thrown message => status job = failed /\ error job = Some message
  end.

(** [job'] is [job] up to its stage and its progress. *)
Definition alike (job job' : RenderJob) : Prop :=
  id job' = id job /\ project job' = project job /\
  status job' = status job /\ endTime job' = endTime job /\
  outputUrl job' = outputUrl job /\ error job' = error job.

(** Every job object is stored under its id, is in range and settled, and
    the call working on it is where its status says. *)
Definition consistent (r : Renderer) : Prop :=
  map_Forall (fun jobId job =>
    id job = jobId /\ inRange job /\ settled job /\
    exists task, tasks r !! jobId = Some task /\ taskOf task job)
    (jobObjects r).

(** The job of a request that is still being worked on: what the request
    fixed, and nothing of what its end sets. *)
Definition running (jobId : nat) (p : MotionProject) (o : RenderOptions)
    (started : Z) (job : RenderJob) : Prop :=
  id job = jobId /\ project job = p /\ options job = o /\
  status job = pending /\ startTime job = Some started /\
  endTime job = None /\ outputUrl job = None /\ error job = None.

(** The call working on [jobId] is suspended at [task]; its job is in the
    table and satisfies [P]. *)
Definition suspended (r : Renderer) (jobId : nat) (task : Task)
    (P : RenderJob -> Prop) : Prop :=
  tasks r !! jobId = Some task /\ jobId ∈ jobs r /\
  exists job, jobObjects r !! jobId = Some job /\ P job.


(** No scene of the project has elements: composing any of them evaluates
    nothing. *)
Definition bare (p : MotionProject) : Prop :=
  Forall (fun scene => elements scene = []) (scenes p).

End RenderObserve.


(** ** TimelineManager (timeline.ts) *)

Module TimelineManager.
Import JS MotionEngine.

Record TimelineState := {
  currentFrame : number;
  totalFrames : number;
  playbackSpeed : number;
  isPlaying : bool;
  looping : bool;
  selectedElements : list string;
  selectedKeyframes : list string;
  zoom : number;
  scrollPosition : number;
}.

(** [Partial<TimelineState>]: the fields an update names *)
Record Updates := {
  new_currentFrame : option number;
  new_totalFrames : option number;
  new_playbackSpeed : option number;
  new_isPlaying : option bool;
  new_looping : option bool;
  new_selectedElements : option (list string);
  new_selectedKeyframes : option (list string);
  new_zoom : option number;
  new_scrollPosition : option number;
}.

Definition noUpdates : Updates :=
  {| new_currentFrame := None; new_totalFrames := None;
     new_playbackSpeed := None; new_isPlaying := None; new_looping := None;
     new_selectedElements := None; new_selectedKeyframes := None;
     new_zoom := None; new_scrollPosition := None |}.

(** [{ ...state, ...updates }] *)
Definition merge (state : TimelineState) (updates : Updates) : TimelineState :=
  {| currentFrame := default (currentFrame state) (new_currentFrame updates);
     totalFrames := default (totalFrames state) (new_totalFrames updates);
     playbackSpeed := default (playbackSpeed state) (new_playbackSpeed updates);
     isPlaying := default (isPlaying state) (new_isPlaying updates);
     looping := default (looping state) (new_looping updates);
     selectedElements :=
       default (selectedElements state) (new_selectedElements updates);
     selectedKeyframes :=
       default (selectedKeyframes state) (new_selectedKeyframes updates);
     zoom := default (zoom state) (new_zoom updates);
     scrollPosition :=
       default (scrollPosition state) (new_scrollPosition updates) |}.

Inductive Interpolation := interp_linear | interp_bezier | interp_hold | interp_auto.

Record TimelineKeyframe := {
  keyframe_id : string;
  frame : Z;
  value : JS.value;
  selected : bool;
  keyframe_easing : EasingType;
  interpolation : Interpolation;
}.

Record TimelineAnimation := {
  animation_id : string;
  animation_property : string;
  animation_keyframes : list TimelineKeyframe;
  animation_color : string;
  animation_visible : bool;
}.

Record TimelineTrack := {
  track_id : string;
  elementId : string;
  elementName : string;
  elementType : string;
  track_layer : Z;
  track_startFrame : Z;
  track_endFrame : Z;
  track_duration : Z;
  track_color : string;
  track_locked : bool;
  track_visible : bool;
  track_animations : list TimelineAnimation;
}.

(** The part of a [TimelineManager] that its state, selection, view and
    history methods work on.  The undo and redo stacks hold copies of the
    state, and a state is never changed in place by these methods. *)
Record Timeline := {
  state : TimelineState;
  tracks : list TimelineTrack;
  undoStack : list TimelineState;
  redoStack : list TimelineState;
}.

Definition maxUndoSteps : nat := 50.

(** The state the constructor sets *)
Definition create : Timeline :=
  {| state :=
       {| currentFrame := ofZ 0; totalFrames := ofZ 300;
          playbackSpeed := ofZ 1; isPlaying := false; looping := false;
          selectedElements := []; selectedKeyframes := [];
          zoom := ofZ 1; scrollPosition := ofZ 0 |};
     tracks := []; undoStack := []; redoStack := [] |}.

(** [stack.pop()]: the rest and the last entry *)
Definition pop {A} (stack : list A) : option (list A * A) :=
  match last stack with
  | Some x => Some (removelast stack, x)
  | None => None
  end.

Definition saveStateToUndo (m : Timeline) : Timeline :=
  let pushed := undoStack m ++ [state m] in
  {| state := state m; tracks := tracks m;
     undoStack :=
       if (maxUndoSteps <? length pushed)%nat then tail pushed else pushed;
     redoStack := [] |}.

Definition setState (m : Timeline) (updates : Updates) : Timeline :=
  let m1 := saveStateToUndo m in
  {| state := merge (state m1) updates; tracks := tracks m1;
     undoStack := undoStack m1; redoStack := redoStack m1 |}.

Definition undo (m : Timeline) : Timeline * bool :=
  match pop (undoStack m) with
  | None => (m, false)
  | Some (rest, previousState) =>
      ({| state := previousState; tracks := tracks m; undoStack := rest;
          redoStack := redoStack m ++ [state m] |}, true)
  end.

Definition redo (m : Timeline) : Timeline * bool :=
  match pop (redoStack m) with
  | None => (m, false)
  | Some (rest, nextState) =>
      ({| state := nextState; tracks := tracks m;
          undoStack := undoStack m ++ [state m]; redoStack := rest |}, true)
  end.

(** [list.includes(id)] *)
Definition includes (ids : list string) (id : string) : bool :=
  existsb (String.eqb id) ids.

Definition selectElement (m : Timeline) (id : string) (addToSelection : bool)
    : Timeline :=
  if addToSelection then
    if includes (selectedElements (state m)) id then m
    else setState m
           {| new_currentFrame := None; new_totalFrames := None;
              new_playbackSpeed := None; new_isPlaying := None;
              new_looping := None;
              new_selectedElements := Some (selectedElements (state m) ++ [id]);
              new_selectedKeyframes := None;
              new_zoom := None; new_scrollPosition := None |}
  else setState m
         {| new_currentFrame := None; new_totalFrames := None;
            new_playbackSpeed := None; new_isPlaying := None;
            new_looping := None;
            new_selectedElements := Some [id];
            new_selectedKeyframes := None;
            new_zoom := None; new_scrollPosition := None |}.

Definition selectKeyframe (m : Timeline) (id : string) (addToSelection : bool)
    : Timeline :=
  if addToSelection then
    if includes (selectedKeyframes (state m)) id then m
    else setState m
           {| new_currentFrame := None; new_totalFrames := None;
              new_playbackSpeed := None; new_isPlaying := None;
              new_looping := None; new_selectedElements := None;
              new_selectedKeyframes := Some (selectedKeyframes (state m) ++ [id]);
              new_zoom := None; new_scrollPosition := None |}
  else setState m
         {| new_currentFrame := None; new_totalFrames := None;
            new_playbackSpeed := None; new_isPlaying := None;
            new_looping := None; new_selectedElements := None;
            new_selectedKeyframes := Some [id];
            new_zoom := None; new_scrollPosition := None |}.

Definition clearSelection (m : Timeline) : Timeline :=
  setState m
    {| new_currentFrame := None; new_totalFrames := None;
       new_playbackSpeed := None; new_isPlaying := None; new_looping := None;
       new_selectedElements := Some []; new_selectedKeyframes := Some [];
       new_zoom := None; new_scrollPosition := None |}.

Definition toggleLooping (m : Timeline) : Timeline :=
  setState m
    {| new_currentFrame := None; new_totalFrames := None;
       new_playbackSpeed := None; new_isPlaying := None;
       new_looping := Some (negb (looping (state m)));
       new_selectedElements := None; new_selectedKeyframes := None;
       new_zoom := None; new_scrollPosition := None |}.

(** [setZoom(zoom)]: [Math.max(0.1, Math.min(zoom, 10))] *)
Definition setZoom (m : Timeline) (z : number) : Timeline :=
  setState m
    {| new_currentFrame := None; new_totalFrames := None;
       new_playbackSpeed := None; new_isPlaying := None; new_looping := None;
       new_selectedElements := None; new_selectedKeyframes := None;
       new_zoom :=
         Some (nmax (Fin (Qc_of_Z 1 / Qc_of_Z 10)%Qc) (nmin z (ofZ 10)));
       new_scrollPosition := None |}.

Definition setScrollPosition (m : Timeline) (position : number) : Timeline :=
  setState m
    {| new_currentFrame := None; new_totalFrames := None;
       new_playbackSpeed := None; new_isPlaying := None; new_looping := None;
       new_selectedElements := None; new_selectedKeyframes := None;
       new_zoom := None;
       new_scrollPosition := Some (nmax (ofZ 0) position) |}.

Definition fitTimelineToWindow (m : Timeline) : Timeline :=
  setState m
    {| new_currentFrame := None; new_totalFrames := None;
       new_playbackSpeed := None; new_isPlaying := None; new_looping := None;
       new_selectedElements := None; new_selectedKeyframes := None;
       new_zoom := Some (ofZ 1); new_scrollPosition := Some (ofZ 0) |}.

(** The calls that work on the state and its history only *)
Inductive Edit :=
  | SetState (updates : Updates)
  | SelectElement (id : string) (addToSelection : bool)
  | SelectKeyframe (id : string) (addToSelection : bool)
  | ClearSelection
  | ToggleLooping
  | SetZoom (z : number)
  | SetScrollPosition (position : number)
  | FitTimelineToWindow
  | Undo
  | Redo.

Definition edit (m : Timeline) (e : Edit) : Timeline :=
  match e with
  | SetState updates => setState m updates
  | SelectElement id add => selectElement m id add
  | SelectKeyframe id add => selectKeyframe m id add
  | ClearSelection => clearSelection m
  | ToggleLooping => toggleLooping m
  | SetZoom z => setZoom m z
  | SetScrollPosition position => setScrollPosition m position
  | FitTimelineToWindow => fitTimelineToWindow m
  | Undo => (undo m).1
  | Redo => (redo m).1
  end.

Definition edits (m : Timeline) (es : list Edit) : Timeline :=
  fold_left edit es m.

(** The keyframes in the order the nested [forEach] loops visit them *)
Definition allKeyframes (ts : list TimelineTrack) : list TimelineKeyframe :=
  flat_map (fun track => flat_map animation_keyframes (track_animations track)) ts.

(** [findNextKeyframe(currentFrame)]; the accumulator is [minDistance]
    ([None]: [Infinity]) and [nextKeyframe]. *)
Definition findNextKeyframe (ts : list TimelineTrack) (current : Z)
    : option TimelineKeyframe :=
  snd (fold_left
         (fun (acc : option Z * option TimelineKeyframe) keyframe =>
            if current <? frame keyframe then
              let distance := frame keyframe - current in
              if match acc.1 with
                 | Some minDistance => distance <? minDistance
                 | None => true
                 end
              then (Some distance, Some keyframe) else acc
            else acc)
         (allKeyframes ts) (None, None)).

Definition findPreviousKeyframe (ts : list TimelineTrack) (current : Z)
    : option TimelineKeyframe :=
  snd (fold_left
         (fun (acc : option Z * option TimelineKeyframe) keyframe =>
            if frame keyframe <? current then
              let distance := current - frame keyframe in
              if match acc.1 with
                 | Some minDistance => distance <? minDistance
                 | None => true
                 end
              then (Some distance, Some keyframe) else acc
            else acc)
         (allKeyframes ts) (None, None)).

End TimelineManager.

Module TimelineSample.
Import JS MotionEngine TimelineManager.

Definition timelineKeyframe (name : string) (f : Z) : TimelineKeyframe :=
  {| keyframe_id := name; frame := f; value := VNum (ofZ 0); selected := false;
     keyframe_easing := ease; interpolation := interp_auto |}.

(** One track whose opacity has keyframes at the frames 20 and 10, in this
    order *)
Definition opacityTrack : TimelineTrack :=
  {| track_id := "track-box"; elementId := "box"; elementName := "box";
     elementType := "shape"; track_layer := 0; track_startFrame := 0;
     track_endFrame := 100; track_duration := 100; track_color := "#3b82f6";
     track_locked := false; track_visible := true;
     track_animations :=
       [ {| animation_id := "a"; animation_property := "opacity";
            animation_keyframes :=
              [timelineKeyframe "late" 20; timelineKeyframe "early" 10];
            animation_color := "#6b7280"; animation_visible := true |} ] |}.

End TimelineSample.

(** * Properties *)

(** ** Plain objects *)

Section ObjectFacts.
Import JS.

Lemma set_fresh {A} k (v : A) fs :
  k ∉ keys fs -> JS.set k v fs = fs ++ [(k, v)].
Proof.
  induction fs as [|[k' v'] fs IH]; simpl; [done|].
  rewrite not_elem_of_cons. intros [Hne Hnin].
  destruct (String.eqb_spec k k'); [done|]. by rewrite IH.
Qed.

Lemma get_absent_keys {A} k (b : list (string * A)) :
  JS.get k b = None <-> k ∉ keys b.
Proof.
  induction b as [|[k' v'] b IH]; simpl.
  - split; [intros _; apply not_elem_of_nil | done].
  - rewrite not_elem_of_cons. destruct (String.eqb_spec k k') as [->|Hne].
    + split; [done | by intros [? _]].
    + rewrite IH. tauto.
Qed.

End ObjectFacts.

(** ** The animation evaluator *)

Section EvaluatorFacts.
Import JS MotionEngine Sample.

(** C10 at a failing input: between [{ constructor: 7 }] and [{}] the field
    [constructor] is a field of [from] alone, as the field [x] of
    [{ x: 7 }] is.  The field [x] is copied through.  For [constructor] the
    test [key in to] finds the member that [{}] inherits, so the field is
    interpolated against the built-in [Object]: the result holds 7 below
    progress 1/2 and the built-in from 1/2 on. *)
Theorem interpolateValue_shares_inherited_member :
  JS.get "constructor" (props taggedValue) = Some (VNum (ofZ 7)) /\
  JS.get "constructor" (props (VObj [])) = None /\
  interpolateValue (VObj [("x", VNum (ofZ 7))]) (VObj []) (ofZ 1) =
    Some (VObj [("x", VNum (ofZ 7))]) /\
  interpolateValue taggedValue (VObj []) (ofZ 0) = Some taggedValue /\
  interpolateValue taggedValue (VObj []) half =
    Some (VObj [("constructor", VPrim (PBuiltin (Method "constructor")))]) /\
  interpolateValue taggedValue (VObj []) (ofZ 1) =
    Some (VObj [("constructor", VPrim (PBuiltin (Method "constructor")))]) /\
  interpolateValue taggedValue (VObj []) (ofZ 1) <> Some taggedValue.
Proof.
  split; [reflexivity|]. split; [reflexivity|].
  split; [by vm_compute|]. split; [by vm_compute|].
  split; [by vm_compute|]. split; [by vm_compute|].
  vm_compute. discriminate.
Qed.

Lemma calculateAnimationValue_result rem st a frame ks :
  kfs st !! keyframes a = Some ks ->
  (snd <$> calculateAnimationValue rem st a frame) =
  (animationValue rem a ks frame).2.
Proof.
  intros Hks. unfold calculateAnimationValue. rewrite Hks. simpl.
  by destruct (animationValue rem a ks frame) as [ks' [v|]].
Qed.

(** C3, amended: [evaluate] is undefined only before the delay; from the
    delay on, a frame at or before the first keyframe is clamped to the first
    keyframe's value, and an animation with a single keyframe yields that
    keyframe's value at every frame. *)
Theorem evaluate_clamps_to_first_keyframe rem st a frame ks :
  kfs st !! keyframes a = Some ks ->
  (frame - delay a < 0 ->
     (snd <$> calculateAnimationValue rem st a frame) = Some VUndef) /\
  (forall first rest,
     sortKeyframes ks = first :: rest ->
     0 <= frame - delay a ->
     loopFrame a (frame - delay a) <= kf_frame first ->
     (snd <$> calculateAnimationValue rem st a frame) = Some (kf_value first)) /\
  (forall k,
     ks = [k] ->
     0 <= frame - delay a ->
     (snd <$> calculateAnimationValue rem st a frame) = Some (kf_value k)).
Proof.
  intros Hks. rewrite (calculateAnimationValue_result _ _ _ _ _ Hks).
  unfold animationValue. repeat split.
  - intros Hneg. destruct ks; [done|].
    apply Z.ltb_lt in Hneg. by rewrite Hneg.
  - intros first rest Hsort Hpos Hle.
    destruct ks as [|k0 ks']; [done|].
    apply Z.ltb_ge in Hpos. rewrite Hpos, Hsort.
    destruct (last (first :: rest)) eqn:El.
    + apply Z.leb_le in Hle. by rewrite Hle.
    + by apply last_None in El.
  - intros k -> Hpos. apply Z.ltb_ge in Hpos. rewrite Hpos. simpl.
    destruct (loopFrame a (frame - delay a) <=? kf_frame k) eqn:E1; [done|].
    apply Z.leb_gt in E1.
    assert (E2 : (kf_frame k <=? loopFrame a (frame - delay a)) = true)
      by (apply Z.leb_le; lia).
    by rewrite E2.
Qed.

Lemma evaluate_clamps_to_first_keyframe_witness :
  kfs singleKeyframeStore !! keyframes (animationOf "opacity" 0%nat 0) =
    Some [keyframeAt 10 (VNum (ofZ 5))] /\
  0 <= 3 - delay (animationOf "opacity" 0%nat 0) /\
  (snd <$> calculateAnimationValue sampleCurves singleKeyframeStore
             (animationOf "opacity" 0%nat 0) 3) = Some (VNum (ofZ 5)).
Proof.
  split; [reflexivity|]. split; [simpl; lia|].
  destruct (evaluate_clamps_to_first_keyframe sampleCurves singleKeyframeStore
              (animationOf "opacity" 0%nat 0) 3 [keyframeAt 10 (VNum (ofZ 5))]
              eq_refl) as (_ & Hclamp & _).
  apply (Hclamp (keyframeAt 10 (VNum (ofZ 5))) []);
    [reflexivity | simpl; lia | apply Z.leb_le; reflexivity].
Defined.

(** C3 as stated fails: frame 3 is past the delay (0) and before the only
    keyframe (frame 10), and the value is the keyframe's, not undefined. *)
Lemma evaluate_before_first_keyframe_defined :
  0 <= 3 - delay (animationOf "opacity" 0%nat 0) /\
  3 - delay (animationOf "opacity" 0%nat 0) < 10 /\
  (snd <$> calculateAnimationValue sampleCurves singleKeyframeStore
             (animationOf "opacity" 0%nat 0) 3) = Some (VNum (ofZ 5)) /\
  (snd <$> calculateAnimationValue sampleCurves singleKeyframeStore
             (animationOf "opacity" 0%nat 0) 3) <> Some VUndef.
Proof.
  split; [simpl; lia|]. split; [simpl; lia|].
  split; [reflexivity | discriminate].
Qed.

(** C5 at a failing input: evaluating the properties of [movingElement] at
    frame 15 returns a new bag, and leaves the element's own
    [properties.position.x] at 150 where it was 0; evaluated with its
    keyframes entered latest first, it leaves the keyframe array of the
    animation reordered. *)
Theorem evaluating_properties_changes_the_element :
  (exists st' result,
     calculateElementPropertiesAtFrame sampleCurves movingStore movingElement 15
       = Some (st', result) /\
     result <> properties movingElement /\
     positionX movingStore movingElement = Some (ofZ 0) /\
     positionX st' movingElement = Some (ofZ 150)) /\
  (exists st' result,
     calculateElementPropertiesAtFrame sampleCurves unsortedStore movingElement 15
       = Some (st', result) /\
     keyframeOrder unsortedStore (animationOf "position.x" 0%nat 0) = Some [30; 0] /\
     keyframeOrder st' (animationOf "position.x" 0%nat 0) = Some [0; 30]).
Proof.
  split.
  - eexists _, _. split; [reflexivity|]. split; [discriminate|].
    split; [reflexivity|]. apply (bool_decide_unpack _). by vm_compute.
  - eexists _, _. split; [reflexivity|]. split; reflexivity.
Qed.
End EvaluatorFacts.

(** ** The scene composer *)

Section ComposerFacts.
Import JS MotionEngine SceneComposer Sample.

Lemma insertByLayer_Permutation e es : insertByLayer e es ≡ₚ e :: es.
Proof.
  induction es as [|e' es IH]; simpl; [done|].
  destruct (layer e <=? layer e'); [done|].
  rewrite IH. apply Permutation_swap.
Qed.

Lemma sortByLayer_Permutation es : sortByLayer es ≡ₚ es.
Proof.
  induction es as [|e es IH]; simpl; [done|].
  by rewrite insertByLayer_Permutation, IH.
Qed.

Lemma insertByLayer_Sorted e es :
  Sorted byLayer es -> Sorted byLayer (insertByLayer e es).
Proof.
  induction es as [|e' es IH]; simpl; intros Hs.
  - repeat constructor.
  - destruct (layer e <=? layer e') eqn:E.
    + constructor; [done|]. constructor. by apply Z.leb_le.
    + apply Z.leb_gt in E. inversion Hs as [|? ? Hs' Hhd]; subst.
      constructor; [by apply IH|].
      destruct es as [|e'' es]; simpl.
      * constructor. unfold byLayer. lia.
      * destruct (layer e <=? layer e''); constructor.
        -- unfold byLayer. lia.
        -- by inversion Hhd.
Qed.

Lemma sortByLayer_Sorted es : Sorted byLayer (sortByLayer es).
Proof.
  induction es as [|e es IH]; simpl; [constructor|].
  by apply insertByLayer_Sorted.
Qed.

(** The layers are made for the elements given, one each, in order. *)
Lemma composeLayers_elements rem st es frame st' ls :
  composeLayers rem st es frame = Some (st', ls) -> map element ls = es.
Proof.
  revert st st' ls. induction es as [|e es IH]; intros st st' ls; simpl.
  - by intros [= <- <-].
  - destruct (composeLayer rem st e frame) as [[st1 l]|] eqn:E1; [|done]. simpl.
    destruct (composeLayers rem st1 es frame) as [[st2 ls']|] eqn:E2; [|done].
    simpl. intros [= <- <-]. simpl. f_equal.
    + unfold composeLayer in E1.
      destruct (calculateElementPropertiesAtFrame rem st e frame)
        as [[s1 p]|]; [|done]. simpl in E1.
      destruct (isElementVisible rem s1 e frame) as [[s2 v]|]; [|done].
      simpl in E1. by injection E1 as <- <-.
    + by eapply IH.
Qed.

Lemma isElementVisible_locked rem st e frame st' v :
  isElementVisible rem st e frame = Some (st', v) ->
  locked e = true -> v = false.
Proof.
  unfold isElementVisible. intros H Hl.
  destruct (_ || _); [by injection H as <- <-|].
  destruct (calculateElementPropertiesAtFrame rem st e frame) as [[s1 p]|];
    [|done]. simpl in H.
  destruct (opacityNotPositive s1 p); [by injection H as <- <-|].
  rewrite Hl in H. by injection H as <- <-.
Qed.

Lemma composeLayers_locked rem st es frame st' ls :
  composeLayers rem st es frame = Some (st', ls) ->
  Forall (fun l => locked (element l) = true -> layer_visible l = false) ls.
Proof.
  revert st st' ls. induction es as [|e es IH]; intros st st' ls; simpl.
  - intros [= <- <-]. constructor.
  - destruct (composeLayer rem st e frame) as [[st1 l]|] eqn:E1; [|done]. simpl.
    destruct (composeLayers rem st1 es frame) as [[st2 ls']|] eqn:E2; [|done].
    simpl. intros [= <- <-]. constructor; [|by eapply IH].
    unfold composeLayer in E1.
    destruct (calculateElementPropertiesAtFrame rem st e frame)
      as [[s1 p]|]; [|done]. simpl in E1.
    destruct (isElementVisible rem s1 e frame) as [[s2 v]|] eqn:Ev; [|done].
    simpl in E1. injection E1 as <- <-. simpl.
    by eapply isElementVisible_locked.
Qed.

(** C4, amended: the layer list holds exactly the scene's elements that are
    visible and whose frame range contains the frame, in ascending order of
    layer; a locked element is not left out: it is listed, and its layer is
    flagged not visible. *)
Theorem createComposition_layers rem project now st scene frame st' comp :
  createComposition rem project now st scene frame = Some (st', comp) ->
  map element (layers comp) ≡ₚ List.filter (isActiveAt frame) (elements scene) /\
  Sorted byLayer (map element (layers comp)) /\
  (forall e, e ∈ map element (layers comp) <->
     e ∈ elements scene /\ visible e = true /\
     startFrame e <= frame <= endFrame e) /\
  Forall (fun l => locked (element l) = true -> layer_visible l = false)
         (layers comp).
Proof.
  unfold createComposition. intros H.
  destruct (composeLayers rem st _ frame) as [[st1 ls]|] eqn:E; [|done].
  simpl in H. injection H as <- <-. simpl.
  pose proof (composeLayers_elements _ _ _ _ _ _ E) as Hel.
  rewrite Hel. split; [apply sortByLayer_Permutation|].
  split; [apply sortByLayer_Sorted|]. split.
  - intros e. rewrite sortByLayer_Permutation.
    rewrite list_elem_of_In, filter_In, <- list_elem_of_In.
    unfold isActiveAt. rewrite !andb_true_iff, !Z.leb_le. tauto.
  - by eapply composeLayers_locked.
Qed.

Lemma createComposition_layers_witness :
  exists st' comp,
    createComposition sampleCurves None 0 opaqueStore lockedScene 5 =
      Some (st', comp) /\
    Sorted byLayer (map element (layers comp)) /\
    map (fun l => name (element l)) (layers comp) = ["backdrop"; "title"].
Proof.
  eexists _, _. split; [reflexivity|]. split; [|reflexivity].
  eapply (createComposition_layers sampleCurves None 0 opaqueStore lockedScene 5).
  reflexivity.
Defined.

(** C4 as stated fails: the element "title" is locked, and it is in the
    layer list of the composition at frame 5. *)
Lemma createComposition_lists_locked_element :
  exists st' comp,
    createComposition sampleCurves None 0 opaqueStore lockedScene 5 =
      Some (st', comp) /\
    map (fun l => (name (element l), locked (element l), layer_visible l))
        (layers comp) =
      [("backdrop", false, true); ("title", true, false)].
Proof.
  eexists _, _. split; reflexivity.
Qed.

Lemma calculateActiveTransitions_spec project scene frame a :
  a ∈ calculateActiveTransitions project scene frame <->
  exists t, t ∈ transitions scene /\
    activeTransition project scene frame t = Some a.
Proof.
  unfold calculateActiveTransitions. rewrite list_elem_of_omap.
  split; intros (t & H1 & H2); by exists t.
Qed.


End ComposerFacts.

(** ** The effect library *)

Section EffectFacts.
Import JS MotionEngine EffectLibrary Sample.

Lemma validateEffect_error effects effect definition paramDef err :
  lookup (effect_type effect) effects = Some definition ->
  paramDef ∈ def_parameters definition ->
  err ∈ validateParameter (parameters effect) paramDef ->
  valid (validateEffect effects effect) = false /\
  err ∈ errors (validateEffect effects effect).
Proof.
  intros Hdef Hin Herr. unfold validateEffect. rewrite Hdef. simpl.
  assert (Hmem : err ∈ concat (map (validateParameter (parameters effect))
                                   (def_parameters definition))).
  { apply list_elem_of_In, in_concat.
    exists (validateParameter (parameters effect) paramDef).
    split; [apply in_map|]; by apply list_elem_of_In. }
  split; [|done].
  destruct (concat _); [by apply elem_of_nil in Hmem | done].
Qed.

(** C7, amended: validation is strict, and applying does not clamp.  A
    numeric parameter below its declared minimum or above its declared
    maximum, or a select parameter outside its options, makes
    [validateEffect] answer invalid with the matching error; [applyEffect]
    hands the effect's parameters to the resolver as they are. *)
Theorem validate_rejects_apply_uses_raw effects :
  (forall effect definition paramDef n lo,
     lookup (effect_type effect) effects = Some definition ->
     paramDef ∈ def_parameters definition ->
     param_type paramDef = number_t \/ param_type paramDef = range_t ->
     JS.get (param_name paramDef) (parameters effect) = Some (VNum n) ->
     min paramDef = Some lo -> nlt n lo = true ->
     valid (validateEffect effects effect) = false /\
     BelowMinimum (param_name paramDef) lo ∈ errors (validateEffect effects effect)) /\
  (forall effect definition paramDef n hi,
     lookup (effect_type effect) effects = Some definition ->
     paramDef ∈ def_parameters definition ->
     param_type paramDef = number_t \/ param_type paramDef = range_t ->
     JS.get (param_name paramDef) (parameters effect) = Some (VNum n) ->
     max paramDef = Some hi -> nlt hi n = true ->
     valid (validateEffect effects effect) = false /\
     AboveMaximum (param_name paramDef) hi ∈ errors (validateEffect effects effect)) /\
  (forall effect definition paramDef v opts,
     lookup (effect_type effect) effects = Some definition ->
     paramDef ∈ def_parameters definition ->
     param_type paramDef = select_t ->
     JS.get (param_name paramDef) (parameters effect) = Some v ->
     v <> VUndef -> v <> VNull ->
     options paramDef = Some opts -> EffectLibrary.includes opts v = false ->
     valid (validateEffect effects effect) = false /\
     MustBeOneOf (param_name paramDef) opts ∈ errors (validateEffect effects effect)) /\
  (forall element effect frame definition,
     lookup (effect_type effect) effects = Some definition ->
     enabled effect = true ->
     (forall s, effect_startFrame effect = Some s -> s <= frame) ->
     (forall e, effect_endFrame effect = Some e -> frame <= e) ->
     applyEffect effects element effect frame =
     apply definition element (parameters effect) frame).
Proof.
  split; [|split; [|split]].
  - intros effect definition paramDef n lo Hdef Hin Hty Hget Hmin Hlt.
    apply (validateEffect_error _ _ _ _ _ Hdef Hin).
    unfold validateParameter, read. rewrite Hget, Hmin, Hlt.
    destruct Hty as [-> | ->]; apply list_elem_of_here.
  - intros effect definition paramDef n hi Hdef Hin Hty Hget Hmax Hlt.
    apply (validateEffect_error _ _ _ _ _ Hdef Hin).
    unfold validateParameter, read. rewrite Hget, Hmax, Hlt.
    destruct Hty as [-> | ->]; set_solver.
  - intros effect definition paramDef v opts Hdef Hin Hty Hget Hv Hn Hopts Hinc.
    apply (validateEffect_error _ _ _ _ _ Hdef Hin).
    unfold validateParameter, read. rewrite Hget.
    destruct v as [[]|]; try done; rewrite Hty, Hopts, Hinc;
      apply list_elem_of_here.
  - intros element effect frame definition Hdef Hen Hs He.
    unfold applyEffect. rewrite Hdef, Hen. simpl.
    destruct (effect_startFrame effect) as [s|] eqn:Es.
    + specialize (Hs s eq_refl). apply Z.ltb_ge in Hs. rewrite Hs.
      destruct (effect_endFrame effect) as [e|]; [|done].
      specialize (He e eq_refl). apply Z.ltb_ge in He. by rewrite He.
    + destruct (effect_endFrame effect) as [e|]; [|done].
      specialize (He e eq_refl). apply Z.ltb_ge in He. by rewrite He.
Qed.

Lemma validate_rejects_apply_uses_raw_witness :
  lookup (effect_type strongBlur) initializeEffects = Some blurEffect /\
  nlt (ofZ 50) (ofZ 999) = true /\
  valid (validateEffect initializeEffects strongBlur) = false /\
  AboveMaximum "amount" (ofZ 50) ∈ errors (validateEffect initializeEffects strongBlur) /\
  applyEffect initializeEffects (VObj []) strongBlur 0 =
    apply blurEffect (VObj []) (parameters strongBlur) 0.
Proof.
  destruct (validate_rejects_apply_uses_raw initializeEffects)
    as (_ & Hmax & _ & Happly).
  split; [reflexivity|]. split; [reflexivity|].
  destruct (Hmax strongBlur blurEffect
              (range "amount" (ofZ 5) (ofZ 0) (ofZ 50) (q 1 10))
              (ofZ 999) (ofZ 50)) as [Hinvalid Herror];
    [reflexivity | left | right; reflexivity | reflexivity
    | reflexivity | reflexivity |].
  split; [exact Hinvalid|]. split; [exact Herror|].
  apply Happly; [reflexivity | reflexivity | discriminate | discriminate].
Defined.

(** C7 as stated fails in its second half: applied with the amount 999,
    which validation rejects, the blur uses 999 and not the declared
    maximum 50. *)
Lemma applyEffect_uses_out_of_range_value :
  valid (validateEffect initializeEffects strongBlur) = false /\
  applyEffect initializeEffects (VObj []) strongBlur 0 =
    VObj [("filter",
           VObj [("blur", template [TLit "blur("; TNum (ofZ 999); TLit "px)"])])] /\
  applyEffect initializeEffects (VObj []) strongBlur 0 <>
    applyEffect initializeEffects (VObj []) clampedBlur 0.
Proof.
  split; [reflexivity|]. split; [reflexivity|].
  intros H. vm_compute in H. discriminate H.
Qed.
End EffectFacts.

(** ** The render-job orchestrator *)

Section RendererFacts.
Import JS MotionEngine SceneComposer MotionRenderer Sample RenderSample.
Context (rem : Remotion).
(** A set of statuses that holds the three the renderer assigns *)
Context (Q : JobStatus -> Prop).
Context (Q_pending : Q pending) (Q_completed : Q completed) (Q_failed : Q failed).

Lemma quiet_refl r : quiet Q r r.
Proof. by split. Qed.

Lemma quiet_trans r1 r2 r3 : quiet Q r1 r2 -> quiet Q r2 r3 -> quiet Q r1 r3.
Proof. intros [H1 H1'] [H2 H2']. split; [congruence | auto]. Qed.

Lemma quiet_setJob r job : Q (status job) -> quiet Q r (setJob r job).
Proof.
  intros Hs. split; [done|]. intros Hr. by apply map_Forall_insert_2.
Qed.

Lemma quiet_setTask r jobId t : quiet Q r (setTask r jobId t).
Proof. by split. Qed.

Lemma quiet_call r c : quiet Q r (call r c).
Proof. by split. Qed.

Lemma quiet_tableSet r jobId : quiet Q r (tableSet r jobId).
Proof. by split. Qed.

Lemma quiet_generateId r : quiet Q r (generateId r).1.
Proof. by split. Qed.

Lemma quiet_updateJobStage r job stage :
  Q (status job) ->
  quiet Q r (updateJobStage r job stage).1 /\
  status (updateJobStage r job stage).2 = status job /\
  id (updateJobStage r job stage).2 = id job /\
  project (updateJobStage r job stage).2 = project job /\
  options (updateJobStage r job stage).2 = options job.
Proof.
  intros Hs. unfold updateJobStage. simpl. split; [|done].
  destruct (has_onStageChange (options job)).
  - eapply quiet_trans; [|apply quiet_call]. by apply quiet_setJob.
  - by apply quiet_setJob.
Qed.

Lemma quiet_updateJobProgress r job p :
  Q (status job) ->
  quiet Q r (updateJobProgress r job p).1 /\
  status (updateJobProgress r job p).2 = status job /\
  id (updateJobProgress r job p).2 = id job /\
  project (updateJobProgress r job p).2 = project job /\
  options (updateJobProgress r job p).2 = options job.
Proof.
  intros Hs. unfold updateJobProgress. simpl. split; [|done].
  by apply quiet_setJob.
Qed.

Lemma quiet_renderFrame now r p frame : quiet Q r (renderFrame rem now r p frame).1.
Proof.
  unfold renderFrame. destruct (findActiveScene p frame); [|apply quiet_refl].
  destruct (composeScene _ _ _ _ _ _ _) as [[[st c] comp]|]; by split.
Qed.

Lemma quiet_previewLoop now r job frame step frames :
  Q (status job) -> quiet Q r (previewLoop rem now r job frame step frames).
Proof.
  intros Hs. unfold previewLoop. destruct (frame <? _).
  - pose proof (quiet_renderFrame now r (project job) frame) as Hq.
    destruct (renderFrame rem now r (project job) frame) as [r1 fd].
    eapply quiet_trans; [exact Hq | apply quiet_setTask].
  - destruct (quiet_updateJobStage r job finalizing Hs) as (Hq & _).
    destruct (updateJobStage r job finalizing) as [r1 job1].
    unfold createPreviewVideo.
    pose proof (quiet_generateId r1) as Hg.
    destruct (generateId r1) as [r2 u].
    eapply quiet_trans; [exact Hq|].
    eapply quiet_trans; [exact Hg | apply quiet_setTask].
Qed.

Lemma quiet_finalLoop now r job frame frames :
  Q (status job) -> quiet Q r (finalLoop rem now r job frame frames).
Proof.
  intros Hs. unfold finalLoop. destruct (frame <? _).
  - pose proof (quiet_renderFrame now r (project job) frame) as Hq.
    destruct (renderFrame rem now r (project job) frame) as [r1 fd].
    eapply quiet_trans; [exact Hq | apply quiet_setTask].
  - destruct (quiet_updateJobStage r job encoding Hs) as (Hq & _).
    destruct (updateJobStage r job encoding) as [r1 job1].
    unfold encodeVideo.
    pose proof (quiet_generateId r1) as Hg.
    destruct (generateId r1) as [r2 u].
    eapply quiet_trans; [exact Hq|].
    eapply quiet_trans; [exact Hg | apply quiet_setTask].
Qed.

Lemma quiet_renderPreview now r job :
  Q (status job) -> quiet Q r (renderPreview rem now r job).
Proof.
  intros Hs. unfold renderPreview.
  destruct (quiet_updateJobStage r job composing Hs) as (Hq & Hs1 & _).
  destruct (updateJobStage r job composing) as [r1 job1]. cbn [fst snd] in *.
  eapply quiet_trans; [exact Hq|]. apply quiet_previewLoop. by rewrite Hs1.
Qed.

Lemma quiet_renderFinal now r job :
  Q (status job) -> quiet Q r (renderFinal rem now r job).
Proof.
  intros Hs. unfold renderFinal.
  destruct (quiet_updateJobStage r job composing Hs) as (Hq & Hs1 & _).
  destruct (updateJobStage r job composing) as [r1 job1]. cbn [fst snd] in *.
  eapply quiet_trans; [exact Hq|].
  unfold loadProject. destruct (schemaAccepts (project job1)).
  - set (r2 := Build_Renderer _ _ _ _ _ _ _ _ _ _).
    assert (Hq2 : quiet Q r1 r2) by by split.
    assert (Hs1' : Q (status job1)) by (by rewrite Hs1).
    destruct (quiet_updateJobStage r2 job1 rendering Hs1') as (Hq3 & Hs3 & _).
    destruct (updateJobStage r2 job1 rendering) as [r3 job3]. cbn [fst snd] in *.
    eapply quiet_trans; [exact Hq2|]. eapply quiet_trans; [exact Hq3|].
    apply quiet_finalLoop. by rewrite Hs3.
  - apply quiet_setTask.
Qed.

Lemma quiet_renderProject now r p o : quiet Q r (renderProject rem now r p o).1.
Proof.
  unfold renderProject.
  pose proof (quiet_generateId r) as Hg.
  destruct (generateId r) as [r1 jobId]. cbn [fst snd] in *.
  eapply quiet_trans; [exact Hg|].
  destruct (preview o).
  - eapply quiet_trans; [|by apply quiet_renderPreview].
    eapply quiet_trans; [|apply quiet_tableSet].
    by apply quiet_setJob.
  - eapply quiet_trans; [|by apply quiet_renderFinal].
    eapply quiet_trans; [|apply quiet_tableSet].
    by apply quiet_setJob.
Qed.

Lemma quiet_withStatus r job s e url finished :
  Q s -> quiet Q r (setJob r (withStatus job s e url finished)).
Proof. intros Hs. by apply quiet_setJob. Qed.

Lemma quiet_resume now r jobId :
  allStatus Q r -> quiet Q r (resume rem now r jobId).
Proof.
  intros Hr. unfold resume.
  destruct (tasks r !! jobId) as [task|]; [|apply quiet_refl].
  destruct (jobObjects r !! jobId) as [job|] eqn:Ejob; [|apply quiet_refl].
  assert (Hs : Q (status job)) by exact (Hr _ _ Ejob).
  destruct task as [frame step frames [fd|] | frames url | frame frames [fd|]
                    | frames url | url | m | url | m].
  - match goal with |- context [updateJobProgress r job ?p] =>
      destruct (quiet_updateJobProgress r job p Hs) as (Hq & Hs1 & _);
      destruct (updateJobProgress r job p) as [r1 job1] end.
    cbn [fst snd] in *. eapply quiet_trans; [exact Hq|].
    apply quiet_previewLoop. by rewrite Hs1.
  - apply quiet_setTask.
  - eapply quiet_trans; [|apply quiet_setTask]. by apply quiet_withStatus.
  - match goal with |- context [updateJobProgress r job ?p] =>
      destruct (quiet_updateJobProgress r job p Hs) as (Hq & Hs1 & _);
      destruct (updateJobProgress r job p) as [r1 job1] end.
    cbn [fst snd] in *. eapply quiet_trans; [exact Hq|].
    eapply quiet_trans; [|apply quiet_finalLoop; by rewrite Hs1].
    destruct (has_onProgress (options job1)); [apply quiet_call | apply quiet_refl].
  - apply quiet_setTask.
  - destruct (quiet_updateJobProgress r job (ofZ 90) Hs) as (Hq & Hs1 & _).
    destruct (updateJobProgress r job (ofZ 90)) as [r1 job1]. cbn [fst snd] in *.
    assert (Hs1' : Q (status job1)) by (by rewrite Hs1).
    destruct (quiet_updateJobStage r1 job1 optimizing Hs1') as (Hq2 & _).
    destruct (updateJobStage r1 job1 optimizing) as [r2 job2]. cbn [fst snd] in *.
    eapply quiet_trans; [exact Hq|]. eapply quiet_trans; [exact Hq2|].
    apply quiet_setTask.
  - destruct (quiet_updateJobProgress r job (ofZ 100) Hs) as (Hq & Hs1 & _).
    destruct (updateJobProgress r job (ofZ 100)) as [r1 job1]. cbn [fst snd] in *.
    assert (Hs1' : Q (status job1)) by (by rewrite Hs1).
    destruct (quiet_updateJobStage r1 job1 finalizing Hs1') as (Hq2 & _).
    destruct (updateJobStage r1 job1 finalizing) as [r2 job2]. cbn [fst snd] in *.
    eapply quiet_trans; [exact Hq|]. eapply quiet_trans; [exact Hq2|].
    eapply quiet_trans; [|apply quiet_setTask]. by apply quiet_withStatus.
  - unfold fail.
    eapply quiet_trans; [|apply quiet_setTask]. by apply quiet_withStatus.
  - apply quiet_refl.
  - apply quiet_refl.
Qed.

Lemma quiet_cancelJob now r jobId :
  activeJobs (cancelJob now r jobId).1 ⊆ activeJobs r /\
  (allStatus Q r -> allStatus Q (cancelJob now r jobId).1).
Proof.
  unfold cancelJob, getJob.
  destruct (bool_decide (jobId ∈ jobs r)); [|by split].
  destruct (jobObjects r !! jobId) as [job|] eqn:Ejob; [|by split].
  destruct (bool_decide (status job = processing)) eqn:Es; [|by split].
  split; [simpl; apply subseteq_difference_l; done|].
  intros Hr. by apply map_Forall_insert_2.
Qed.

Lemma quiet_perform now r op :
  allStatus Q r ->
  activeJobs (perform rem now r op) ⊆ activeJobs r /\
  allStatus Q (perform rem now r op).
Proof.
  intros Hr. destruct op as [p o | jobId | jobId |]; cbn [perform].
  - destruct (quiet_renderProject now r p o) as [Ha H].
    split; [by rewrite Ha | auto].
  - destruct (quiet_resume now r jobId Hr) as [Ha H].
    split; [by rewrite Ha | auto].
  - destruct (quiet_cancelJob now r jobId) as [Ha H]. auto.
  - by split.
Qed.

Lemma quiet_performAll history r :
  allStatus Q r ->
  activeJobs (performAll rem r history) ⊆ activeJobs r /\
  allStatus Q (performAll rem r history).
Proof.
  revert r. induction history as [|[now op] history IH]; intros r Hr;
    [by split|].
  change (performAll rem r ((now, op) :: history))
    with (performAll rem (perform rem now r op) history).
  destruct (quiet_perform now r op Hr) as [Ha' Hq'].
  destruct (IH (perform rem now r op) Hq') as [Ha Hq].
  split; [by etrans | auto].
Qed.
End RendererFacts.

Section RendererFacts2.
Import JS MotionEngine SceneComposer MotionRenderer Sample RenderSample.


(** No job of a renderer is ever in status [processing]. *)
Lemma never_processing rem st history :
  noneProcessing (performAll rem (create st) history).
Proof.
  assert (H : noneProcessing (create st)) by apply map_Forall_empty.
  refine (proj2 (quiet_performAll rem (fun s => s <> processing)
                   _ _ _ history (create st) H)); discriminate.
Qed.




(** C1 at three requests: the renderer has the cap of 2, and after three
    requests in a row every one of the three jobs is already in stage
    [rendering], awaiting its frame 0; none waits for another to finish,
    none is [processing], and the set of active jobs is empty. *)
Theorem three_requests_all_start :
  maxConcurrentJobs threeRequests = 2%nat /\
  map (fun job => (id job, status job, currentStage job)) (getAllJobs threeRequests)
    = [ (0%nat, pending, rendering); (1%nat, pending, rendering);
        (2%nat, pending, rendering) ] /\
  map (fun jobId => tasks threeRequests !! jobId) (jobs threeRequests)
    = [ Some (AwaitFinalFrame 0 [] (Some placeholderFrame));
        Some (AwaitFinalFrame 0 [] (Some placeholderFrame));
        Some (AwaitFinalFrame 0 [] (Some placeholderFrame)) ] /\
  jobsIn processing threeRequests = [] /\
  activeJobs threeRequests = ∅.
Proof.
  split; [by vm_compute|]. split; [by vm_compute|]. split; [by vm_compute|].
  split; [by vm_compute|]. apply (bool_decide_unpack _). by vm_compute.
Qed.

(** C2 at a final render of one frame: through the turns of its call the
    job is [pending], then [completed]; it is never [processing]. *)
Theorem status_skips_processing :
  statusHistory sampleCurves oneFrameRender 0 3 =
    [Some pending; Some pending; Some pending; Some completed] /\
  Some processing ∉ statusHistory sampleCurves oneFrameRender 0 3.
Proof.
  assert (H : statusHistory sampleCurves oneFrameRender 0 3 =
              [Some pending; Some pending; Some pending; Some completed])
    by (by vm_compute).
  split; [exact H|]. rewrite H.
  apply (bool_decide_unpack _). by vm_compute.
Qed.

(** Between one and two budgets the stride is 1. *)
Lemma frameStep_below_two_budgets d : 150 < d < 300 -> frameStep d = 1.
Proof.
  intros Hd. unfold frameStep, previewFrames.
  rewrite Z.min_r by lia.
  assert (d / 150 = 1) as ->
    by (symmetry; apply Z.div_unique with (r := d - 150); lia).
  reflexivity.
Qed.

(** C6 at a project of 299 frames: the stride is 1, where
    [ceil(299 / 150)] is 2, and the preview composes 299 frames, more than
    the budget of 150. *)
Theorem preview_exceeds_frame_budget :
  frameStep 299 = 1 /\
  ceilDiv 299 150 = 2 /\
  (length <$> framesComposed previewOf299 0%nat) = Some 299%nat /\
  (150 < 299)%nat.
Proof.
  split; [reflexivity|]. split; [reflexivity|].
  split; [by vm_compute | lia].
Qed.
End RendererFacts2.


(** * Further properties *)

(** ** Keyframes and evaluation *)

Section KeyframeFacts.
Import JS MotionEngine Sample Observe.

Lemma insertKeyframe_Permutation k ks : insertKeyframe k ks ≡ₚ k :: ks.
Proof.
  induction ks as [|k' ks IH]; simpl; [done|].
  destruct (kf_frame k <=? kf_frame k'); [done|].
  rewrite IH. apply Permutation_swap.
Qed.

Lemma sortKeyframes_Permutation ks : sortKeyframes ks ≡ₚ ks.
Proof.
  induction ks as [|k ks IH]; simpl; [done|].
  by rewrite insertKeyframe_Permutation, IH.
Qed.

Lemma insertKeyframe_Sorted k ks :
  Sorted byFrame ks -> Sorted byFrame (insertKeyframe k ks).
Proof.
  induction ks as [|k' ks IH]; simpl; intros Hs.
  - repeat constructor.
  - destruct (kf_frame k <=? kf_frame k') eqn:E.
    + constructor; [done|]. constructor. by apply Z.leb_le.
    + apply Z.leb_gt in E. inversion Hs as [|? ? Hs' Hhd]; subst.
      constructor; [by apply IH|].
      destruct ks as [|k'' ks]; simpl.
      * constructor. unfold byFrame. lia.
      * destruct (kf_frame k <=? kf_frame k''); constructor.
        -- unfold byFrame. lia.
        -- by inversion Hhd.
Qed.

Lemma sortKeyframes_Sorted ks : Sorted byFrame (sortKeyframes ks).
Proof.
  induction ks as [|k ks IH]; simpl; [constructor|].
  by apply insertKeyframe_Sorted.
Qed.

(** Sorting an array that is in order changes nothing. *)
Lemma sortKeyframes_sorted ks : Sorted byFrame ks -> sortKeyframes ks = ks.
Proof.
  induction ks as [|k ks IH]; simpl; [done|].
  intros Hs. inversion Hs as [|? ? Hs' Hhd]; subst.
  rewrite IH by done.
  destruct ks as [|k' ks]; simpl; [done|].
  inversion Hhd as [|? ? Hle]; subst.
  apply Z.leb_le in Hle. by rewrite Hle.
Qed.

Lemma animationValue_keyframes rem a ks frame :
  (animationValue rem a ks frame).1 = ks \/
  (animationValue rem a ks frame).1 = sortKeyframes ks.
Proof.
  unfold animationValue. destruct ks as [|k ks']; [by left|].
  destruct (frame - delay a <? 0); [by left|].
  destruct (sortKeyframes (k :: ks')) as [|first rest]; [by right|].
  destruct (last (first :: rest)); [|by right].
  destruct (_ <=? kf_frame first); [by right|].
  destruct (kf_frame k0 <=? _); by right.
Qed.

Lemma animationValue_sorts rem a ks frame :
  ks <> [] -> 0 <= frame - delay a ->
  (animationValue rem a ks frame).1 = sortKeyframes ks.
Proof.
  intros Hne Hpos. unfold animationValue. destruct ks as [|k ks']; [done|].
  apply Z.ltb_ge in Hpos. rewrite Hpos.
  destruct (sortKeyframes (k :: ks')) as [|first rest]; [done|].
  destruct (last (first :: rest)); [|done].
  destruct (_ <=? kf_frame first); [done|].
  by destruct (kf_frame k0 <=? _).
Qed.

Lemma sortKeyframes_nil ks : sortKeyframes ks = [] -> ks = [].
Proof.
  intros H. apply Permutation_nil_r. rewrite <- H.
  symmetry. apply sortKeyframes_Permutation.
Qed.

(** Evaluated on the array in order, the outcome is the same. *)
Lemma animationValue_sorted_again rem a ks frame :
  ks <> [] -> 0 <= frame - delay a ->
  animationValue rem a (sortKeyframes ks) frame = animationValue rem a ks frame.
Proof.
  intros Hne Hpos.
  assert (Hs : sortKeyframes (sortKeyframes ks) = sortKeyframes ks)
    by apply sortKeyframes_sorted, sortKeyframes_Sorted.
  unfold animationValue. rewrite Hs.
  destruct ks as [|k ks']; [done|].
  destruct (sortKeyframes (k :: ks')) as [|k1 r] eqn:E;
    [by apply sortKeyframes_nil in E|].
  apply Z.ltb_ge in Hpos. by rewrite Hpos.
Qed.

Lemma interpolateValue_finite_numbers x y p :
  exists n, interpolateValue (VNum (Fin x)) (VNum (Fin y)) p = Some (VNum n).
Proof. simpl. destruct (bool_decide (x = y)); by eexists. Qed.

Lemma interpolateKeyframes_finite_numbers rem a cf ks :
  Forall (fun k => finiteNumber (kf_value k)) ks ->
  exists v, interpolateKeyframes rem a cf ks = Some v /\ numberOrUndefined v.
Proof.
  induction ks as [|k ks IH]; intros Hall; [exists VUndef; split; [done | by left]|].
  apply Forall_cons in Hall as [[x Hx] Hall].
  destruct ks as [|k' ks']; [exists VUndef; split; [done | by left]|].
  change (interpolateKeyframes rem a cf (k :: k' :: ks')) with
    (if (kf_frame k <=? cf) && (cf <=? kf_frame k')
     then interpolateValue (kf_value k) (kf_value k')
            (applyEasing rem
               (ndiv (ofZ (cf - kf_frame k)) (ofZ (kf_frame k' - kf_frame k)))
               (default (easing a) (kf_easing k')))
     else interpolateKeyframes rem a cf (k' :: ks')).
  destruct (_ && _); [|by apply IH].
  pose proof Hall as Hall'. apply Forall_cons in Hall' as [[y Hy] _].
  rewrite Hx, Hy.
  destruct (interpolateValue_finite_numbers x y
              (applyEasing rem
                 (ndiv (ofZ (cf - kf_frame k)) (ofZ (kf_frame k' - kf_frame k)))
                 (default (easing a) (kf_easing k')))) as [n Hn].
  exists (VNum n). split; [exact Hn | right; by exists n].
Qed.

Lemma animationValue_finite_numbers rem a ks frame :
  Forall (fun k => finiteNumber (kf_value k)) ks ->
  exists v, (animationValue rem a ks frame).2 = Some v /\ numberOrUndefined v.
Proof.
  intros Hall. unfold animationValue.
  destruct ks as [|k ks']; [exists VUndef; split; [done | by left]|].
  destruct (frame - delay a <? 0); [exists VUndef; split; [done | by left]|].
  assert (Hs : Forall (fun k => finiteNumber (kf_value k))
                 (sortKeyframes (k :: ks')))
    by (by rewrite sortKeyframes_Permutation).
  destruct (sortKeyframes (k :: ks')) as [|first rest] eqn:E;
    [exists VUndef; split; [done | by left]|].
  destruct (last (first :: rest)) as [final|] eqn:El;
    [|exists VUndef; split; [done | by left]].
  assert (Hnum : forall k0, k0 ∈ first :: rest -> numberOrUndefined (kf_value k0)).
  { intros k0 Hin. rewrite Forall_forall in Hs.
    destruct (Hs k0 Hin) as [x Hx]. right. by exists (Fin x). }
  destruct (_ <=? kf_frame first).
  { exists (kf_value first). split; [done|]. apply Hnum. left. }
  destruct (kf_frame final <=? _).
  { exists (kf_value final). split; [done|]. apply Hnum.
    by apply last_Some_elem_of. }
  by apply interpolateKeyframes_finite_numbers.
Qed.

(** X1: evaluating an animation from its delay on sorts its keyframe array
    in place, whether the evaluation returns or raises: the array it leaves
    is in ascending order of frame and holds the same keyframes.  When the
    evaluation returns, the store holds that array and the objects it held
    before; evaluating again at the same frame returns the same value and
    changes nothing, and no later evaluation changes the store again.  The
    evaluation returns whenever the values of the keyframes are finite
    numbers. *)
Theorem evaluation_sorts_keyframes_once rem st a frame ks :
  kfs st !! keyframes a = Some ks ->
  ks <> [] ->
  0 <= frame - delay a ->
  ((animationValue rem a ks frame).1 = sortKeyframes ks /\
   Sorted byFrame (sortKeyframes ks) /\
   sortKeyframes ks ≡ₚ ks) /\
  (forall st' v,
     calculateAnimationValue rem st a frame = Some (st', v) ->
     kfs st' !! keyframes a = Some (sortKeyframes ks) /\
     objs st' = objs st /\
     calculateAnimationValue rem st' a frame = Some (st', v) /\
     (forall frame' st'' v',
        calculateAnimationValue rem st' a frame' = Some (st'', v') ->
        st'' = st')) /\
  (Forall (fun k => finiteNumber (kf_value k)) ks ->
   exists st' v, calculateAnimationValue rem st a frame = Some (st', v)).
Proof.
  intros Hks Hne Hpos.
  pose proof (animationValue_sorts rem a ks frame Hne Hpos) as Hsort.
  assert (Hl : (keyframes a < length (kfs st))%nat)
    by (by eapply lookup_lt_Some).
  split; [|split].
  - split; [exact Hsort|].
    split; [apply sortKeyframes_Sorted | apply sortKeyframes_Permutation].
  - intros st' v. unfold calculateAnimationValue at 1. rewrite Hks. simpl.
    destruct (animationValue rem a ks frame) as [ks' [v0|]] eqn:E; [|done].
    simpl in Hsort. subst ks'. simpl. intros [= <- <-].
    assert (Hins : kfs (set_kfs st (<[keyframes a := sortKeyframes ks]> (kfs st)))
                     !! keyframes a = Some (sortKeyframes ks))
      by (by apply list_lookup_insert_eq).
    split; [exact Hins|]. split; [done|]. split.
    + unfold calculateAnimationValue. rewrite Hins. simpl.
      rewrite (animationValue_sorted_again rem a ks frame Hne Hpos), E.
      simpl. unfold set_kfs. simpl. by rewrite list_insert_insert_eq.
    + intros frame' st'' v'. unfold calculateAnimationValue. rewrite Hins.
      simpl.
      pose proof (animationValue_keyframes rem a (sortKeyframes ks) frame') as Hk.
      destruct (animationValue rem a (sortKeyframes ks) frame') as [ks2 [v2|]];
        [|done].
      simpl in Hk. simpl. intros [= <- _].
      assert (ks2 = sortKeyframes ks) as ->.
      { destruct Hk as [->| ->]; [done|].
        apply sortKeyframes_sorted, sortKeyframes_Sorted. }
      unfold set_kfs. simpl. by rewrite list_insert_insert_eq.
  - intros Hall. unfold calculateAnimationValue. rewrite Hks. simpl.
    destruct (animationValue_finite_numbers rem a ks frame Hall)
      as (v & Hv & _).
    destruct (animationValue rem a ks frame) as [ks' r]. simpl in Hv.
    subst r. simpl. by eexists _, _.
Qed.
End KeyframeFacts.


Section SpanFacts.
Import JS MotionEngine Sample Observe.

(** A ratio of two integer frame distances, the divisor positive *)
Lemma ndiv_frames x y :
  0 < y -> ndiv (ofZ x) (ofZ y) = Fin (Qc_of_Z x / Qc_of_Z y).
Proof.
  intros Hy. unfold ndiv, ofZ.
  rewrite bool_decide_eq_false_2; [done|].
  rewrite <- Z2Qc_inj_0. intros H%Z2Qc_inj. lia.
Qed.

Lemma ratio_bounds x y :
  0 < x <= y -> (0 < Qc_of_Z x / Qc_of_Z y)%Qc /\ (Qc_of_Z x / Qc_of_Z y <= 1)%Qc.
Proof.
  intros [Hx Hxy].
  assert (Hy : (0 < Qc_of_Z y)%Qc) by (rewrite <- Z2Qc_inj_0; apply (proj1 (Z2Qc_inj_lt 0 y)); lia).
  assert (Hx' : (0 < Qc_of_Z x)%Qc) by (rewrite <- Z2Qc_inj_0; by apply (proj1 (Z2Qc_inj_lt 0 x))).
  split.
  - apply Qcmult_pos_pos; [done | by apply Qcinv_pos].
  - assert (Hne : Qc_of_Z y <> 0%Qc).
    { intros H. rewrite H in Hy. by apply (irreflexivity Qclt) in Hy. }
    rewrite <- (Qcmult_inv_r (Qc_of_Z y)) by done.
    apply Qcmult_le_mono_nonneg_r.
    + apply Qclt_le_weak. by apply Qcinv_pos.
    + by apply (proj1 (Z2Qc_inj_le x y)).
Qed.

(** In an ordered array, a frame after the first keyframe and before the
    last one is bracketed by two neighbours, and the loop over the pairs
    stops at them. *)
Lemma interpolateKeyframes_bracket rem a cf ks k0 tl final :
  Sorted byFrame ks ->
  ks = k0 :: tl ->
  kf_frame k0 < cf ->
  last ks = Some final ->
  cf < kf_frame final ->
  exists pre current next post,
    ks = pre ++ current :: next :: post /\
    kf_frame current < cf <= kf_frame next /\
    interpolateKeyframes rem a cf ks =
      interpolateValue (kf_value current) (kf_value next)
        (applyEasing rem
           (ndiv (ofZ (cf - kf_frame current))
                 (ofZ (kf_frame next - kf_frame current)))
           (default (easing a) (kf_easing next))).
Proof.
  intros Hs. revert k0 tl. induction Hs as [|k ks' Hs IH Hhd];
    intros k0 tl Heq Hlt Hlast Hcf; [done|].
  injection Heq as -> ->.
  destruct tl as [|k1 tl'].
  - simpl in Hlast. injection Hlast as <-. lia.
  - destruct (Z_le_gt_dec cf (kf_frame k1)) as [Hle|Hgt].
    + exists [], k0, k1, tl'. split; [done|]. split; [lia|].
      simpl.
      assert (H1 : (kf_frame k0 <=? cf) = true) by (apply Z.leb_le; lia).
      assert (H2 : (cf <=? kf_frame k1) = true) by (by apply Z.leb_le).
      by rewrite H1, H2.
    + destruct (IH k1 tl' eq_refl) as (pre & current & next & post & E & Hb & Hv);
        [lia | by rewrite last_cons_cons in Hlast | done |].
      exists (k0 :: pre), current, next, post.
      split; [by rewrite E|]. split; [done|].
      change (interpolateKeyframes rem a cf (k0 :: k1 :: tl')) with
        (if (kf_frame k0 <=? cf) && (cf <=? kf_frame k1)
         then interpolateValue (kf_value k0) (kf_value k1)
                (applyEasing rem
                   (ndiv (ofZ (cf - kf_frame k0))
                         (ofZ (kf_frame k1 - kf_frame k0)))
                   (default (easing a) (kf_easing k1)))
         else interpolateKeyframes rem a cf (k1 :: tl')).
      assert (H2 : (cf <=? kf_frame k1) = false) by (apply Z.leb_gt; lia).
      rewrite H2, andb_false_r. exact Hv.
Qed.

(** X2: from the delay on, with [cf] the frame folded into the loop period:
    at or after the last keyframe the value is the last keyframe's; strictly
    between the first and the last keyframe it is the interpolation between
    two neighbouring keyframes that bracket [cf], at a finite progress that
    is above 0 and at most 1 (and the evaluation raises where that
    interpolation does). *)
Theorem evaluation_inside_and_after_span rem st a frame ks first rest final :
  kfs st !! keyframes a = Some ks ->
  sortKeyframes ks = first :: rest ->
  last (first :: rest) = Some final ->
  0 <= frame - delay a ->
  (kf_frame first < loopFrame a (frame - delay a) ->
   kf_frame final <= loopFrame a (frame - delay a) ->
   (snd <$> calculateAnimationValue rem st a frame) = Some (kf_value final)) /\
  (kf_frame first < loopFrame a (frame - delay a) < kf_frame final ->
   exists pre current next post t,
     first :: rest = pre ++ current :: next :: post /\
     kf_frame current < loopFrame a (frame - delay a) <= kf_frame next /\
     t = (Qc_of_Z (loopFrame a (frame - delay a) - kf_frame current) /
          Qc_of_Z (kf_frame next - kf_frame current))%Qc /\
     (0 < t)%Qc /\ (t <= 1)%Qc /\
     (snd <$> calculateAnimationValue rem st a frame) =
       interpolateValue (kf_value current) (kf_value next)
         (applyEasing rem (Fin t) (default (easing a) (kf_easing next)))).
Proof.
  intros Hks Hsort Hlast Hpos.
  rewrite (calculateAnimationValue_result _ _ _ _ _ Hks).
  unfold animationValue.
  destruct ks as [|k0 ks']; [done|].
  apply Z.ltb_ge in Hpos. rewrite Hpos, Hsort, Hlast.
  set (cf := loopFrame a (frame - delay a)). split.
  - intros H1 H2.
    assert (E1 : (cf <=? kf_frame first) = false) by (apply Z.leb_gt; lia).
    assert (E2 : (kf_frame final <=? cf) = true) by (apply Z.leb_le; lia).
    by rewrite E1, E2.
  - intros [H1 H2].
    assert (E1 : (cf <=? kf_frame first) = false) by (apply Z.leb_gt; lia).
    assert (E2 : (kf_frame final <=? cf) = false) by (apply Z.leb_gt; lia).
    rewrite E1, E2. cbn [snd].
    destruct (interpolateKeyframes_bracket rem a cf (first :: rest) first rest final)
      as (pre & current & next & post & E & Hb & Hv); try done.
    { rewrite <- Hsort. apply sortKeyframes_Sorted. }
    eexists pre, current, next, post, _. split; [done|]. split; [done|].
    split; [reflexivity|].
    destruct (ratio_bounds (cf - kf_frame current) (kf_frame next - kf_frame current))
      as [Hlo Hhi]; [lia|].
    split; [done|]. split; [done|].
    rewrite Hv, ndiv_frames by lia. done.
Qed.
End SpanFacts.


Section LoopFacts.
Import JS MotionEngine Sample Observe.

Lemma loopFrame_period a x n :
  loop a = true -> 0 < duration a -> 0 <= x ->
  (if yoyo a then n = 2 else n = 1 \/ n = 2) ->
  loopFrame a (x + n * duration a) = loopFrame a x.
Proof.
  intros Hl Hd Hx Hn. unfold loopFrame. rewrite Hl.
  assert (Hd' : (0 <? duration a) = true) by (by apply Z.ltb_lt).
  rewrite Hd'. simpl.
  assert (Hn' : 0 <= n) by (destruct (yoyo a); lia).
  rewrite (Z.rem_mod_nonneg (x + n * duration a)), (Z.rem_mod_nonneg x) by nia.
  rewrite Z_mod_plus_full, Z.div_add by lia.
  destruct (yoyo a); [|done]. subst n. simpl.
  assert (Hq : 0 <= x / duration a) by (apply Z.div_pos; lia).
  rewrite (Z.rem_mod_nonneg (x / duration a + 2)),
    (Z.rem_mod_nonneg (x / duration a)) by lia.
  replace (x / duration a + 2) with (x / duration a + 1 * 2) by lia.
  by rewrite Z_mod_plus_full.
Qed.

Lemma animationValue_same_loopFrame rem a ks f1 f2 :
  0 <= f1 - delay a -> 0 <= f2 - delay a ->
  loopFrame a (f1 - delay a) = loopFrame a (f2 - delay a) ->
  animationValue rem a ks f1 = animationValue rem a ks f2.
Proof.
  intros H1 H2 Hl. unfold animationValue. destruct ks; [done|].
  apply Z.ltb_ge in H1, H2. by rewrite H1, H2, Hl.
Qed.

(** X3: a looping animation repeats: from the delay on, the value at a
    frame is the value two durations later, with or without yoyo; without
    yoyo it is also the value one duration later. *)
Theorem looping_evaluation_is_periodic rem st a frame :
  loop a = true ->
  0 < duration a ->
  0 <= frame - delay a ->
  calculateAnimationValue rem st a (frame + 2 * duration a) =
    calculateAnimationValue rem st a frame /\
  (yoyo a = false ->
   calculateAnimationValue rem st a (frame + duration a) =
     calculateAnimationValue rem st a frame).
Proof.
  intros Hl Hd Hpos. unfold calculateAnimationValue.
  destruct (kfs st !! keyframes a) as [ks|]; [|done]. simpl. split.
  - rewrite (animationValue_same_loopFrame rem a ks (frame + 2 * duration a) frame);
      [done | lia | lia |].
    replace (frame + 2 * duration a - delay a)
      with (frame - delay a + 2 * duration a) by lia.
    apply loopFrame_period; try done. destruct (yoyo a); auto.
  - intros Hy.
    rewrite (animationValue_same_loopFrame rem a ks (frame + duration a) frame);
      [done | lia | lia |].
    replace (frame + duration a - delay a)
      with (frame - delay a + 1 * duration a) by lia.
    apply loopFrame_period; try done. rewrite Hy. auto.
Qed.
End LoopFacts.


Section InterpolationFacts.
Import JS MotionEngine Sample Observe.

(** Induction on values, through the fields of objects *)
Lemma value_induction (P : value -> Prop) :
  (forall p, P (VPrim p)) ->
  (forall fs, Forall (fun kv => P kv.2) fs -> P (VObj fs)) ->
  forall v, P v.
Proof.
  intros Hp Ho. fix IH 1. intros [p|fs]; [apply Hp|]. apply Ho.
  induction fs as [|[k v] fs IHfs]; constructor; [apply IH | apply IHfs].
Qed.










End InterpolationFacts.


Section PathFacts.
Import JS MotionEngine Sample Observe.

Lemma splitPath_cons s : exists k rest, splitPath s = k :: rest.
Proof.
  destruct s as [|c s]; simpl; [by eexists _, _|].
  destruct (Ascii.eqb c _); [by eexists _, _|].
  destruct (splitPath s); by eexists _, _.
Qed.

Lemma splitPath_dotFree k :
  dotFree k = true -> splitPath k = [k].
Proof.
  induction k as [|c k IH]; simpl; [done|].
  intros [Hc Hk]%andb_true_iff. apply negb_true_iff in Hc.
  rewrite Hc, IH by done. done.
Qed.

(** X5: splitting a path at its dots and joining the keys with dots gives
    the path back; the split is never empty and no key holds a dot; and a
    non-empty list of keys without dots is what its join splits into. *)
Theorem splitPath_joinPath :
  (forall path,
     joinPath (splitPath path) = path /\
     splitPath path <> [] /\
     Forall (fun k => dotFree k = true) (splitPath path)) /\
  (forall keys,
     keys <> [] ->
     Forall (fun k => dotFree k = true) keys ->
     splitPath (joinPath keys) = keys).
Proof.
  split.
  - intros path. induction path as [|c s (IHj & IHn & IHd)]; simpl.
    + split; [done|]. split; [done|]. by repeat constructor.
    + destruct (Ascii.eqb_spec c (Ascii.ascii_of_nat 46)) as [->|Hc].
      * destruct (splitPath_cons s) as (k & rest & E).
        split; [|split; [done | by constructor]].
        rewrite E in *.
        change (String (Ascii.ascii_of_nat 46) (joinPath (k :: rest)) =
                String (Ascii.ascii_of_nat 46) s).
        by rewrite IHj.
      * destruct (splitPath s) as [|k rest] eqn:E; [done|].
        split; [|split; [done|]].
        -- rewrite <- IHj. by destruct rest.
        -- apply Forall_cons in IHd as [Hk Hrest]. constructor; [|done].
           simpl. rewrite Hk, andb_true_r. apply negb_true_iff.
           by apply Ascii.eqb_neq.
  - intros keys. induction keys as [|k keys IH]; [done|].
    intros _ [Hk Hall]%Forall_cons.
    destruct keys as [|k' keys'].
    + simpl. by apply splitPath_dotFree.
    + change (joinPath (k :: k' :: keys'))
        with (k +:+ String (Ascii.ascii_of_nat 46) (joinPath (k' :: keys'))).
      specialize (IH ltac:(done) Hall).
      set (j := joinPath (k' :: keys')) in *.
      clearbody j. clear Hall. revert Hk.
      induction k as [|c k IHk]; simpl; intros Hk.
      * by rewrite IH.
      * apply andb_true_iff in Hk as [Hc Hk]. apply negb_true_iff in Hc.
        rewrite Hc. rewrite (IHk Hk). done.
Qed.
End PathFacts.


Section PropertyPathFacts.
Import JS MotionEngine Sample Observe.

Lemma get_set_eq {A} k (v : A) fs : JS.get k (JS.set k v fs) = Some v.
Proof.
  induction fs as [|[k' v'] fs IH]; simpl; [by rewrite String.eqb_refl|].
  destruct (String.eqb_spec k k') as [->|Hne]; simpl.
  - by rewrite String.eqb_refl.
  - by destruct (String.eqb_spec k k').
Qed.

Lemma get_set_ne {A} k k' (v : A) fs :
  k <> k' -> JS.get k' (JS.set k v fs) = JS.get k' fs.
Proof.
  intros Hne. induction fs as [|[k0 v0] fs IH]; simpl.
  - by destruct (String.eqb_spec k' k).
  - destruct (String.eqb_spec k k0) as [->|Hk]; simpl.
    + destruct (String.eqb_spec k' k0); [congruence | done].
    + destruct (String.eqb_spec k' k0); [done | apply IH].
Qed.

Lemma objs_lookup_insert_eq (os : list obj) (l : loc) o :
  (l < length os)%nat -> <[l := o]> os !! l = Some o.
Proof. apply list_lookup_insert_eq. Qed.

Lemma objs_lookup_insert_ne (os : list obj) (l l' : loc) o :
  l <> l' -> <[l := o]> os !! l' = os !! l'.
Proof. apply list_lookup_insert_ne. Qed.

Lemma setNestedProperty_last st (l : loc) k v :
  setNestedProperty st (HRef l) [k] v = assignField st l k v.
Proof. reflexivity. Qed.

Lemma setNestedProperty_step st (l : loc) k k2 rest v :
  setNestedProperty st (HRef l) (k :: k2 :: rest) v =
  (o ← objs st !! l;
   match JS.get k o with
   | Some next => setNestedProperty st next (k2 :: rest) v
   | None =>
       if inherited k
       then setNestedProperty st (HPrim (inheritedMember k)) (k2 :: rest) v
       else
         let '(st1, l') := alloc st [] in
         let st2 := set_objs st1 (<[l := JS.set k (HRef l') o]> (objs st1)) in
         setNestedProperty st2 (HRef l') (k2 :: rest) v
   end).
Proof. reflexivity. Qed.

Lemma inherited_proto k : inherited k = false -> k <> "__proto__".
Proof. by intros H ->. Qed.

(** An ordinary assignment: the key is not [__proto__] *)
Lemma assignField_plain st (l : loc) o k v :
  objs st !! l = Some o -> k <> "__proto__" ->
  assignField st l k v =
  Some (set_objs st (<[l := JS.set k v o]> (objs st))).
Proof.
  intros Hl Hk. unfold assignField. rewrite Hl. simpl.
  by destruct (String.eqb_spec k "__proto__").
Qed.

(** Writing along a path whose first key is new, and whose keys are no
    inherited names: the objects in between are created, one for each
    further key. *)
Lemma setNestedProperty_new_path rest : forall st (l : loc) o k v,
  objs st !! l = Some o ->
  JS.get k o = None ->
  Forall (fun key => inherited key = false) (k :: rest) ->
  exists st',
    setNestedProperty st (HRef l) (k :: rest) v = Some st' /\
    getNestedProperty st' (HRef l) (k :: rest) = Some v /\
    (exists x, objs st' !! l = Some (JS.set k x o)) /\
    (forall l0, (l0 < length (objs st))%nat -> l0 <> l ->
       objs st' !! l0 = objs st !! l0) /\
    length (objs st') = (length (objs st) + length rest)%nat /\
    kfs st' = kfs st.
Proof.
  induction rest as [|k2 rest IH]; intros st l o k v Hl Hk Hplain.
  - assert (Hlt : (l < length (objs st))%nat) by (by eapply lookup_lt_Some).
    apply Forall_cons in Hplain as [Hkp _]. apply inherited_proto in Hkp.
    rewrite setNestedProperty_last, (assignField_plain st l o) by done.
    eexists. split; [reflexivity|].
    cbn [getNestedProperty objs set_objs kfs].
    rewrite objs_lookup_insert_eq by done. simpl.
    rewrite get_set_eq. split; [done|]. split; [by eexists|].
    split; [intros l0 _ Hne; by apply objs_lookup_insert_ne|].
    split; [rewrite length_insert; lia | done].
  - assert (Hlt : (l < length (objs st))%nat) by (by eapply lookup_lt_Some).
    apply Forall_cons in Hplain as [Hkp Hplain].
    rewrite setNestedProperty_step, Hl. simpl. rewrite Hk, Hkp.
    set (l' := length (objs st)).
    set (st2 := set_objs _ _).
    assert (Hl2 : objs st2 !! l' = Some []).
    { unfold st2. cbn [objs set_objs].
      rewrite objs_lookup_insert_ne by (unfold l'; lia).
      unfold l'. by rewrite list_lookup_middle. }
    destruct (IH st2 l' [] k2 v Hl2 eq_refl Hplain)
      as (st' & Hset & Hget & [x Hx] & Hother & Hlen & Hkfs).
    assert (Hlen2 : length (objs st2) = S (length (objs st))).
    { unfold st2. cbn [objs set_objs]. rewrite length_insert, length_app.
      simpl. lia. }
    assert (Hl' : objs st' !! l = Some (JS.set k (HRef l') o)).
    { rewrite Hother by (unfold l'; lia).
      unfold st2. cbn [objs set_objs].
      apply objs_lookup_insert_eq. rewrite length_app. simpl. lia. }
    exists st'. split; [exact Hset|]. split.
    { change (getNestedProperty st' (HRef l) (k :: k2 :: rest)) with
        (o ← objs st' !! l; next ← JS.get k o;
         getNestedProperty st' next (k2 :: rest)).
      rewrite Hl'. simpl. rewrite get_set_eq. simpl. exact Hget. }
    split; [by eexists|]. split.
    { intros l0 Hl0 Hne. rewrite Hother by (unfold l'; lia).
      unfold st2. cbn [objs set_objs].
      rewrite objs_lookup_insert_ne by done. by apply lookup_app_l. }
    split; [rewrite Hlen, Hlen2; simpl; lia | by rewrite Hkfs].
Qed.

(** X6: writing a value along a dotted path.  With one key other than
    [__proto__], the write succeeds on any stored object, a read of the key
    gives the value, and the other keys and the other objects are as before.
    A primitive written to [__proto__], where the object has no field of
    that name, is ignored: the store stays as it is.  When the first key of
    a longer path is not in the object, and no key of the path names a
    member that objects inherit, the write succeeds too: it creates one
    object for each further key, touches no other object that existed, and
    a read along the path gives the value.  When the first key of a longer
    path holds a primitive, the write raises. *)
Theorem setNestedProperty_writes st (l : loc) o k v :
  objs st !! l = Some o ->
  (k <> "__proto__" ->
   exists st',
     setNestedProperty st (HRef l) [k] v = Some st' /\
     getNestedProperty st' (HRef l) [k] = Some v /\
     (forall k', k' <> k ->
        getNestedProperty st' (HRef l) [k'] = getNestedProperty st (HRef l) [k']) /\
     (forall l0, l0 <> l -> objs st' !! l0 = objs st !! l0) /\
     length (objs st') = length (objs st)) /\
  (forall p,
     JS.get "__proto__" o = None ->
     p <> PNull -> (forall b, p <> PBuiltin b) ->
     setNestedProperty st (HRef l) ["__proto__"] (HPrim p) = Some st) /\
  (forall rest,
     JS.get k o = None ->
     Forall (fun key => inherited key = false) (k :: rest) ->
     exists st',
       setNestedProperty st (HRef l) (k :: rest) v = Some st' /\
       getNestedProperty st' (HRef l) (k :: rest) = Some v /\
       (forall l0, (l0 < length (objs st))%nat -> l0 <> l ->
          objs st' !! l0 = objs st !! l0) /\
       length (objs st') = (length (objs st) + length rest)%nat) /\
  (forall p k2 rest,
     JS.get k o = Some (HPrim p) ->
     (forall b, p <> PBuiltin b) ->
     setNestedProperty st (HRef l) (k :: k2 :: rest) v = None).
Proof.
  intros Hl.
  assert (Hlt : (l < length (objs st))%nat) by (by eapply lookup_lt_Some).
  split; [|split; [|split]].
  - intros Hk.
    rewrite setNestedProperty_last, (assignField_plain st l o) by done.
    eexists. split; [reflexivity|].
    cbn [getNestedProperty objs set_objs].
    rewrite objs_lookup_insert_eq by done. simpl.
    rewrite get_set_eq. split; [done|]. split.
    + intros k' Hne. rewrite Hl. simpl. by rewrite get_set_ne.
    + split; [intros l0 Hne; by apply objs_lookup_insert_ne|].
      apply length_insert.
  - intros p Hown Hnull Hbuiltin.
    rewrite setNestedProperty_last. unfold assignField. rewrite Hl. simpl.
    rewrite Hown. destruct p as [| | | | | |b]; try done.
    by destruct (Hbuiltin b).
  - intros rest Hk Hplain.
    destruct (setNestedProperty_new_path rest st l o k v Hl Hk Hplain)
      as (st' & H1 & H2 & _ & H3 & H4 & _).
    by exists st'.
  - intros p k2 rest Hk Hp.
    rewrite setNestedProperty_step, Hl. simpl. rewrite Hk. by destruct rest.
Qed.
End PropertyPathFacts.


Section PurityFacts.
Import JS MotionEngine Sample Observe.

(** Entering a value into the store only adds objects. *)
Lemma storeValue_appends v : forall st,
  exists extra,
    objs (storeValue st v).1 = objs st ++ extra /\
    kfs (storeValue st v).1 = kfs st.
Proof.
  induction v as [p|fs IH] using value_induction; intros st.
  - exists []. simpl. by rewrite app_nil_r.
  - simpl.
    set (each :=
      fix each (st : Store) (fs : list (string * value)) {struct fs}
          : Store * obj :=
        match fs with
        | [] => (st, [])
        | (k, fv) :: rest =>
            let '(st1, hv) := storeValue st fv in
            let '(st2, o) := each st1 rest in
            (st2, (k, hv) :: o)
        end).
    assert (Heach : forall st, exists extra,
              objs (each st fs).1 = objs st ++ extra /\
              kfs (each st fs).1 = kfs st).
    { clear st. induction fs as [|[k fv] fs IHfs]; intros st.
      - exists []. simpl. by rewrite app_nil_r.
      - apply Forall_cons in IH as [IHv IH]. simpl in IHv. simpl.
        destruct (IHv st) as (e1 & H1 & K1).
        destruct (storeValue st fv) as [st1 hv]. simpl in H1, K1.
        destruct (IHfs IH st1) as (e2 & H2 & K2).
        destruct (each st1 fs) as [st2 o]. simpl in *.
        exists (e1 ++ e2). rewrite H2, H1, K2, K1. by rewrite app_assoc. }
    destruct (Heach st) as (e & H & K).
    destruct (each st fs) as [st1 o]. simpl in *.
    exists (e ++ [o]). rewrite H, K. by rewrite app_assoc.
Qed.

Lemma sameKeyframes_refl st : sameKeyframes st st.
Proof. split; [done|]. intros i ks H. by exists ks. Qed.

Lemma sameKeyframes_trans st1 st2 st3 :
  sameKeyframes st1 st2 -> sameKeyframes st2 st3 -> sameKeyframes st1 st3.
Proof.
  intros [L1 H1] [L2 H2]. split; [by rewrite L2|].
  intros i ks Hi. destruct (H1 i ks Hi) as (ks2 & Hi2 & P2).
  destruct (H2 i ks2 Hi2) as (ks3 & Hi3 & P3).
  exists ks3. split; [done|]. by rewrite P3.
Qed.

Lemma sameKeyframes_kfs st st' : kfs st' = kfs st -> sameKeyframes st st'.
Proof.
  intros E. split; [by rewrite E|]. intros i ks H. exists ks. by rewrite E.
Qed.

(** An evaluation that returns leaves the objects alone and the keyframe
    arrays with the same keyframes. *)
Lemma calculateAnimationValue_effect rem st a frame st' v :
  calculateAnimationValue rem st a frame = Some (st', v) ->
  objs st' = objs st /\ sameKeyframes st st'.
Proof.
  unfold calculateAnimationValue.
  destruct (kfs st !! keyframes a) as [ks|] eqn:Hks; [|done]. simpl.
  pose proof (animationValue_keyframes rem a ks frame) as Hk.
  destruct (animationValue rem a ks frame) as [ks' [v'|]]; [|done].
  simpl in Hk. simpl. intros [= <- <-]. split; [done|].
  assert (Hperm : ks' ≡ₚ ks).
  { destruct Hk as [->| ->]; [done | apply sortKeyframes_Permutation]. }
  split; [simpl; by rewrite length_insert|].
  intros i ks0 Hi. simpl.
  destruct (decide (i = keyframes a)) as [->|Hne].
  - exists ks'. rewrite list_lookup_insert_eq by (by eapply lookup_lt_Some).
    split; [done|].
    assert (Some ks0 = Some ks) as [= ->] by (rewrite <- Hi; exact Hks).
    done.
  - exists ks0. by rewrite list_lookup_insert_ne.
Qed.

Lemma assignField_effect st (l : loc) k v st2 :
  assignField st l k v = Some st2 ->
  (forall l0, l0 <> l -> objs st2 !! l0 = objs st !! l0) /\
  length (objs st2) = length (objs st) /\
  kfs st2 = kfs st.
Proof.
  unfold assignField. destruct (objs st !! l) as [o|]; [|done]. simpl.
  assert (Hset : forall st3,
            Some (set_objs st (<[l := JS.set k v o]> (objs st))) = Some st3 ->
            (forall l0, l0 <> l -> objs st3 !! l0 = objs st !! l0) /\
            length (objs st3) = length (objs st) /\ kfs st3 = kfs st).
  { intros st3 [= <-]. simpl. split; [|split; [apply length_insert | done]].
    intros l0 Hne. by apply list_lookup_insert_ne. }
  destruct (String.eqb k "__proto__"); [|apply Hset].
  destruct (JS.get k o); [apply Hset|].
  destruct v as [p|l']; [|done].
  destruct p as [| | | | | |[|]]; try done; by intros [= <-].
Qed.

(** One write of an evaluated value to a key of the copy at [result] *)
Lemma write_top_level (n : nat) (result : loc) k v st1 st3 :
  (n <= result)%nat ->
  (let '(st', hv) := storeValue st1 v in
   setNestedProperty st' (HRef result) [k] hv) = Some st3 ->
  (forall l0 : loc, (l0 < n)%nat -> (l0 < length (objs st1))%nat ->
     objs st3 !! l0 = objs st1 !! l0) /\
  (length (objs st1) <= length (objs st3))%nat /\
  kfs st3 = kfs st1.
Proof.
  intros Hn.
  destruct (storeValue_appends v st1) as (extra & Ho & Hk).
  destruct (storeValue st1 v) as [st2 hv] eqn:Es. simpl in Ho, Hk.
  rewrite setNestedProperty_last. intros Hw.
  apply assignField_effect in Hw as (Hother & Hlen & Hkfs).
  split; [|split].
  - intros l0 Hl0 Hlt. rewrite Hother by lia. rewrite Ho.
    by apply lookup_app_l.
  - rewrite Hlen, Ho, length_app. lia.
  - by rewrite Hkfs.
Qed.

(** The animations of an element, applied to the copy at [result]: when
    every path is a single key, nothing that was in the store at the time of
    the copy is written to. *)
Lemma applyAnimations_top_level rem frame (n : nat) (result : loc) anims :
  forall st st',
  (n <= result)%nat ->
  (n <= length (objs st))%nat ->
  Forall (fun a => dotFree (property a) = true) anims ->
  applyAnimations rem st result anims frame = Some st' ->
  (forall l0 : loc, (l0 < n)%nat -> objs st' !! l0 = objs st !! l0) /\
  (length (objs st) <= length (objs st'))%nat /\
  sameKeyframes st st'.
Proof.
  induction anims as [|a anims IH]; intros st st' Hn Hlen Hall.
  - intros [= <-]. split; [done|]. split; [done | apply sameKeyframes_refl].
  - apply Forall_cons in Hall as [Hdot Hall].
    cbn [applyAnimations].
    destruct (calculateAnimationValue rem st a frame) as [[st1 v]|] eqn:Ec;
      [|done].
    apply calculateAnimationValue_effect in Ec as [Ho1 Hk1].
    cbn [mbind option_bind]. rewrite (splitPath_dotFree _ Hdot).
    destruct (match v with
              | VUndef => Some st1
              | _ => let '(st', hv) := storeValue st1 v in
                     setNestedProperty st' (HRef result) [property a] hv
              end) as [st2|] eqn:Ew; [|done].
    cbn [mbind option_bind]. intros Hrest.
    assert (Hstep : (forall l0 : loc, (l0 < n)%nat ->
                       objs st2 !! l0 = objs st1 !! l0) /\
                    (length (objs st1) <= length (objs st2))%nat /\
                    kfs st2 = kfs st1).
    { assert (Hw : forall st3,
                (let '(st', hv) := storeValue st1 v in
                 setNestedProperty st' (HRef result) [property a] hv)
                  = Some st3 ->
                (forall l0 : loc, (l0 < n)%nat ->
                   objs st3 !! l0 = objs st1 !! l0) /\
                (length (objs st1) <= length (objs st3))%nat /\
                kfs st3 = kfs st1).
      { intros st3 H3.
        destruct (write_top_level n result _ _ _ _ Hn H3) as (A & B & C).
        split; [|done]. intros l0 Hl0. apply A; [done|]. rewrite Ho1. lia. }
      destruct v as [[| | | | | |]|]; try (by apply Hw);
        injection Ew as <-; done. }
    destruct Hstep as (Hs1 & Hs2 & Hs3).
    apply IH in Hrest as (Hr1 & Hr2 & Hr3); [|done|rewrite Ho1 in Hs2; lia|done].
    split; [|split].
    + intros l0 Hl0. by rewrite Hr1, Hs1, Ho1.
    + rewrite Ho1 in Hs2. lia.
    + eapply sameKeyframes_trans; [exact Hk1|].
      eapply sameKeyframes_trans; [|exact Hr3].
      by apply sameKeyframes_kfs.
Qed.

(** With finite numbers in every keyframe, the animations of an element
    whose arrays exist are applied without a raise. *)
Lemma applyAnimations_returns rem frame (result : loc) anims : forall st,
  (result < length (objs st))%nat ->
  Forall (fun a => dotFree (property a) = true /\
                   (keyframes a < length (kfs st))%nat) anims ->
  Forall (Forall (fun k => finiteNumber (kf_value k))) (kfs st) ->
  exists st', applyAnimations rem st result anims frame = Some st'.
Proof.
  induction anims as [|a anims IH]; intros st Hres Hall Hfin; [by exists st|].
  apply Forall_cons in Hall as [[Hdot Hkf] Hall].
  assert (exists ks, kfs st !! keyframes a = Some ks) as [ks Hks]
    by (by apply lookup_lt_is_Some_2).
  assert (Hksfin : Forall (fun k => finiteNumber (kf_value k)) ks).
  { rewrite Forall_forall in Hfin. apply Hfin.
    by eapply list_elem_of_lookup_2. }
  cbn [applyAnimations]. unfold calculateAnimationValue. rewrite Hks.
  cbn [mbind option_bind].
  destruct (animationValue_finite_numbers rem a ks frame Hksfin)
    as (v & Hv & Hnum).
  pose proof (animationValue_keyframes rem a ks frame) as Hk.
  destruct (animationValue rem a ks frame) as [ks' r]. simpl in Hv, Hk.
  subst r. cbn [mbind option_bind].
  set (st1 := set_kfs st _).
  assert (Hfin1 : Forall (Forall (fun k => finiteNumber (kf_value k))) (kfs st1)).
  { unfold st1. simpl. apply Forall_insert; [done|].
    destruct Hk as [->| ->]; [done | by rewrite sortKeyframes_Permutation]. }
  assert (Hlen1 : length (kfs st1) = length (kfs st))
    by (unfold st1; simpl; apply length_insert).
  rewrite (splitPath_dotFree _ Hdot).
  assert (exists st2,
            match v with
            | VUndef => Some st1
            | _ => let '(st', hv) := storeValue st1 v in
                   setNestedProperty st' (HRef result) [property a] hv
            end = Some st2 /\
            length (objs st2) = length (objs st1) /\ kfs st2 = kfs st1)
    as (st2 & Hw & Hlen2 & Hkfs2).
  { destruct Hnum as [->|[n ->]]; [by exists st1|].
    cbn [storeValue]. rewrite setNestedProperty_last.
    destruct (assignField st1 result (property a) (HPrim (PNum n)))
      as [st2|] eqn:Ea.
    - exists st2. split; [done|].
      by apply assignField_effect in Ea as (_ & ? & ?).
    - exfalso. unfold assignField in Ea.
      assert (exists o, objs st1 !! result = Some o) as [o Ho]
        by (by apply lookup_lt_is_Some_2).
      unfold obj in *. rewrite Ho in Ea. simpl in Ea.
      destruct (String.eqb _ _); [|done]. by destruct (JS.get _ o). }
  rewrite Hw. cbn [mbind option_bind].
  apply IH.
  - by rewrite Hlen2.
  - rewrite Hkfs2, Hlen1. done.
  - by rewrite Hkfs2.
Qed.

(** X7: for an element in the store whose animations all bind a property
    without a dot.  Whenever evaluating its properties returns, it returns a
    new object and leaves every object that was in the store as it was, the
    element's own property bag included; of what existed it changes only the
    order inside the keyframe arrays, which hold the same keyframes as
    before; without animations the new object is a copy of the bag.  The
    evaluation returns whenever the keyframe arrays of the animations exist
    and every keyframe of the store holds a finite number. *)
Theorem top_level_properties_are_evaluated_purely rem st element frame base :
  objs st !! properties element = Some base ->
  Forall (fun a => dotFree (property a) = true) (animations element) ->
  (forall st' result,
     calculateElementPropertiesAtFrame rem st element frame = Some (st', result) ->
     result = length (objs st) /\
     (forall l0 : loc, (l0 < length (objs st))%nat ->
        objs st' !! l0 = objs st !! l0) /\
     sameKeyframes st st' /\
     (animations element = [] -> objs st' !! result = Some base)) /\
  (Forall (fun a => (keyframes a < length (kfs st))%nat) (animations element) ->
   Forall (Forall (fun k => finiteNumber (kf_value k))) (kfs st) ->
   exists st' result,
     calculateElementPropertiesAtFrame rem st element frame = Some (st', result)).
Proof.
  intros Hbase Hall. unfold calculateElementPropertiesAtFrame.
  rewrite Hbase. simpl.
  set (st0 := set_objs st (objs st ++ [base])).
  assert (Hlen0 : length (objs st0) = S (length (objs st))).
  { unfold st0. simpl. rewrite length_app. simpl. lia. }
  split.
  - intros st' result.
    destruct (applyAnimations rem st0 (length (objs st)) (animations element) frame)
      as [st1|] eqn:Ea; [|done].
    simpl. intros [= <- <-].
    destruct (applyAnimations_top_level rem frame (length (objs st))
                (length (objs st)) (animations element) st0 st1)
      as (H1 & H2 & H3); [done | lia | done | done |].
    split; [done|]. split; [|split].
    + intros l0 Hl0. rewrite H1 by done. unfold st0. simpl.
      by apply lookup_app_l.
    + eapply sameKeyframes_trans; [|exact H3]. by apply sameKeyframes_kfs.
    + intros Hnil. rewrite Hnil in Ea. simpl in Ea. injection Ea as <-.
      unfold st0. simpl. by rewrite list_lookup_middle.
  - intros Hkf Hfin.
    destruct (applyAnimations_returns rem frame (length (objs st))
                (animations element) st0) as [st1 H1]; [lia | | done |].
    { rewrite Forall_forall in Hall, Hkf. apply Forall_forall.
      intros a Ha. split; [by apply Hall | by apply Hkf]. }
    rewrite H1. simpl. by eexists _, _.
Qed.
End PurityFacts.

Section EvaluatorWitnesses.
Import JS MotionEngine Sample Observe MoreSamples.

Lemma evaluation_sorts_keyframes_once_witness :
  kfs unsortedStore !! keyframes moveX =
    Some [keyframeAt 30 (VNum (ofZ 300)); keyframeAt 0 (VNum (ofZ 0))] /\
  0 <= 15 - delay moveX /\
  Forall (fun k => finiteNumber (kf_value k))
    [keyframeAt 30 (VNum (ofZ 300)); keyframeAt 0 (VNum (ofZ 0))] /\
  (animationValue sampleCurves moveX
     [keyframeAt 30 (VNum (ofZ 300)); keyframeAt 0 (VNum (ofZ 0))] 15).1 =
    [keyframeAt 0 (VNum (ofZ 0)); keyframeAt 30 (VNum (ofZ 300))] /\
  exists st' v,
    calculateAnimationValue sampleCurves unsortedStore moveX 15 = Some (st', v) /\
    kfs st' !! keyframes moveX =
      Some [keyframeAt 0 (VNum (ofZ 0)); keyframeAt 30 (VNum (ofZ 300))] /\
    objs st' = objs unsortedStore /\
    calculateAnimationValue sampleCurves st' moveX 15 = Some (st', v).
Proof.
  assert (Hfin : Forall (fun k => finiteNumber (kf_value k))
                   [keyframeAt 30 (VNum (ofZ 300)); keyframeAt 0 (VNum (ofZ 0))])
    by (repeat constructor; by eexists).
  assert (Hpos : 0 <= 15 - delay moveX) by (simpl; lia).
  split; [reflexivity|]. split; [exact Hpos|]. split; [exact Hfin|].
  destruct (evaluation_sorts_keyframes_once sampleCurves unsortedStore moveX 15
              [keyframeAt 30 (VNum (ofZ 300)); keyframeAt 0 (VNum (ofZ 0))]
              eq_refl ltac:(discriminate) Hpos)
    as ((Hsort & _ & _) & Hreturned & Hreturns).
  split; [exact Hsort|].
  destruct (Hreturns Hfin) as (st' & v & Hcall).
  exists st', v. split; [exact Hcall|].
  destruct (Hreturned st' v Hcall) as (Hkfs & Hobjs & Hagain & _).
  split; [exact Hkfs|]. split; [exact Hobjs | exact Hagain].
Defined.

Lemma evaluation_inside_and_after_span_witness :
  kfs movingStore !! keyframes moveX =
    Some [keyframeAt 0 (VNum (ofZ 0)); keyframeAt 30 (VNum (ofZ 300))] /\
  0 <= 15 - delay moveX /\
  kf_frame (keyframeAt 0 (VNum (ofZ 0))) < loopFrame moveX (15 - delay moveX)
    < kf_frame (keyframeAt 30 (VNum (ofZ 300))) /\
  exists pre current next post t,
    [keyframeAt 0 (VNum (ofZ 0)); keyframeAt 30 (VNum (ofZ 300))] =
      pre ++ current :: next :: post /\
    kf_frame current < loopFrame moveX (15 - delay moveX) <= kf_frame next /\
    t = (Qc_of_Z (loopFrame moveX (15 - delay moveX) - kf_frame current) /
         Qc_of_Z (kf_frame next - kf_frame current))%Qc /\
    (0 < t)%Qc /\ (t <= 1)%Qc /\
    (snd <$> calculateAnimationValue sampleCurves movingStore moveX 15) =
      interpolateValue (kf_value current) (kf_value next)
        (applyEasing sampleCurves (Fin t)
           (default (easing moveX) (kf_easing next))).
Proof.
  split; [reflexivity|]. split; [simpl; lia|].
  assert (H : kf_frame (keyframeAt 0 (VNum (ofZ 0)))
              < loopFrame moveX (15 - delay moveX)
              < kf_frame (keyframeAt 30 (VNum (ofZ 300))))
    by (vm_compute; split; reflexivity).
  split; [exact H|].
  apply (evaluation_inside_and_after_span sampleCurves movingStore moveX 15
           [keyframeAt 0 (VNum (ofZ 0)); keyframeAt 30 (VNum (ofZ 300))]
           (keyframeAt 0 (VNum (ofZ 0))) [keyframeAt 30 (VNum (ofZ 300))]
           (keyframeAt 30 (VNum (ofZ 300))));
    [reflexivity | reflexivity | reflexivity | simpl; lia | exact H].
Defined.

Lemma looping_evaluation_is_periodic_witness :
  loop (loopingX false) = true /\ 0 < duration (loopingX false) /\
  0 <= 7 - delay (loopingX false) /\ yoyo (loopingX false) = false /\
  calculateAnimationValue sampleCurves movingStore (loopingX false)
    (7 + 2 * duration (loopingX false)) =
    calculateAnimationValue sampleCurves movingStore (loopingX false) 7 /\
  calculateAnimationValue sampleCurves movingStore (loopingX false)
    (7 + duration (loopingX false)) =
    calculateAnimationValue sampleCurves movingStore (loopingX false) 7.
Proof.
  split; [reflexivity|]. split; [simpl; lia|]. split; [simpl; lia|].
  split; [reflexivity|].
  destruct (looping_evaluation_is_periodic sampleCurves movingStore
              (loopingX false) 7) as [Htwo Hone];
    [reflexivity | simpl; lia | simpl; lia |].
  split; [exact Htwo | exact (Hone eq_refl)].
Defined.


Lemma splitPath_joinPath_witness :
  ["position"; "x"] <> [] /\
  Forall (fun k => dotFree k = true) ["position"; "x"] /\
  splitPath (joinPath ["position"; "x"]) = ["position"; "x"].
Proof.
  assert (Hne : ["position"; "x"] <> ([] : list string)) by discriminate.
  assert (Hall : Forall (fun k => dotFree k = true) ["position"; "x"])
    by (repeat constructor).
  split; [exact Hne|]. split; [exact Hall|].
  exact (proj2 splitPath_joinPath _ Hne Hall).
Defined.

Lemma setNestedProperty_writes_witness :
  objs opaqueStore !! 0%nat = Some [("opacity", HPrim (PNum (ofZ 1)))] /\
  JS.get "position" [("opacity", HPrim (PNum (ofZ 1)))] = None /\
  Forall (fun key => inherited key = false) ["position"; "x"] /\
  (exists st',
     setNestedProperty opaqueStore (HRef 0%nat) ["position"; "x"]
       (HPrim (PNum (ofZ 5))) = Some st' /\
     getNestedProperty st' (HRef 0%nat) ["position"; "x"] =
       Some (HPrim (PNum (ofZ 5))) /\
     (forall l0, (l0 < length (objs opaqueStore))%nat -> l0 <> 0%nat ->
        objs st' !! l0 = objs opaqueStore !! l0) /\
     length (objs st') = (length (objs opaqueStore) + length ["x"])%nat) /\
  setNestedProperty opaqueStore (HRef 0%nat) ["__proto__"]
    (HPrim (PNum (ofZ 5))) = Some opaqueStore /\
  setNestedProperty opaqueStore (HRef 0%nat) ["opacity"; "x"]
    (HPrim (PNum (ofZ 5))) = None.
Proof.
  assert (Hplain : Forall (fun key => inherited key = false) ["position"; "x"])
    by (repeat constructor).
  split; [reflexivity|]. split; [reflexivity|]. split; [exact Hplain|].
  destruct (setNestedProperty_writes opaqueStore 0%nat
              [("opacity", HPrim (PNum (ofZ 1)))] "position"
              (HPrim (PNum (ofZ 5))) eq_refl) as (_ & Hproto & Hnew & _).
  split; [exact (Hnew ["x"] eq_refl Hplain)|].
  split; [apply (Hproto (PNum (ofZ 5)) eq_refl); discriminate|].
  destruct (setNestedProperty_writes opaqueStore 0%nat
              [("opacity", HPrim (PNum (ofZ 1)))] "opacity"
              (HPrim (PNum (ofZ 5))) eq_refl) as (_ & _ & _ & Hraise).
  apply (Hraise (PNum (ofZ 1)) "x" [] eq_refl). discriminate.
Defined.

Lemma top_level_properties_are_evaluated_purely_witness :
  objs fadingStore !! properties fadingElement =
    Some [("opacity", HPrim (PNum (ofZ 1)))] /\
  Forall (fun a => dotFree (property a) = true) (animations fadingElement) /\
  exists st' result,
    calculateElementPropertiesAtFrame sampleCurves fadingStore fadingElement 15 =
      Some (st', result) /\
    result = length (objs fadingStore) /\
    (forall l0 : loc, (l0 < length (objs fadingStore))%nat ->
       objs st' !! l0 = objs fadingStore !! l0) /\
    sameKeyframes fadingStore st'.
Proof.
  assert (Hall : Forall (fun a => dotFree (property a) = true)
                   (animations fadingElement))
    by (repeat constructor).
  split; [reflexivity|]. split; [exact Hall|].
  destruct (top_level_properties_are_evaluated_purely sampleCurves fadingStore
              fadingElement 15 _ eq_refl Hall) as [Hpure Hreturns].
  destruct Hreturns as (st' & result & Hcall).
  { repeat constructor. }
  { repeat constructor; by eexists. }
  exists st', result. split; [exact Hcall|].
  destruct (Hpure st' result Hcall) as (H1 & H2 & H3 & _).
  split; [exact H1|]. split; [exact H2 | exact H3].
Defined.
End EvaluatorWitnesses.

(** ** Effects: creation, validation, application *)

Section EffectCreationFacts.
Import JS MotionEngine EffectLibrary EffectPresets Sample.

Lemma get_spread_absent {A} k (b : list (string * A)) : forall a,
  JS.get k b = None -> JS.get k (spread a b) = JS.get k a.
Proof.
  induction b as [|[k' v'] b IH]; intros a Hk; [done|].
  simpl in Hk. destruct (String.eqb_spec k k') as [->|Hne]; [done|].
  unfold spread in *. simpl. rewrite IH by done. by apply get_set_ne.
Qed.

Lemma get_spread_present {A} k (v : A) (b : list (string * A)) : forall a,
  NoDup (keys b) -> JS.get k b = Some v -> JS.get k (spread a b) = Some v.
Proof.
  induction b as [|[k' v'] b IH]; intros a Hnd Hk; [done|].
  simpl in Hnd. apply NoDup_cons in Hnd as [Hk' Hnd].
  simpl in Hk. unfold spread in *. simpl.
  destruct (String.eqb_spec k k') as [->|Hne].
  - injection Hk as ->.
    change (JS.get k' (spread (JS.set k' v a) b) = Some v).
    rewrite get_spread_absent by (by apply get_absent_keys).
    apply get_set_eq.
  - by apply IH.
Qed.

Lemma getDefaultParameters_spread definition :
  getDefaultParameters definition =
    spread [] (map (fun p => (param_name p, defaultValue p))
                   (def_parameters definition)).
Proof.
  unfold getDefaultParameters, spread.
  generalize (@nil (string * value)).
  induction (def_parameters definition) as [|p ps IH]; intros acc; [done|].
  simpl. apply IH.
Qed.

Lemma getDefaultParameters_get definition :
  NoDup (map param_name (def_parameters definition)) ->
  (forall p, p ∈ def_parameters definition ->
     JS.get (param_name p) (getDefaultParameters definition) =
       Some (defaultValue p)) /\
  (forall k, (forall p, p ∈ def_parameters definition -> param_name p <> k) ->
     JS.get k (getDefaultParameters definition) = None).
Proof.
  intros Hnd. rewrite getDefaultParameters_spread.
  set (kvs := map (fun p => (param_name p, defaultValue p))
                  (def_parameters definition)).
  assert (Hkeys : keys kvs = map param_name (def_parameters definition)).
  { unfold kvs, keys. rewrite map_map. done. }
  split.
  - intros p Hp. apply get_spread_present; [by rewrite Hkeys|].
    unfold kvs. clear Hkeys kvs.
    induction (def_parameters definition) as [|p' ps IH];
      [by apply elem_of_nil in Hp|].
    simpl in Hnd. apply NoDup_cons in Hnd as [Hp' Hnd]. simpl.
    apply elem_of_cons in Hp as [->|Hp]; [by rewrite String.eqb_refl|].
    destruct (String.eqb_spec (param_name p) (param_name p')) as [E|];
      [|by apply IH].
    exfalso. apply Hp'. rewrite <- E. apply list_elem_of_fmap. by exists p.
  - intros k Hk. rewrite get_spread_absent; [done|].
    apply get_absent_keys. rewrite Hkeys. intros Hin.
    apply list_elem_of_fmap in Hin as (p & -> & Hp). by apply (Hk p).
Qed.

Lemma elem_of_concat {A} (x : A) (ls : list (list A)) :
  x ∈ concat ls <-> exists l, x ∈ l /\ l ∈ ls.
Proof.
  induction ls as [|l ls IH]; simpl.
  - split; [by intros ?%elem_of_nil | by intros (l & _ & ?%elem_of_nil)].
  - rewrite elem_of_app, IH. split.
    + intros [H|(l' & H1 & H2)]; [exists l | exists l']; split; try done;
        [apply list_elem_of_here | by apply list_elem_of_further].
    + intros (l' & H1 & [->|H2]%elem_of_cons); [by left | right; by exists l'].
Qed.

Lemma validateParameter_nullish params paramDef :
  read (param_name paramDef) params = VUndef \/
  read (param_name paramDef) params = VNull ->
  validateParameter params paramDef = [MissingParameter (param_name paramDef)].
Proof. unfold validateParameter. by intros [-> | ->]. Qed.

Lemma validateParameter_present params paramDef name :
  read (param_name paramDef) params <> VUndef ->
  read (param_name paramDef) params <> VNull ->
  MissingParameter name ∉ validateParameter params paramDef.
Proof.
  unfold validateParameter. intros Hu Hn Hin.
  destruct (read (param_name paramDef) params) as [[| |n|s|b|ps|bi]|fs];
    try done;
    destruct (param_type paramDef), (min paramDef), (max paramDef),
      (options paramDef);
    cbn [app] in Hin;
    repeat match type of Hin with
           | context [if ?c then _ else _] => destruct c
           end;
    cbn [app] in Hin;
    repeat (apply elem_of_cons in Hin as [Hin|Hin]; [discriminate|]);
    by apply elem_of_nil in Hin.
Qed.

Lemma validateParameter_missing params paramDef name :
  MissingParameter name ∈ validateParameter params paramDef <->
  name = param_name paramDef /\
  (read name params = VUndef \/ read name params = VNull).
Proof.
  split.
  - intros Hin.
    destruct (decide (read (param_name paramDef) params = VUndef)) as [Hu|Hu].
    { rewrite validateParameter_nullish in Hin by (by left).
      apply list_elem_of_singleton in Hin as [= ->]. split; [done | by left]. }
    destruct (decide (read (param_name paramDef) params = VNull)) as [Hn|Hn].
    { rewrite validateParameter_nullish in Hin by (by right).
      apply list_elem_of_singleton in Hin as [= ->]. split; [done | by right]. }
    by apply validateParameter_present in Hin.
  - intros [-> H]. rewrite validateParameter_nullish by done.
    apply list_elem_of_here.
Qed.

Lemma read_own k v (fs : list (string * value)) :
  JS.get k fs = Some v -> read k fs = v.
Proof. unfold read. by intros ->. Qed.

(** X8: an effect made by [createEffect] for a registered type, whose
    definition names its parameters distinctly and none of them
    [__proto__], holds every value the caller passed, the declared default
    of every parameter the caller did not pass, and no other key.
    [validateEffect] reports as missing only parameters of the definition,
    and one of them exactly when the value the effect holds for it is
    [undefined] or [null]: the caller passed one of the two, or passed
    nothing where the declared default is one of the two. *)
Theorem createEffect_fills_parameters effects newId t params isEnabled definition :
  lookup t effects = Some definition ->
  NoDup (map param_name (def_parameters definition)) ->
  "__proto__" ∉ map param_name (def_parameters definition) ->
  NoDup (keys params) ->
  let effect := createEffect effects newId t params isEnabled in
  (forall k v, JS.get k params = Some v ->
     JS.get k (parameters effect) = Some v) /\
  (forall p, p ∈ def_parameters definition ->
     JS.get (param_name p) params = None ->
     JS.get (param_name p) (parameters effect) = Some (defaultValue p)) /\
  (forall k, JS.get k params = None ->
     (forall p, p ∈ def_parameters definition -> param_name p <> k) ->
     JS.get k (parameters effect) = None) /\
  (forall name, MissingParameter name ∈ errors (validateEffect effects effect) ->
     exists p, p ∈ def_parameters definition /\ param_name p = name) /\
  (forall p, p ∈ def_parameters definition ->
     (MissingParameter (param_name p) ∈ errors (validateEffect effects effect) <->
      JS.get (param_name p) (parameters effect) = Some VUndef \/
      JS.get (param_name p) (parameters effect) = Some VNull)).
Proof.
  intros Hdef Hnd _ Hparams effect.
  destruct (getDefaultParameters_get definition Hnd) as [Hd1 Hd2].
  assert (H1 : forall k v, JS.get k params = Some v ->
                 JS.get k (parameters effect) = Some v).
  { intros k v Hk. unfold effect, createEffect. simpl.
    by apply get_spread_present. }
  assert (H2 : forall p, p ∈ def_parameters definition ->
                 JS.get (param_name p) params = None ->
                 JS.get (param_name p) (parameters effect) = Some (defaultValue p)).
  { intros p Hp Hk. unfold effect, createEffect. simpl. rewrite Hdef.
    rewrite get_spread_absent by done. by apply Hd1. }
  assert (Hown : forall p, p ∈ def_parameters definition ->
                   exists v, JS.get (param_name p) (parameters effect) = Some v).
  { intros p Hp. destruct (JS.get (param_name p) params) as [v|] eqn:E;
      [exists v; by apply H1 | exists (defaultValue p); by apply H2]. }
  assert (Ht : effect_type effect = t) by done.
  assert (Herrors : forall name,
            MissingParameter name ∈ errors (validateEffect effects effect) <->
            exists p, p ∈ def_parameters definition /\ param_name p = name /\
              (read name (parameters effect) = VUndef \/
               read name (parameters effect) = VNull)).
  { clearbody effect. intros name. unfold validateEffect.
    rewrite Ht, Hdef. simpl. rewrite elem_of_concat. split.
    - intros (errs & Hin & Herrs).
      apply list_elem_of_fmap in Herrs as (p & -> & Hp).
      apply validateParameter_missing in Hin as [-> Hget]. by exists p.
    - intros (p & Hp & <- & Hget).
      exists (validateParameter (parameters effect) p). split.
      + by apply validateParameter_missing.
      + apply list_elem_of_fmap. by exists p. }
  split; [done|]. split; [done|]. split; [|split].
  - intros k Hk Hno. unfold effect, createEffect. simpl. rewrite Hdef.
    rewrite get_spread_absent by done. by apply Hd2.
  - intros name Hin. apply Herrors in Hin as (p & Hp & Hname & _).
    by exists p.
  - intros p Hp. rewrite Herrors. destruct (Hown p Hp) as [v Hv]. split.
    + intros (p' & _ & _ & Hread). rewrite (read_own _ _ _ Hv) in Hread.
      rewrite Hv. destruct Hread as [-> | ->]; [by left | by right].
    + intros Hget. exists p. split; [done|]. split; [done|].
      rewrite (read_own _ _ _ Hv). rewrite Hv in Hget.
      destruct Hget as [[= ->]|[= ->]]; [by left | by right].
Qed.

Lemma createEffect_fills_parameters_witness :
  lookup blur initializeEffects = Some blurEffect /\
  NoDup (map param_name (def_parameters blurEffect)) /\
  ("__proto__" ∉ map param_name (def_parameters blurEffect)) /\
  NoDup (keys [("amount", VNum (ofZ 12)); ("angle", VNull)]) /\
  JS.get "amount"
    (parameters (createEffect initializeEffects "e" blur
                   [("amount", VNum (ofZ 12)); ("angle", VNull)] true)) =
    Some (VNum (ofZ 12)) /\
  JS.get "directional"
    (parameters (createEffect initializeEffects "e" blur
                   [("amount", VNum (ofZ 12)); ("angle", VNull)] true)) =
    Some (VBool false) /\
  MissingParameter "angle" ∈
    errors (validateEffect initializeEffects
              (createEffect initializeEffects "e" blur
                 [("amount", VNum (ofZ 12)); ("angle", VNull)] true)).
Proof.
  assert (H1 : NoDup (map param_name (def_parameters blurEffect)))
    by (apply (bool_decide_unpack _); vm_compute; reflexivity).
  assert (H2 : "__proto__" ∉ map param_name (def_parameters blurEffect))
    by (apply (bool_decide_unpack _); vm_compute; reflexivity).
  assert (H3 : NoDup (keys [("amount", VNum (ofZ 12)); ("angle", VNull)]))
    by (apply (bool_decide_unpack _); vm_compute; reflexivity).
  split; [reflexivity|]. split; [exact H1|]. split; [exact H2|].
  split; [exact H3|].
  destruct (createEffect_fills_parameters initializeEffects "e" blur
              [("amount", VNum (ofZ 12)); ("angle", VNull)] true blurEffect
              eq_refl H1 H2 H3)
    as (Hpassed & Hdefault & _ & _ & Hmissing).
  split; [exact (Hpassed "amount" _ eq_refl)|]. split.
  - apply (Hdefault (boolean "directional" false)); [|reflexivity].
    simpl. apply list_elem_of_further. apply list_elem_of_here.
  - apply (Hmissing (range "angle" (ofZ 0) (ofZ 0) (ofZ 360) (ofZ 1))).
    + simpl. do 2 apply list_elem_of_further. apply list_elem_of_here.
    + right. exact (Hpassed "angle" _ eq_refl).
Defined.

(** X9: the declared defaults of every built-in effect satisfy its own
    declared constraints, and so do the parameters of every built-in
    preset: an effect created for a registered type without overrides, or
    from a built-in preset, passes [validateEffect] without errors; an
    effect created for a type that is not registered holds just the passed
    parameters and fails with the unknown-type error. *)
Theorem built_in_defaults_and_presets_validate newId isEnabled :
  (forall t definition,
     lookup t initializeEffects = Some definition ->
     validateEffect initializeEffects
       (createEffect initializeEffects newId t [] isEnabled) =
       {| valid := true; errors := [] |}) /\
  (forall preset,
     preset ∈ initializePresets ->
     exists effect,
       createEffectFromPreset initializeEffects initializePresets newId
         (preset_id preset) = Some effect /\
       effect_type effect = effectType preset /\
       validateEffect initializeEffects effect =
         {| valid := true; errors := [] |}) /\
  (forall t params,
     lookup t initializeEffects = None ->
     parameters (createEffect initializeEffects newId t params isEnabled) =
       spread [] params /\
     validateEffect initializeEffects
       (createEffect initializeEffects newId t params isEnabled) =
       {| valid := false; errors := [UnknownEffectType t] |}).
Proof.
  split; [|split].
  - intros t definition Hdef.
    destruct t; try done; by vm_compute.
  - intros preset Hin. unfold initializePresets in Hin.
    repeat (apply elem_of_cons in Hin as [->|Hin]);
      [| | | | by apply elem_of_nil in Hin];
      (eexists; split; [reflexivity|]; split; [reflexivity|]; by vm_compute).
  - intros t params Hnone. unfold createEffect. rewrite Hnone.
    split; [done|]. unfold validateEffect. cbn [effect_type].
    by rewrite Hnone.
Qed.

Lemma built_in_defaults_and_presets_validate_witness :
  lookup glow initializeEffects = Some glowEffect /\
  validateEffect initializeEffects
    (createEffect initializeEffects "e" glow [] true) =
    {| valid := true; errors := [] |}.
Proof.
  split; [reflexivity|].
  exact (proj1 (built_in_defaults_and_presets_validate "e" true)
           glow glowEffect eq_refl).
Defined.
End EffectCreationFacts.

Section EffectValidationFacts.
Import JS MotionEngine EffectLibrary EffectPresets Sample.

Lemma validateParameter_accepts params p :
  validateParameter params p = [] <-> accepted p (read (param_name p) params).
Proof.
  unfold validateParameter, accepted.
  destruct (read (param_name p) params) as [[| | n | s | b | parts | bi]|fs];
    try (split; [done | by intros (? & ? & _)]).
  all: split.
  all: try (intros H; split; [done|]; split; [done|];
            destruct (param_type p), (min p) as [lo|], (max p) as [hi|],
              (options p) as [opts|]; simpl in H;
            repeat match goal with
                   | H : context [if ?c then _ else _] |- _ => destruct c eqn:?
                   end;
            try done; try (by eexists); try (by intros ? [= <-]);
            try (eexists; split; [done|]; split; intros ? [= <-]; done);
            try (eexists; split; [done|]; split; intros ? ?; done)).
  all: intros (_ & _ & H);
    destruct (param_type p); try done;
    try (by destruct H as (? & ? & _)); try (by destruct H as (? & ?));
    try (by destruct (options p) as [opts|]; [rewrite (H opts eq_refl)|]).
  all: destruct H as (n' & [= <-] & Hlo & Hhi);
    destruct (min p) as [lo|], (max p) as [hi|];
    rewrite ?(Hlo _ eq_refl), ?(Hhi _ eq_refl); done.
Qed.

Lemma concat_nil_Forall {A} (ls : list (list A)) :
  concat ls = [] <-> Forall (fun l => l = []) ls.
Proof.
  induction ls as [|l ls IH]; simpl; [by split|].
  rewrite Forall_cons, <- IH. split.
  - by intros [-> ->]%app_eq_nil.
  - by intros [-> ->].
Qed.

(** X10: [validateEffect] accepts an effect exactly when its type is
    registered and the value it holds for every declared parameter is
    accepted: it is neither [undefined] nor [null], and by the declared type
    it is a number not below the minimum and not above the maximum, a
    boolean, or (for a select with options) one of the options; a color is
    not checked further.  The answer is valid exactly when no error is
    listed.  The comparisons make NaN pass every range. *)
Theorem validateEffect_accepts effects effect :
  (valid (validateEffect effects effect) = true <->
   exists definition,
     lookup (effect_type effect) effects = Some definition /\
     forall p, p ∈ def_parameters definition ->
       accepted p (read (param_name p) (parameters effect))) /\
  (valid (validateEffect effects effect) = true <->
   errors (validateEffect effects effect) = []) /\
  (forall p,
     param_type p = number_t \/ param_type p = range_t ->
     accepted p (VNum NaN)).
Proof.
  split; [|split].
  - unfold validateEffect.
    destruct (lookup (effect_type effect) effects) as [definition|];
      [|split; [done | by intros (? & ? & _)]].
    cbn [valid errors]. rewrite Nat.eqb_eq, length_zero_iff_nil.
    rewrite concat_nil_Forall, Forall_forall. split.
    + intros H. exists definition. split; [done|].
      intros p Hp. apply validateParameter_accepts. apply H.
      apply list_elem_of_fmap. by exists p.
    + intros (definition' & [= <-] & H) errs Herrs.
      apply list_elem_of_fmap in Herrs as (p & -> & Hp).
      apply validateParameter_accepts. by apply H.
  - unfold validateEffect.
    destruct (lookup (effect_type effect) effects) as [definition|]; [|done].
    cbn [valid errors]. by rewrite Nat.eqb_eq, length_zero_iff_nil.
  - intros p Ht. split; [done|]. split; [done|].
    assert (H : exists n, VNum NaN = VNum n /\
              (forall lo, min p = Some lo -> nlt n lo = false) /\
              (forall hi, max p = Some hi -> nlt hi n = false)).
    { exists NaN. split; [done|]. split; [done|]. intros hi _. by destruct hi. }
    by destruct Ht as [-> | ->].
Qed.

Lemma validateEffect_accepts_witness :
  param_type (range "amount" (ofZ 5) (ofZ 0) (ofZ 50) (q 1 10)) = range_t /\
  accepted (range "amount" (ofZ 5) (ofZ 0) (ofZ 50) (q 1 10)) (VNum NaN) /\
  valid (validateEffect initializeEffects
           (effectOf blur [("amount", VNum NaN); ("directional", VBool false);
                           ("angle", VNum (ofZ 0))])) = true /\
  valid (validateEffect initializeEffects
           (effectOf blur [("amount", VNull); ("directional", VBool false);
                           ("angle", VNum (ofZ 0))])) = false.
Proof.
  split; [reflexivity|].
  split.
  { exact (proj2 (proj2 (validateEffect_accepts initializeEffects
                           (effectOf blur [])))
             (range "amount" (ofZ 5) (ofZ 0) (ofZ 50) (q 1 10))
             (or_intror eq_refl)). }
  split; reflexivity.
Defined.

Lemma applyEffect_isLive effects element effect frame :
  applyEffect effects element effect frame =
    if isLive effects frame effect
    then match lookup (effect_type effect) effects with
         | Some definition => apply definition element (parameters effect) frame
         | None => element
         end
    else element.
Proof.
  unfold applyEffect, isLive.
  destruct (lookup (effect_type effect) effects) as [definition|]; [|done].
  destruct (enabled effect); [|done]. simpl.
  destruct (effect_startFrame effect) as [s|], (effect_endFrame effect) as [e|];
    simpl; repeat match goal with |- context [?a <? ?b] => destruct (a <? b) end;
    done.
Qed.

(** X11: an effect whose type is not registered, that is disabled, or
    whose window does not hold the frame leaves the element as it is;
    applying a list of effects is applying a first part and then the rest
    to the result; and the effects that are not applied at the frame can be
    dropped from the list without changing the result. *)
Theorem applyEffects_skips_inert effects frame :
  (forall element effect,
     isLive effects frame effect = false ->
     applyEffect effects element effect frame = element) /\
  (forall element effs1 effs2,
     applyEffects effects element (effs1 ++ effs2) frame =
       applyEffects effects (applyEffects effects element effs1 frame) effs2 frame) /\
  (forall element effs,
     applyEffects effects element effs frame =
       applyEffects effects element
         (List.filter (isLive effects frame) effs) frame).
Proof.
  split; [|split].
  - intros element effect H. by rewrite applyEffect_isLive, H.
  - intros element effs1 effs2. unfold applyEffects. apply fold_left_app.
  - intros element effs. revert element.
    induction effs as [|effect effs IH]; intros element; [done|].
    simpl. destruct (isLive effects frame effect) eqn:E.
    + simpl. apply IH.
    + rewrite applyEffect_isLive, E. apply IH.
Qed.

Lemma applyEffects_skips_inert_witness :
  isLive initializeEffects 5 (effectOf (other_effect "blend") []) = false /\
  applyEffect initializeEffects (VObj [("opacity", VNum (ofZ 1))])
    (effectOf (other_effect "blend") []) 5 = VObj [("opacity", VNum (ofZ 1))].
Proof.
  split; [reflexivity|].
  exact (proj1 (applyEffects_skips_inert initializeEffects 5)
           (VObj [("opacity", VNum (ofZ 1))])
           (effectOf (other_effect "blend") []) eq_refl).
Defined.

Lemma field_withField k e k' v :
  field k (withField e k' v) = read k (props (withField e k' v)).
Proof. reflexivity. Qed.

Lemma read_withField_ne k k' e v :
  k <> k' -> read k (props (withField e k' v)) = read k (props e).
Proof.
  intros Hne. unfold withField, read. simpl. by rewrite get_set_ne.
Qed.

Lemma field_withField_eq k e v : field k (withField e k v) = v.
Proof. unfold withField, field, read. by rewrite get_set_eq. Qed.

Lemma filter_withFilter k e fields :
  JS.get k fields = None ->
  JS.get k (props (field "filter" (withFilter e fields))) =
  JS.get k (props (field "filter" e)).
Proof.
  intros Hk. unfold withFilter. rewrite field_withField_eq. simpl.
  by rewrite get_spread_absent.
Qed.

(** X12: applied to an element that is an object, the resolver of a
    built-in effect changes no top-level field of the element other than the
    ones it assigns ([filter], [boxShadow], [border], [background] and
    [opacity], by effect); and where the [filter] of the element is not a
    string, it changes no entry of [filter] other than its own: the filters
    set by earlier effects are kept. *)
Theorem built_in_effects_keep_other_fields t definition fs params frame :
  lookup t initializeEffects = Some definition ->
  (forall k, k ∉ writtenFields t ->
     field k (apply definition (VObj fs) params frame) = field k (VObj fs)) /\
  (isText (field "filter" (VObj fs)) = false ->
   forall k, k ∉ writtenFilters t ->
     JS.get k (props (field "filter" (apply definition (VObj fs) params frame))) =
       JS.get k (props (field "filter" (VObj fs)))).
Proof.
  intros Hdef.
  destruct t; try done; injection Hdef as <-;
    cbn [writtenFields writtenFilters];
    cbn [apply blurEffect glowEffect shadowEffect outlineEffect gradientEffect
         noiseEffect colorCorrectionEffect chromaticAberrationEffect];
    (split; [intros k Hk | intros _ k Hk]; rewrite ?not_elem_of_cons in Hk;
     [ unfold withFilter;
       rewrite (field_withField k), !read_withField_ne by tauto; done
     | first
         [ rewrite filter_withFilter;
           [ rewrite ?(field_withField "filter"), ?read_withField_ne by done;
             done
           | simpl;
             repeat match goal with
                    | |- context [String.eqb ?x ?s] =>
                        rewrite (proj2 (String.eqb_neq x s)) by tauto
                    end; done ]
         | rewrite (field_withField "filter"), !read_withField_ne by done;
           done ] ]).
Qed.

Lemma built_in_effects_keep_other_fields_witness :
  lookup noise initializeEffects = Some noiseEffect /\
  apply blurEffect (VObj []) (parameters clampedBlur) 0 =
    VObj [("filter",
           VObj [("blur", template [TLit "blur("; TNum (ofZ 50); TLit "px)"])])] /\
  isText
    (field "filter"
       (VObj [("filter",
               VObj [("blur",
                      template [TLit "blur("; TNum (ofZ 50); TLit "px)"])])]))
    = false /\
  JS.get "blur"
    (props (field "filter"
       (apply noiseEffect
          (VObj [("filter",
                  VObj [("blur",
                         template [TLit "blur("; TNum (ofZ 50); TLit "px)"])])])
          [("amount", VNum (ofZ 1))] 0))) =
  Some (template [TLit "blur("; TNum (ofZ 50); TLit "px)"]).
Proof.
  split; [reflexivity|]. split; [reflexivity|]. split; [reflexivity|].
  rewrite (proj2 (built_in_effects_keep_other_fields noise noiseEffect
                    [("filter",
                      VObj [("blur",
                             template [TLit "blur("; TNum (ofZ 50); TLit "px)"])])]
                    [("amount", VNum (ofZ 1))] 0 eq_refl) eq_refl "blur").
  - reflexivity.
  - apply (bool_decide_unpack _). vm_compute. reflexivity.
Defined.
End EffectValidationFacts.

(** ** Transitions *)

Section TransitionFacts.
Import JS MotionEngine TransitionSystem TransitionPresets Sample MoreSamples.

Lemma nle_ofZ x y : nle (ofZ x) (ofZ y) = (x <=? y).
Proof.
  unfold nle, ofZ. destruct (Z.leb_spec x y) as [H|H].
  - apply bool_decide_eq_true_2. by apply (proj1 (Z2Qc_inj_le x y)).
  - apply bool_decide_eq_false_2. intros Hle.
    apply (proj2 (Z2Qc_inj_le x y)) in Hle. lia.
Qed.

Lemma nlt_ofZ x y : nlt (ofZ x) (ofZ y) = (x <? y).
Proof.
  unfold nlt, ofZ. destruct (Z.ltb_spec x y) as [H|H].
  - apply bool_decide_eq_true_2. by apply (proj1 (Z2Qc_inj_lt x y)).
  - apply bool_decide_eq_false_2. intros Hlt.
    apply (proj2 (Z2Qc_inj_lt x y)) in Hlt. lia.
Qed.

(** X13: the two checks that [validateTransition] makes on the duration
    let through exactly NaN and the numbers above 0 and at most 300.  So,
    for a duration that is a whole number of frames, a transition is
    accepted exactly when its type is registered and its duration is above
    0 and at most 300; never more than two errors are reported; a
    transition made by [createTransition] keeps the type and the duration it
    was given, so it is accepted under the same condition; and every
    built-in preset gives an accepted transition. *)
Theorem validateTransition_accepts effects newId :
  (forall d,
     validateDuration d = [] <->
     d = NaN \/ (nlt (ofZ 0) d = true /\ nle d (ofZ 300) = true)) /\
  (forall transition,
     valid (validateTransition effects transition) = true <->
     (exists effect, lookup (transition_type transition) effects = Some effect) /\
     0 < transition_duration transition <= 300) /\
  (forall transition,
     (length (errors (validateTransition effects transition)) <= 2)%nat) /\
  (forall type duration easing params,
     validateTransition effects
       (createTransition effects newId type duration easing params) =
     validateTransition effects
       {| transition_id := newId; transition_type := type;
          transition_duration := duration; transition_easing := easing;
          direction := None; transition_parameters := params |}) /\
  (forall preset,
     preset ∈ initializePresets ->
     exists transition,
       createTransitionFromPreset initializeEffects initializePresets newId
         (preset_id preset) = Some transition /\
       valid (validateTransition initializeEffects transition) = true).
Proof.
  split; [|split; [|split; [|split]]].
  - intros d. unfold validateDuration.
    destruct d as [x|[|]|]; simpl.
    + unfold ofZ.
      destruct (decide (x ≤ Qc_of_Z 0)%Qc) as [H0|H0];
        destruct (decide (Qc_of_Z 300 < x)%Qc) as [H3|H3].
      * rewrite !bool_decide_eq_true_2 by done. simpl. split; [done|].
        intros [|[_ H]]; [done|]. apply bool_decide_eq_true in H.
        by apply Qclt_not_le in H3.
      * rewrite (bool_decide_eq_true_2 _ H0). simpl. split; [done|].
        intros [|[H _]]; [done|]. apply bool_decide_eq_true in H.
        by apply Qclt_not_le in H.
      * rewrite (bool_decide_eq_false_2 _ H0), (bool_decide_eq_true_2 _ H3).
        simpl. split; [done|].
        intros [|[_ H]]; [done|]. apply bool_decide_eq_true in H.
        by apply Qclt_not_le in H3.
      * rewrite (bool_decide_eq_false_2 _ H0), (bool_decide_eq_false_2 _ H3).
        simpl. split; [|done]. intros _. right.
        rewrite !bool_decide_eq_true. split.
        -- by apply Qcnot_le_lt.
        -- by apply Qcnot_lt_le.
    + split; [done|]. by intros [|[_ ?]].
    + split; [done|]. by intros [|[? _]].
    + split; [by left | done].
  - intros transition. unfold validateTransition, validateDuration.
    cbn [valid]. rewrite nle_ofZ, nlt_ofZ.
    destruct (lookup (transition_type transition) effects) as [effect|];
      destruct (Z.leb_spec (transition_duration transition) 0);
      destruct (Z.ltb_spec 300 (transition_duration transition)); simpl;
      split; try done; try lia; try (by intros [[? ?] _]); try (intros [_ ?]; lia);
      intros _; split; [by eexists | lia].
  - intros transition. unfold validateTransition, validateDuration.
    cbn [errors]. rewrite nle_ofZ, nlt_ofZ.
    destruct (lookup (transition_type transition) effects) as [effect|];
      destruct (Z.leb_spec (transition_duration transition) 0);
      destruct (Z.ltb_spec 300 (transition_duration transition)); simpl; lia.
  - done.
  - intros preset Hin. unfold initializePresets in Hin.
    repeat (apply elem_of_cons in Hin as [->|Hin]);
      [| | | | by apply elem_of_nil in Hin];
      (eexists; split; [reflexivity|]; by vm_compute).
Qed.

Lemma validateTransition_accepts_witness :
  (exists effect, lookup (transition_type fadeIn30) initializeEffects = Some effect) /\
  0 < transition_duration fadeIn30 <= 300 /\
  valid (validateTransition initializeEffects fadeIn30) = true /\
  validateDuration NaN = [].
Proof.
  assert (H : (exists effect,
                 lookup (transition_type fadeIn30) initializeEffects = Some effect) /\
              0 < transition_duration fadeIn30 <= 300).
  { split; [exists fadeEffect; reflexivity | simpl; lia]. }
  split; [exact (proj1 H)|]. split; [exact (proj2 H)|].
  destruct (validateTransition_accepts initializeEffects "t")
    as (Hduration & Hvalid & _).
  split; [exact (proj2 (Hvalid fadeIn30) H)|].
  apply Hduration. by left.
Defined.

Lemma scaleOpacity_None element factor :
  scaleOpacity element factor = None <-> nullish element = true.
Proof. unfold scaleOpacity. destruct element as [[]|]; simpl; by split. Qed.

Lemma shiftPosition_None element dx dy :
  shiftPosition element dx dy = None <->
  nullish element = true \/ nullish (field "position" element) = true.
Proof.
  unfold shiftPosition, member.
  destruct element as [[]|fs]; simpl;
    try (split; [by auto | by intros [|]]); try (split; [by auto | done]).
  destruct (read "position" fs) as [[]|]; simpl;
    split; try done; try (by intros [|]); by auto.
Qed.

Lemma zoomLayer_None element s factor :
  zoomLayer element s factor = None <->
  nullish element = true \/ nullish (field "scale" element) = true.
Proof.
  unfold zoomLayer, member.
  destruct element as [[]|fs]; simpl;
    try (split; [by auto | by intros [|]]); try (split; [by auto | done]).
  destruct (read "scale" fs) as [[]|]; simpl;
    split; try done; try (by intros [|]); by auto.
Qed.

Lemma bind_pair_None (a b : option value) :
  (from ← a; to ← b; Some (pair_of from to)) = None <-> a = None \/ b = None.
Proof. destruct a, b; simpl; split; try done; try (by intros [|]); by auto. Qed.

Lemma interpolate_None input from to :
  interpolate input from to = None <-> isFinite from && isFinite to = false.
Proof.
  unfold interpolate. destruct from as [x| |], to as [y| |]; simpl; try done.
  by destruct (bool_decide (x = y)).
Qed.

Lemma interpolate_Some input from to r :
  interpolate input from to = Some r ->
  isFinite from = true /\ isFinite to = true.
Proof. unfold interpolate. by destruct from, to. Qed.

(** The scale bounds that the zoom resolver hands to [interpolate]:
    [params.maxScale || 2] and [params.minScale || 0.5], over the defaults
    of the resolver *)
Lemma zoom_None progress fromElement toElement params :
  apply zoomEffect progress fromElement toElement params = None <->
  isFinite (toNumber (or_else (param "maxScale" params) (VNum (ofZ 2)))) = false \/
  isFinite (toNumber (or_else (param "minScale" params) (VNum (q 1 2)))) = false \/
  (nullish fromElement = true \/ nullish (field "scale" fromElement) = true) \/
  (nullish toElement = true \/ nullish (field "scale" toElement) = true).
Proof.
  cbn [apply zoomEffect]. cbv zeta.
  set (maxScale := toNumber (or_else (param "maxScale" params) (VNum (ofZ 2)))).
  set (minScale := toNumber (or_else (param "minScale" params) (VNum (q 1 2)))).
  set (zoomOut := match param "zoomOut" params with
                  | VBool false => false
                  | _ => true
                  end).
  assert (H1 : forall input, interpolate input (ofZ 1) maxScale = None <->
                 isFinite maxScale = false)
    by (intros; by rewrite interpolate_None).
  assert (H2 : forall input, interpolate input (ofZ 1) minScale = None <->
                 isFinite minScale = false)
    by (intros; by rewrite interpolate_None).
  assert (H3 : forall input, interpolate input maxScale (ofZ 1) = None <->
                 isFinite maxScale = false)
    by (intros; rewrite interpolate_None; simpl; by rewrite andb_true_r).
  assert (H4 : forall input, interpolate input minScale (ofZ 1) = None <->
                 isFinite minScale = false)
    by (intros; rewrite interpolate_None; simpl; by rewrite andb_true_r).
  destruct zoomOut.
  - destruct (interpolate progress (ofZ 1) maxScale) as [fromScale|] eqn:E1.
    + pose proof (proj2 (interpolate_Some _ _ _ _ E1)) as Hmax.
      destruct (interpolate progress minScale (ofZ 1)) as [toScale|] eqn:E2.
      * pose proof (proj1 (interpolate_Some _ _ _ _ E2)) as Hmin.
        cbn [mbind option_bind].
        rewrite bind_pair_None, !zoomLayer_None, Hmax, Hmin.
        split; [tauto | by intros [|[|]]].
      * apply H4 in E2. simpl. split; [tauto | done].
    + apply H1 in E1. simpl. split; [tauto | done].
  - destruct (interpolate progress (ofZ 1) minScale) as [fromScale|] eqn:E1.
    + pose proof (proj2 (interpolate_Some _ _ _ _ E1)) as Hmin.
      destruct (interpolate progress maxScale (ofZ 1)) as [toScale|] eqn:E2.
      * pose proof (proj1 (interpolate_Some _ _ _ _ E2)) as Hmax.
        cbn [mbind option_bind].
        rewrite bind_pair_None, !zoomLayer_None, Hmax, Hmin.
        split; [tauto | by intros [|[|]]].
      * apply H3 in E2. simpl. split; [tauto | done].
    + apply H2 in E1. simpl. split; [tauto | done].
Qed.

(** X14: with the built-in resolvers, a wipe, a dissolve and a transition
    of a type without resolver (reveal, iris, flip) never raise, whatever
    the two layers are; a fade raises exactly when one of the layers is
    [undefined] or [null]; a slide and a push exactly when a layer or its
    [position] is [undefined] or [null]; a zoom exactly when a layer or its
    [scale] is [undefined] or [null], or one of its two scale bounds
    ([maxScale], [minScale], with the default in the place of a falsy
    value) is not a finite number. *)
Theorem transitions_that_raise rem transition progress fromElement toElement :
  let result :=
    applyTransition rem initializeEffects transition progress
      fromElement toElement in
  let params :=
    spread (defaultParams zoomEffect) (transition_parameters transition) in
  (transition_type transition ∈ [wipe; dissolve] -> result <> None) /\
  (transition_type transition ∈ [reveal; iris; flip] ->
     result = Some (pair_of fromElement toElement)) /\
  (transition_type transition = fade ->
     (result = None <->
      nullish fromElement = true \/ nullish toElement = true)) /\
  (transition_type transition ∈ [slide; push] ->
     (result = None <->
      (nullish fromElement = true \/
       nullish (field "position" fromElement) = true) \/
      (nullish toElement = true \/
       nullish (field "position" toElement) = true))) /\
  (transition_type transition = zoom ->
     (result = None <->
      isFinite (toNumber (or_else (param "maxScale" params) (VNum (ofZ 2))))
        = false \/
      isFinite (toNumber (or_else (param "minScale" params) (VNum (q 1 2))))
        = false \/
      (nullish fromElement = true \/
       nullish (field "scale" fromElement) = true) \/
      (nullish toElement = true \/
       nullish (field "scale" toElement) = true))).
Proof.
  intros result params. unfold result, params, applyTransition.
  split; [|split; [|split; [|split]]].
  - intros [->|[->|H%elem_of_nil]%elem_of_cons]%elem_of_cons; done.
  - intros [->|[->|[->|H%elem_of_nil]%elem_of_cons]%elem_of_cons]%elem_of_cons;
      done.
  - intros ->. cbn [lookup initializeEffects bool_decide decide_rel]. simpl.
    rewrite bind_pair_None, !scaleOpacity_None. done.
  - intros [->|[->|H%elem_of_nil]%elem_of_cons]%elem_of_cons; [| |done].
    + change (lookup slide initializeEffects) with (Some slideEffect).
      cbn [apply slideEffect].
      match goal with
      | |- context [match ?m with pair _ _ => _ end] =>
          destruct m as [[a b] [c d]]
      end.
      cbn [fst snd]. rewrite bind_pair_None, !shiftPosition_None. done.
    + change (lookup push initializeEffects) with (Some pushEffect).
      cbn [apply pushEffect]. cbv zeta.
      rewrite bind_pair_None, !shiftPosition_None. done.
  - intros ->. change (lookup zoom initializeEffects) with (Some zoomEffect).
    apply zoom_None.
Qed.

Lemma transitions_that_raise_witness :
  transition_type unboundedZoom = zoom /\
  nullish unitLayer = false /\
  nullish (field "scale" unitLayer) = false /\
  applyTransition sampleCurves initializeEffects unboundedZoom half
    unitLayer unitLayer = None.
Proof.
  split; [reflexivity|]. split; [reflexivity|]. split; [reflexivity|].
  destruct (transitions_that_raise sampleCurves unboundedZoom half unitLayer
              unitLayer) as (_ & _ & _ & _ & Hzoom).
  apply (Hzoom eq_refl). left. reflexivity.
Defined.
End TransitionFacts.

Section TransitionGeometryFacts.
Import JS MotionEngine TransitionSystem TransitionPresets Sample MoreSamples.

Lemma shiftPosition_at layer x y dx dy :
  positionOf layer = (VNum (Fin x), VNum (Fin y)) ->
  shiftPosition layer (Fin dx) (Fin dy) =
    Some (withField layer "position"
            (VObj [("x", VNum (Fin (x + dx)%Qc)); ("y", VNum (Fin (y + dy)%Qc))])).
Proof.
  unfold positionOf, shiftPosition, member. intros [= Hx Hy].
  destruct layer as [p|fs]; [by destruct p|]. simpl in *.
  destruct (read "position" fs) as [p|pfs]; [by destruct p|].
  simpl in *. by rewrite Hx, Hy.
Qed.

Lemma positionOf_withField layer x y :
  positionOf (withField layer "position" (VObj [("x", x); ("y", y)])) = (x, y).
Proof. unfold positionOf. by rewrite field_withField_eq. Qed.

Lemma param_spread defaults params k v :
  NoDup (keys params) -> JS.get k params = Some v ->
  param k (spread defaults params) = v.
Proof. intros Hnd Hk. unfold param. by rewrite (get_spread_present k v). Qed.

Lemma or_else_distance (d : Qc) v :
  d <> 0%Qc -> or_else (VNum (Fin d)) v = VNum (Fin d).
Proof. intros Hd. unfold or_else. simpl. by rewrite bool_decide_false. Qed.

Lemma point_eq (a b c d : Qc) :
  a = c -> b = d -> (VNum (Fin a), VNum (Fin b)) = (VNum (Fin c), VNum (Fin d)).
Proof. by intros -> ->. Qed.

Lemma double_zero (d : Qc) : (d + d = 0)%Qc -> d = 0%Qc.
Proof.
  intros H. assert (H2 : ((1 + 1) * d = 0)%Qc) by (rewrite <- H; ring).
  apply Qcmult_integral in H2 as [H2|]; [|done].
  exfalso. revert H2. apply (bool_decide_unpack _). by vm_compute.
Qed.

Lemma Qc_of_Z_0 : Qc_of_Z 0 = 0%Qc.
Proof. by apply Qc_is_canon. Qed.

Lemma Qc_of_Z_1 : Qc_of_Z 1 = 1%Qc.
Proof. by apply Qc_is_canon. Qed.

Ltac run_resolver Htype Heasing Hnd Hdir Hdist Hd Hfrom Hto :=
  unfold applyTransition; rewrite Htype, Heasing;
  match goal with
  | |- context [lookup slide initializeEffects] =>
      change (lookup slide initializeEffects) with (Some slideEffect);
      cbn [apply slideEffect defaultParams]
  | |- context [lookup push initializeEffects] =>
      change (lookup push initializeEffects) with (Some pushEffect);
      cbn [apply pushEffect defaultParams]
  end;
  rewrite (param_spread _ _ "direction" _ Hnd Hdir),
          (param_spread _ _ "distance" _ Hnd Hdist);
  rewrite (or_else_distance _ _ Hd);
  unfold or_else; cbn [truthy String.eqb Ascii.eqb Bool.eqb negb];
  cbv beta iota zeta;
  unfold ofZ; cbn [toNumber nmul nneg nsub nadd fst snd applyEasing];
  rewrite ?Qc_of_Z_0, ?Qc_of_Z_1;
  rewrite (shiftPosition_at _ _ _ _ _ Hfrom), (shiftPosition_at _ _ _ _ _ Hto);
  cbn [mbind option_bind];
  eexists _, _; split; [reflexivity|]; rewrite !positionOf_withField.

(** X15: for a linear slide or push over a non-zero distance [d], between
    layers at [(fx, fy)] and [(tx, ty)], at progress [p].  A slide to the
    left puts the outgoing layer at [fx - d p] and the incoming one at
    [tx + d (1 - p)], so the incoming layer ends at its own position.  A
    push puts the outgoing layer at [fx - d p] (left) or [fx + d p]
    (right) and the incoming one at [tx - d p - d] or [tx + d p - d]: to
    the right the incoming layer ends at its own position, to the left it
    ends [2 d] away from it; and in a push up the distance is still
    subtracted from the x coordinate of the incoming layer. *)
Theorem slide_and_push_positions rem transition p fromElement toElement
    fx fy tx ty d dir :
  transition_easing transition = linear ->
  NoDup (keys (transition_parameters transition)) ->
  JS.get "direction" (transition_parameters transition) = Some (VStr dir) ->
  JS.get "distance" (transition_parameters transition) = Some (VNum (Fin d)) ->
  d <> 0%Qc ->
  positionOf fromElement = (VNum (Fin fx), VNum (Fin fy)) ->
  positionOf toElement = (VNum (Fin tx), VNum (Fin ty)) ->
  (transition_type transition = slide -> dir = "left" ->
   exists from to,
     applyTransition rem initializeEffects transition (Fin p)
       fromElement toElement = Some (pair_of from to) /\
     positionOf from = (VNum (Fin (fx - d * p)%Qc), VNum (Fin fy)) /\
     positionOf to = (VNum (Fin (tx + d * (1 - p))%Qc), VNum (Fin ty))) /\
  (transition_type transition = push -> dir = "right" ->
   exists from to,
     applyTransition rem initializeEffects transition (Fin p)
       fromElement toElement = Some (pair_of from to) /\
     positionOf from = (VNum (Fin (fx + d * p)%Qc), VNum (Fin fy)) /\
     positionOf to = (VNum (Fin (tx + d * p - d)%Qc), VNum (Fin ty))) /\
  (transition_type transition = push -> dir = "left" ->
   exists from to,
     applyTransition rem initializeEffects transition (Fin p)
       fromElement toElement = Some (pair_of from to) /\
     positionOf from = (VNum (Fin (fx - d * p)%Qc), VNum (Fin fy)) /\
     positionOf to = (VNum (Fin (tx - d * p - d)%Qc), VNum (Fin ty)) /\
     (p = 1%Qc -> positionOf to <> positionOf toElement)) /\
  (transition_type transition = push -> dir = "up" ->
   exists from to,
     applyTransition rem initializeEffects transition (Fin p)
       fromElement toElement = Some (pair_of from to) /\
     positionOf from = (VNum (Fin fx), VNum (Fin (fy - d * p)%Qc)) /\
     positionOf to = (VNum (Fin (tx - d)%Qc), VNum (Fin (ty - d * p)%Qc))).
Proof.
  intros Heasing Hnd Hdir Hdist Hd Hfrom Hto.
  split; [|split; [|split]]; intros Htype ->.
  - run_resolver Htype Heasing Hnd Hdir Hdist Hd Hfrom Hto.
    split; apply point_eq; ring.
  - run_resolver Htype Heasing Hnd Hdir Hdist Hd Hfrom Hto.
    split; apply point_eq; ring.
  - run_resolver Htype Heasing Hnd Hdir Hdist Hd Hfrom Hto.
    split; [apply point_eq; ring|]. split; [apply point_eq; ring|].
    intros ->. rewrite Hto. intros [= E]. apply Hd, double_zero.
    transitivity (tx - (tx + (- d * 1 + - d)))%Qc; [ring | rewrite E; ring].
  - run_resolver Htype Heasing Hnd Hdir Hdist Hd Hfrom Hto.
    split; apply point_eq; ring.
Qed.

Lemma slide_and_push_positions_witness :
  transition_easing pushLeft = linear /\
  NoDup (keys (transition_parameters pushLeft)) /\
  Qc_of_Z 100 <> 0%Qc /\
  positionOf (layerAt 0 0) = (VNum (Fin 0%Qc), VNum (Fin 0%Qc)) /\
  exists from to,
    applyTransition sampleCurves initializeEffects pushLeft (Fin 1%Qc)
      (layerAt 0 0) (layerAt 0 0) = Some (pair_of from to) /\
    positionOf to <> positionOf (layerAt 0 0).
Proof.
  assert (Hnd : NoDup (keys (transition_parameters pushLeft)))
    by (apply (bool_decide_unpack _); vm_compute; reflexivity).
  assert (Hd : Qc_of_Z 100 <> 0%Qc)
    by (apply (bool_decide_unpack _); vm_compute; reflexivity).
  split; [reflexivity|]. split; [exact Hnd|]. split; [exact Hd|].
  split; [reflexivity|].
  destruct (slide_and_push_positions sampleCurves pushLeft 1%Qc
              (layerAt 0 0) (layerAt 0 0) 0%Qc 0%Qc 0%Qc 0%Qc (Qc_of_Z 100)
              "left" eq_refl Hnd eq_refl eq_refl Hd eq_refl eq_refl)
    as (_ & _ & Hleft & _).
  destruct (Hleft eq_refl eq_refl) as (from & to & Hrun & _ & _ & Hoff).
  exists from, to. split; [exact Hrun | exact (Hoff eq_refl)].
Defined.

#[local] Opaque ndiv.

Lemma precomputeFrames_spec rem effects transition fromElement toElement
    frameCount n : forall i,
  match precomputeFrames rem effects transition fromElement toElement
          frameCount n i with
  | Some frames =>
      length frames = n /\
      forall k, (k < n)%nat ->
        Some <$> (frames !! k) =
          Some (applyTransition rem effects transition
                  (ndiv (ofZ (i + Z.of_nat k)) (ofZ frameCount))
                  fromElement toElement)
  | None =>
      exists k, (k < n)%nat /\
        applyTransition rem effects transition
          (ndiv (ofZ (i + Z.of_nat k)) (ofZ frameCount))
          fromElement toElement = None
  end.
Proof.
  induction n as [|n IH]; intros i; simpl.
  - split; [done | lia].
  - destruct (applyTransition rem effects transition
                (ndiv (ofZ i) (ofZ frameCount)) fromElement toElement)
      as [r|] eqn:E; simpl.
    + specialize (IH (i + 1)).
      destruct (precomputeFrames rem effects transition fromElement toElement
                  frameCount n (i + 1)) as [frames|]; simpl.
      * destruct IH as [Hlen Hk]. split; [by rewrite Hlen|].
        intros [|k] Hlt; simpl.
        -- by rewrite Z.add_0_r, E.
        -- rewrite Hk by lia.
           by replace (i + Z.of_nat (S k)) with (i + 1 + Z.of_nat k) by lia.
      * destruct IH as (k & Hlt & Hk). exists (S k). split; [lia|].
        rewrite <- Hk.
        by replace (i + Z.of_nat (S k)) with (i + 1 + Z.of_nat k) by lia.
    + exists 0%nat. split; [lia|]. by rewrite Z.add_0_r.
Qed.

#[local] Transparent ndiv.

(** X16: [precomputeTransition] with a frame count [n >= 0] applies the
    transition at the progresses [0/n, 1/n, ..., n/n] in this order: when
    no application raises it returns [n + 1] results, the one at index [i]
    being the transition applied at progress [i / n]; it raises exactly
    when one of these applications does.  With a frame count of 0 the only
    progress is [0 / 0], which is NaN; with a negative frame count the
    result is empty. *)
Theorem precomputeTransition_frames rem effects transition fromElement
    toElement frameCount :
  (forall frames,
     precomputeTransition rem effects transition fromElement toElement
       frameCount = Some frames ->
     length frames = Z.to_nat (frameCount + 1) /\
     forall i, 0 <= i <= frameCount ->
       Some <$> (frames !! Z.to_nat i) =
         Some (applyTransition rem effects transition
                 (ndiv (ofZ i) (ofZ frameCount)) fromElement toElement)) /\
  (precomputeTransition rem effects transition fromElement toElement
     frameCount = None <->
   exists i, 0 <= i <= frameCount /\
     applyTransition rem effects transition
       (ndiv (ofZ i) (ofZ frameCount)) fromElement toElement = None) /\
  (frameCount = 0 ->
   precomputeTransition rem effects transition fromElement toElement
     frameCount =
     (result ← applyTransition rem effects transition NaN fromElement toElement;
      Some [result])) /\
  (frameCount < 0 ->
   precomputeTransition rem effects transition fromElement toElement
     frameCount = Some []).
Proof.
  unfold precomputeTransition.
  pose proof (precomputeFrames_spec rem effects transition fromElement
                toElement frameCount (Z.to_nat (frameCount + 1)) 0) as H.
  split; [|split; [|split]].
  - intros frames E. rewrite E in H. destruct H as [Hlen Hk].
    split; [done|]. intros i Hi. rewrite Hk by lia.
    by replace (0 + Z.of_nat (Z.to_nat i)) with i by lia.
  - destruct (precomputeFrames rem effects transition fromElement toElement
                frameCount (Z.to_nat (frameCount + 1)) 0) as [frames|].
    + split; [done|]. intros (i & Hi & Hnone). destruct H as [_ Hk].
      specialize (Hk (Z.to_nat i) ltac:(lia)).
      replace (0 + Z.of_nat (Z.to_nat i)) with i in Hk by lia.
      rewrite Hnone in Hk. by destruct (frames !! Z.to_nat i).
    + split; [|done]. intros _. destruct H as (k & Hlt & Hk).
      exists (Z.of_nat k). split; [lia|]. by rewrite Z.add_0_l in Hk.
  - intros ->. change (Z.to_nat (0 + 1)) with 1%nat. cbn [precomputeFrames].
    assert (E0 : ndiv (ofZ 0) (ofZ 0) = NaN)
      by (apply (bool_decide_unpack _); by vm_compute).
    rewrite E0.
    by destruct (applyTransition rem effects transition NaN fromElement toElement).
  - intros Hneg. replace (Z.to_nat (frameCount + 1)) with 0%nat by lia. done.
Qed.

Lemma precomputeTransition_frames_witness :
  0 <= 1 <= 2 /\
  (exists frames,
     precomputeTransition sampleCurves initializeEffects fadeIn30
       (layerOfOpacity (ofZ 1)) (layerOfOpacity (ofZ 1)) 2 = Some frames /\
     length frames = 3%nat /\
     Some <$> (frames !! 1%nat) =
       Some (applyTransition sampleCurves initializeEffects fadeIn30
               (ndiv (ofZ 1) (ofZ 2))
               (layerOfOpacity (ofZ 1)) (layerOfOpacity (ofZ 1)))) /\
  precomputeTransition sampleCurves initializeEffects fadeIn30
    VUndef (layerOfOpacity (ofZ 1)) 2 = None.
Proof.
  split; [lia|]. split.
  - destruct (precomputeTransition sampleCurves initializeEffects fadeIn30
                (layerOfOpacity (ofZ 1)) (layerOfOpacity (ofZ 1)) 2)
      as [frames|] eqn:E; [|vm_compute in E; discriminate].
    destruct (proj1 (precomputeTransition_frames sampleCurves
                       initializeEffects fadeIn30 (layerOfOpacity (ofZ 1))
                       (layerOfOpacity (ofZ 1)) 2) frames E) as [Hlen Hk].
    exists frames. split; [reflexivity|]. split; [exact Hlen|].
    apply (Hk 1). lia.
  - apply (proj1 (proj2 (precomputeTransition_frames sampleCurves
                           initializeEffects fadeIn30 VUndef
                           (layerOfOpacity (ofZ 1)) 2))).
    exists 0. split; [lia | reflexivity].
Defined.
End TransitionGeometryFacts.

(** ** The composition cache and scene manipulation *)

Section CacheFacts.
Import JS MotionEngine SceneComposer SceneEditing Sample.




Lemma set_length {A} k (v : A) fs :
  (length (JS.set k v fs) <= S (length fs))%nat.
Proof.
  induction fs as [|[k' v'] fs IH]; simpl; [lia|].
  destruct (String.eqb k k'); simpl; lia.
Qed.

Lemma set_keys_NoDup {A} k (v : A) fs :
  NoDup (keys fs) -> NoDup (keys (JS.set k v fs)).
Proof.
  intros Hnd. destruct (decide (k ∈ keys fs)) as [Hin|Hnin].
  - assert (E : keys (JS.set k v fs) = keys fs); [|by rewrite E].
    clear Hnd. induction fs as [|[k' v'] fs IH]; [by apply elem_of_nil in Hin|].
    simpl. destruct (String.eqb_spec k k') as [->|Hne]; [done|].
    simpl. f_equal. apply IH. simpl in Hin.
    by apply elem_of_cons in Hin as [|].
  - rewrite set_fresh by done. unfold keys. rewrite map_app. simpl.
    apply NoDup_app. split; [done|]. split; [|apply NoDup_singleton].
    intros x Hx ->%list_elem_of_singleton. done.
Qed.

(** X18: a cache of at most 100 compositions stays at most 100 compositions
    through [composeScene], and its keys stay distinct; a miss on a full
    cache drops the oldest entry and appends the new composition. *)
Theorem composeScene_bounds_cache rem project now st cache scene frame
    st1 cache1 composition :
  composeScene rem project now st cache scene frame =
    Some (st1, cache1, composition) ->
  (length cache <= maxCacheSize)%nat ->
  NoDup (keys cache) ->
  (length cache1 <= maxCacheSize)%nat /\
  NoDup (keys cache1) /\
  JS.get (cacheKey scene frame) cache1 = Some composition /\
  (JS.get (cacheKey scene frame) cache = None ->
   length cache = maxCacheSize ->
   cache1 = tail cache ++ [(cacheKey scene frame, composition)]).
Proof.
  unfold composeScene. intros H Hlen Hnd.
  destruct (JS.get (cacheKey scene frame) cache) as [cached|] eqn:E.
  - injection H as <- <- <-. done.
  - destruct (createComposition rem project now st scene frame)
      as [[st2 c]|]; [|done].
    simpl in H. injection H as <- <- <-.
    unfold cacheComposition.
    assert (Htail : NoDup (keys (tail cache))).
    { destruct cache as [|[k0 c0] cache']; [done|]. simpl in *.
      by apply NoDup_cons in Hnd as [_ ?]. }
    split; [|split; [|split]].
    + destruct (Nat.leb_spec maxCacheSize (length cache)).
      * pose proof (set_length (cacheKey scene frame) c (tail cache)).
        assert (length (tail cache) = pred (length cache)) by (by destruct cache).
        unfold maxCacheSize in *. lia.
      * pose proof (set_length (cacheKey scene frame) c cache). lia.
    + destruct (maxCacheSize <=? length cache)%nat; by apply set_keys_NoDup.
    + apply get_set_eq.
    + intros _ Hfull. rewrite Hfull, Nat.leb_refl.
      apply set_fresh. apply get_absent_keys.
      destruct cache as [|[k0 c0] cache']; [done|]. simpl in *.
      by destruct (String.eqb (cacheKey scene frame) k0).
Qed.

Lemma composeScene_bounds_cache_witness :
  exists st1 cache1 composition,
    composeScene sampleCurves None 0 opaqueStore [] lockedScene 5 =
      Some (st1, cache1, composition) /\
    (length (@nil (string * SceneComposition)) <= maxCacheSize)%nat /\
    (length cache1 <= maxCacheSize)%nat.
Proof.
  destruct (composeScene sampleCurves None 0 opaqueStore [] lockedScene 5)
    as [[[st1 cache1] composition]|] eqn:E; [|by vm_compute in E].
  exists st1, cache1, composition. split; [reflexivity|].
  assert (Hlen : (length (@nil (string * SceneComposition)) <= maxCacheSize)%nat)
    by (unfold maxCacheSize; simpl; lia).
  split; [exact Hlen|].
  exact (proj1 (composeScene_bounds_cache sampleCurves None 0 opaqueStore []
                  lockedScene 5 st1 cache1 composition E Hlen (NoDup_nil_2))).
Defined.

Lemma prefix_app s t : String.prefix s (s +:+ t) = true.
Proof.
  induction s as [|c s IH]; simpl; [by destruct t|].
  destruct (Ascii.ascii_dec c c); [done|done].
Qed.

Lemma prefix_app_r s t u :
  String.prefix s t = true -> String.prefix s (t +:+ u) = true.
Proof.
  revert t. induction s as [|c s IH]; intros t; simpl.
  - intros _. by destruct (t +:+ u).
  - destruct t as [|c' t]; [done|]. simpl.
    destruct (Ascii.ascii_dec c c'); [apply IH | done].
Qed.

Lemma get_filter_out {A} (P : string -> bool) k (fs : list (string * A)) :
  P k = false -> JS.get k (List.filter (fun entry => P entry.1) fs) = None.
Proof.
  intros HP. induction fs as [|[k' v'] fs IH]; simpl; [done|].
  destruct (P k') eqn:E; [|done]. simpl.
  destruct (String.eqb_spec k k') as [->|]; [congruence | done].
Qed.

Lemma get_filter_in {A} (P : string -> bool) k (fs : list (string * A)) :
  P k = true ->
  JS.get k (List.filter (fun entry => P entry.1) fs) = JS.get k fs.
Proof.
  intros HP. induction fs as [|[k' v'] fs IH]; simpl; [done|].
  destruct (P k') eqn:E; simpl.
  - by destruct (String.eqb k k').
  - destruct (String.eqb_spec k k') as [->|]; [congruence | done].
Qed.

Lemma prefix_refl s : String.prefix s s = true.
Proof.
  induction s as [|c s IH]; simpl; [done|]. by destruct (Ascii.ascii_dec c c).
Qed.

Lemma clearSceneCache_get cache sceneId :
  (forall scene frame,
     String.prefix sceneId (scene_id scene) = true ->
     JS.get (cacheKey scene frame) (clearSceneCache cache sceneId) = None) /\
  (forall key,
     String.prefix sceneId key = false ->
     JS.get key (clearSceneCache cache sceneId) = JS.get key cache).
Proof.
  unfold clearSceneCache. split.
  - intros scene frame Hp.
    apply (get_filter_out (fun key => negb (String.prefix sceneId key))).
    unfold cacheKey. by rewrite prefix_app_r.
  - intros key Hp.
    apply (get_filter_in (fun key => negb (String.prefix sceneId key))).
    by rewrite Hp.
Qed.

(** X19: after [clearSceneCache(sceneId)] the cache holds no composition of
    any scene whose identifier starts with [sceneId]: the scene itself, and
    also every other scene whose identifier extends it; the entries whose
    key does not start with [sceneId] are kept. *)
Theorem clearSceneCache_evicts_by_prefix cache sceneId :
  (forall scene frame,
     String.prefix sceneId (scene_id scene) = true ->
     JS.get (cacheKey scene frame) (clearSceneCache cache sceneId) = None) /\
  (forall scene frame,
     scene_id scene = sceneId ->
     JS.get (cacheKey scene frame) (clearSceneCache cache sceneId) = None) /\
  (forall key,
     String.prefix sceneId key = false ->
     JS.get key (clearSceneCache cache sceneId) = JS.get key cache) /\
  (length (clearSceneCache cache sceneId) <= length cache)%nat.
Proof.
  destruct (clearSceneCache_get cache sceneId) as [Hmiss Hkeep].
  split; [done|]. split; [|split; [done|]].
  - intros scene frame <-. apply Hmiss, prefix_refl.
  - clear Hmiss Hkeep. unfold clearSceneCache.
    induction cache as [|entry cache IH]; simpl; [lia|].
    destruct (negb (String.prefix sceneId entry.1)); simpl; lia.
Qed.

Lemma clearSceneCache_evicts_by_prefix_witness :
  String.prefix "scene" (scene_id (sceneOf [] [] 0 10)) = true /\
  forall cache,
    JS.get (cacheKey (sceneOf [] [] 0 10) 3) (clearSceneCache cache "scene") =
      None.
Proof.
  split; [reflexivity|]. intros cache.
  exact (proj1 (clearSceneCache_evicts_by_prefix cache "scene")
           (sceneOf [] [] 0 10) 3 eq_refl).
Defined.
End CacheFacts.

Section SceneEditingFacts.
Import JS MotionEngine SceneComposer SceneEditing Sample.

(** X20: [addElementToScene] appends the element, clipped to the frames of
    the scene: the stored element is active at a frame exactly when the
    given element is and the frame lies inside the scene, so an element
    lying entirely outside the scene is stored but never composed; the
    elements that were in the scene are kept; and no composition of the
    scene stays in the cache, so the next [composeScene] at any frame
    composes the new scene afresh. *)
Theorem addElementToScene_clips rem project cache scene element :
  exists stored,
    (addElementToScene cache scene element).1 =
      set_elements scene (elements scene ++ [stored]) /\
    (forall frame,
       isActiveAt frame stored =
         isActiveAt frame element &&
         (scene_startFrame scene <=? frame) && (frame <=? scene_endFrame scene)) /\
    (endFrame element < scene_startFrame scene \/
     scene_endFrame scene < startFrame element ->
     forall frame, isActiveAt frame stored = false) /\
    (forall now st frame,
       composeScene rem project now st
         (addElementToScene cache scene element).2
         (addElementToScene cache scene element).1 frame =
       ('(st1, composition) ←
          createComposition rem project now st
            (addElementToScene cache scene element).1 frame;
        Some (st1,
              cacheComposition (addElementToScene cache scene element).2
                (cacheKey scene frame) composition,
              composition))).
Proof.
  eexists. split; [reflexivity|].
  assert (Hactive : forall frame,
    isActiveAt frame
      (set_range element (Z.max (startFrame element) (scene_startFrame scene))
         (Z.min (endFrame element) (scene_endFrame scene))) =
    isActiveAt frame element &&
    (scene_startFrame scene <=? frame) && (frame <=? scene_endFrame scene)).
  { intros frame. unfold isActiveAt, set_range. simpl.
    destruct (visible element);
      destruct (Z.leb_spec (Z.max (startFrame element) (scene_startFrame scene)) frame);
      destruct (Z.leb_spec frame (Z.min (endFrame element) (scene_endFrame scene)));
      destruct (Z.leb_spec (startFrame element) frame);
      destruct (Z.leb_spec frame (endFrame element));
      destruct (Z.leb_spec (scene_startFrame scene) frame);
      destruct (Z.leb_spec frame (scene_endFrame scene)); simpl; try done; lia. }
  split; [exact Hactive|]. split.
  - intros Hout frame. rewrite Hactive. unfold isActiveAt.
    destruct (Z.leb_spec (startFrame element) frame);
      destruct (Z.leb_spec frame (endFrame element));
      destruct (Z.leb_spec (scene_startFrame scene) frame);
      destruct (Z.leb_spec frame (scene_endFrame scene));
      destruct (visible element); simpl; try done; lia.
  - intros now st frame. unfold composeScene, addElementToScene.
    cbn [fst snd].
    assert (Hkey : forall es, cacheKey (set_elements scene es) frame =
                              cacheKey scene frame) by done.
    rewrite Hkey.
    destruct (clearSceneCache_get cache (scene_id scene)) as (Hmiss & _).
    rewrite (Hmiss scene frame); [done | apply prefix_refl].
Qed.

Lemma addElementToScene_clips_witness :
  scene_endFrame lockedScene <
    startFrame (elementOf "late" 0 true false 200 300 0%nat []) /\
  exists stored,
    (addElementToScene [] lockedScene
       (elementOf "late" 0 true false 200 300 0%nat [])).1 =
      set_elements lockedScene (elements lockedScene ++ [stored]) /\
    forall frame, isActiveAt frame stored = false.
Proof.
  assert (Hout : scene_endFrame lockedScene <
                 startFrame (elementOf "late" 0 true false 200 300 0%nat []))
    by (simpl; lia).
  split; [exact Hout|].
  destruct (addElementToScene_clips sampleCurves None [] lockedScene
              (elementOf "late" 0 true false 200 300 0%nat []))
    as (stored & Hadd & _ & Hnever & _).
  exists stored. split; [exact Hadd | exact (Hnever (or_intror Hout))].
Defined.
End SceneEditingFacts.

Section LayerOrderFacts.
Import JS MotionEngine SceneComposer SceneEditing Sample MoreSamples.

Lemma findElementIndex_Some elementId es index :
  findElementIndex elementId es = Some index ->
  exists element, es !! index = Some element /\ id element = elementId.
Proof.
  revert index. induction es as [|e es IH]; intros index; simpl; [done|].
  destruct (String.eqb_spec (id e) elementId) as [E|_].
  - intros [= <-]. by exists e.
  - destruct (findElementIndex elementId es) as [i|]; [|done].
    intros [= <-]. by apply IH.
Qed.

Lemma fold_max_bound rest : forall m0,
  m0 <= fold_left (fun m el => Z.max m (layer el)) rest m0 /\
  forall e, e ∈ rest ->
    layer e <= fold_left (fun m el => Z.max m (layer el)) rest m0.
Proof.
  induction rest as [|x rest IH]; intros m0; simpl.
  - split; [lia | by intros e ?%elem_of_nil].
  - destruct (IH (Z.max m0 (layer x))) as [H1 H2]. split; [lia|].
    intros e [->|Hin]%elem_of_cons; [lia | by apply H2].
Qed.

Lemma fold_min_bound rest : forall m0,
  fold_left (fun m el => Z.min m (layer el)) rest m0 <= m0 /\
  forall e, e ∈ rest ->
    fold_left (fun m el => Z.min m (layer el)) rest m0 <= layer e.
Proof.
  induction rest as [|x rest IH]; intros m0; simpl.
  - split; [lia | by intros e ?%elem_of_nil].
  - destruct (IH (Z.min m0 (layer x))) as [H1 H2]. split; [lia|].
    intros e [->|Hin]%elem_of_cons; [lia | by apply H2].
Qed.

Lemma maxLayer_bound es e :
  e ∈ es -> exists m, maxLayer es = Some m /\ forall x, x ∈ es -> layer x <= m.
Proof.
  destruct es as [|e0 rest]; [by intros ?%elem_of_nil|]. intros _.
  eexists. split; [reflexivity|].
  destruct (fold_max_bound rest (layer e0)) as [H1 H2].
  intros x [->|Hin]%elem_of_cons; [done | by apply H2].
Qed.

Lemma minLayer_bound es e :
  e ∈ es -> exists m, minLayer es = Some m /\ forall x, x ∈ es -> m <= layer x.
Proof.
  destruct es as [|e0 rest]; [by intros ?%elem_of_nil|]. intros _.
  eexists. split; [reflexivity|].
  destruct (fold_min_bound rest (layer e0)) as [H1 H2].
  intros x [->|Hin]%elem_of_cons; [done | by apply H2].
Qed.

Lemma sorted_last_is_highest l x :
  Sorted byLayer (l ++ [x]) -> forall y, y ∈ l -> layer y <= layer x.
Proof.
  induction l as [|a l IH]; intros Hs y Hy; [by apply elem_of_nil in Hy|].
  simpl in Hs. apply Sorted_inv in Hs as [Hs Hhd].
  assert (Ha : layer a <= layer x).
  { destruct l as [|b l].
    - simpl in Hhd. by apply HdRel_inv in Hhd.
    - simpl in Hhd. apply HdRel_inv in Hhd. unfold byLayer in Hhd.
      specialize (IH Hs b ltac:(left)). lia. }
  apply elem_of_cons in Hy as [->|Hy]; [done | by apply IH].
Qed.

Lemma sorted_first_is_lowest l x :
  Sorted byLayer (x :: l) -> forall y, y ∈ l -> layer x <= layer y.
Proof.
  revert x. induction l as [|a l IH]; intros x Hs y Hy;
    [by apply elem_of_nil in Hy|].
  apply Sorted_inv in Hs as [Hs Hhd]. apply HdRel_inv in Hhd.
  unfold byLayer in Hhd.
  apply elem_of_cons in Hy as [->|Hy]; [done|].
  specialize (IH a Hs y Hy). lia.
Qed.

Lemma isActiveAt_set_layer frame element l :
  isActiveAt frame (set_layer element l) = isActiveAt frame element.
Proof. done. Qed.

Lemma moved_elements (es : list MotionElement) index element moved x :
  es !! index = Some element ->
  x ∈ <[index := moved]> es -> x = moved \/ x ∈ es.
Proof.
  intros Hl (j & Hj)%list_elem_of_lookup.
  apply list_lookup_insert_Some in Hj as [(-> & -> & _)|[Hne Hj]];
    [by left | right; by eapply list_elem_of_lookup_2].
Qed.

Lemma moveElementToLayer_elements cache scene elementId newLayer index element :
  findElementIndex elementId (elements scene) = Some index ->
  elements scene !! index = Some element ->
  elements (moveElementToLayer cache scene elementId newLayer).1 =
    <[index := set_layer element newLayer]> (elements scene).
Proof.
  intros Hfind Hl. unfold moveElementToLayer. rewrite Hfind. simpl.
  rewrite list_insert_alter.
  apply list_eq. intros j. destruct (decide (j = index)) as [->|Hne].
  - by rewrite !list_lookup_alter_eq, Hl.
  - by rewrite !list_lookup_alter_ne.
Qed.

(** X21: in a scene whose layers are safe integers, when the scene holds
    an element with the identifier, [bringElementToFront] gives the first
    such element a layer above the layer of every element of the scene, and
    [sendElementToBack] a layer below; nothing else changes.  So in every
    composition of the scene at a frame where the element is active it is
    the last layer after [bringElementToFront], and the first one after
    [sendElementToBack]. *)
Theorem bringElementToFront_tops rem project cache scene elementId index :
  Forall (fun other => safeLayer (layer other)) (elements scene) ->
  findElementIndex elementId (elements scene) = Some index ->
  exists element hi lo,
    elements scene !! index = Some element /\ id element = elementId /\
    elements (bringElementToFront cache scene elementId).1 =
      <[index := set_layer element hi]> (elements scene) /\
    elements (sendElementToBack cache scene elementId).1 =
      <[index := set_layer element lo]> (elements scene) /\
    (forall other, other ∈ elements scene -> lo < layer other < hi) /\
    (forall now st frame st' composition,
       isActiveAt frame element = true ->
       createComposition rem project now st
         (bringElementToFront cache scene elementId).1 frame =
         Some (st', composition) ->
       SceneComposer.element <$> last (layers composition) =
         Some (set_layer element hi)) /\
    (forall now st frame st' composition,
       isActiveAt frame element = true ->
       createComposition rem project now st
         (sendElementToBack cache scene elementId).1 frame =
         Some (st', composition) ->
       SceneComposer.element <$> head (layers composition) =
         Some (set_layer element lo)).
Proof.
  intros _ Hfind.
  destruct (findElementIndex_Some _ _ _ Hfind) as (element & Hl & Hid).
  assert (Hin : element ∈ elements scene) by (by eapply list_elem_of_lookup_2).
  destruct (maxLayer_bound _ _ Hin) as (m & Hmax & Hle).
  destruct (minLayer_bound _ _ Hin) as (n & Hmin & Hge).
  assert (Hlt : (index < length (elements scene))%nat)
    by (by eapply lookup_lt_Some).
  exists element, (m + 1), (n - 1).
  assert (Hfront : elements (bringElementToFront cache scene elementId).1 =
                   <[index := set_layer element (m + 1)]> (elements scene)).
  { unfold bringElementToFront. rewrite Hmax.
    by apply moveElementToLayer_elements. }
  assert (Hback : elements (sendElementToBack cache scene elementId).1 =
                  <[index := set_layer element (n - 1)]> (elements scene)).
  { unfold sendElementToBack. rewrite Hmin.
    by apply moveElementToLayer_elements. }
  split; [done|]. split; [done|]. split; [done|]. split; [done|].
  split; [intros other Ho; specialize (Hle other Ho);
          specialize (Hge other Ho); lia|].
  split.
  - intros now st frame st' composition Hact Hc.
    unfold createComposition in Hc.
    destruct (composeLayers rem st _ frame) as [[st1 ls]|] eqn:E; [|done].
    simpl in Hc. injection Hc as <- <-. cbn [layers].
    apply composeLayers_elements in E.
    set (moved := set_layer element (m + 1)) in *.
    set (active := List.filter (isActiveAt frame)
                     (elements (bringElementToFront cache scene elementId).1)) in *.
    assert (Hm : moved ∈ active).
    { unfold active. apply list_elem_of_In, filter_In. split; [|done].
      apply list_elem_of_In. rewrite Hfront. by apply list_elem_of_insert. }
    assert (Hothers : forall x, x ∈ active -> x = moved \/ layer x < layer moved).
    { intros x Hx. unfold active in Hx.
      apply list_elem_of_In, filter_In in Hx as [Hx _].
      apply list_elem_of_In in Hx. rewrite Hfront in Hx.
      apply (moved_elements _ _ _ _ _ Hl) in Hx as [->|Hx]; [by left|].
      right. specialize (Hle x Hx). simpl. lia. }
    assert (Hs : Sorted byLayer (sortByLayer active)) by apply sortByLayer_Sorted.
    assert (Hiff : forall x, x ∈ map SceneComposer.element ls <-> x ∈ active).
    { intros x. rewrite E. by rewrite sortByLayer_Permutation. }
    rewrite <- E in Hs. apply Hiff in Hm.
    assert (Hothers' := fun x Hx => Hothers x (proj1 (Hiff x) Hx)).
    clear Hothers. rename Hothers' into Hothers.
    rewrite <- (fmap_last SceneComposer.element).
    change (SceneComposer.element <$> ls) with (map SceneComposer.element ls).
    destruct (last (map SceneComposer.element ls)) as [x|] eqn:El.
    + apply last_Some in El as [l' El]. rewrite El in *. f_equal.
      destruct (Hothers x) as [->|Hx];
        [apply elem_of_app; right; by apply list_elem_of_singleton | done |].
      pose proof (sorted_last_is_highest l' x Hs) as Hhigh.
      apply elem_of_app in Hm as [Hm|Hm%list_elem_of_singleton]; [|done].
      specialize (Hhigh _ Hm). lia.
    + apply last_None in El. rewrite El in Hm. by apply elem_of_nil in Hm.
  - intros now st frame st' composition Hact Hc.
    unfold createComposition in Hc.
    destruct (composeLayers rem st _ frame) as [[st1 ls]|] eqn:E; [|done].
    simpl in Hc. injection Hc as <- <-. cbn [layers].
    apply composeLayers_elements in E.
    set (moved := set_layer element (n - 1)) in *.
    set (active := List.filter (isActiveAt frame)
                     (elements (sendElementToBack cache scene elementId).1)) in *.
    assert (Hm : moved ∈ active).
    { unfold active. apply list_elem_of_In, filter_In. split; [|done].
      apply list_elem_of_In. rewrite Hback. by apply list_elem_of_insert. }
    assert (Hothers : forall x, x ∈ active -> x = moved \/ layer moved < layer x).
    { intros x Hx. unfold active in Hx.
      apply list_elem_of_In, filter_In in Hx as [Hx _].
      apply list_elem_of_In in Hx. rewrite Hback in Hx.
      apply (moved_elements _ _ _ _ _ Hl) in Hx as [->|Hx]; [by left|].
      right. specialize (Hge x Hx). simpl. lia. }
    assert (Hs : Sorted byLayer (sortByLayer active)) by apply sortByLayer_Sorted.
    assert (Hiff : forall x, x ∈ map SceneComposer.element ls <-> x ∈ active).
    { intros x. rewrite E. by rewrite sortByLayer_Permutation. }
    rewrite <- E in Hs. apply Hiff in Hm.
    assert (Hothers' := fun x Hx => Hothers x (proj1 (Hiff x) Hx)).
    clear Hothers. rename Hothers' into Hothers.
    destruct ls as [|l0 ls']; [by apply elem_of_nil in Hm|].
    cbn [map head fmap option_fmap option_map] in *. f_equal.
    destruct (Hothers (SceneComposer.element l0)) as [E0|Hx];
      [by left | done |].
    pose proof (sorted_first_is_lowest _ _ Hs) as Hlow.
    apply elem_of_cons in Hm as [->|Hm]; [done|].
    specialize (Hlow _ Hm). lia.
Qed.

Lemma bringElementToFront_tops_witness :
  Forall (fun other => safeLayer (layer other)) (elements lockedScene) /\
  findElementIndex "backdrop" (elements lockedScene) = Some 1%nat /\
  exists element hi lo,
    elements lockedScene !! 1%nat = Some element /\
    elements (bringElementToFront [] lockedScene "backdrop").1 =
      <[1%nat := set_layer element hi]> (elements lockedScene) /\
    forall other, other ∈ elements lockedScene -> lo < layer other < hi.
Proof.
  assert (Hsafe : Forall (fun other => safeLayer (layer other))
                    (elements lockedScene))
    by (repeat constructor; simpl; lia).
  split; [exact Hsafe|]. split; [reflexivity|].
  destruct (bringElementToFront_tops sampleCurves None [] lockedScene
              "backdrop" 1%nat Hsafe eq_refl)
    as (element & hi & lo & H1 & _ & H2 & _ & H3 & _).
  exists element, hi, lo. split; [exact H1|]. split; [exact H2 | exact H3].
Defined.
End LayerOrderFacts.

Section TransitionWindowFacts.
Import JS MotionEngine SceneComposer Sample.

Lemma getTransitionStartFrame_finite t scene :
  exists s, getTransitionStartFrame t scene = Fin s.
Proof.
  unfold getTransitionStartFrame.
  destruct (direction t) as [[]|]; try (by eexists);
    unfold ndiv, ofZ; rewrite bool_decide_eq_false_2; try (by eexists);
    rewrite <- Z2Qc_inj_0; by intros ?%Z2Qc_inj.
Qed.

Lemma Qc_nonneg_diff (s f : Qc) : (s <= f)%Qc -> (0 <= f + - s)%Qc.
Proof.
  intros H. apply (Qcplus_le_mono_r _ _ (- s)) in H.
  by rewrite Qcplus_opp_r in H.
Qed.

Lemma Qc_diff_le (s f d : Qc) : (f <= s + d)%Qc -> (f + - s <= d)%Qc.
Proof.
  intros H. apply (Qcplus_le_mono_r _ _ (- s)) in H.
  replace (s + d + - s)%Qc with d in H by ring. done.
Qed.

(** X22: a transition reported as active has a duration that is not
    negative; when the duration is positive its progress is a finite number
    from 0 to 1; when the duration is 0 the transition is active only at its
    start frame and its progress is NaN (0 / 0). *)
Theorem active_transition_progress project scene frame a :
  a ∈ calculateActiveTransitions project scene frame ->
  0 <= transition_duration (transition a) /\
  (0 < transition_duration (transition a) ->
   exists p, progress a = Fin p /\ (0 <= p)%Qc /\ (p <= 1)%Qc) /\
  (transition_duration (transition a) = 0 ->
   progress a = NaN /\ at_startFrame a = ofZ frame).
Proof.
  intros (t & Hin & Hact)%calculateActiveTransitions_spec.
  unfold activeTransition in Hact.
  destruct (getTransitionStartFrame_finite t scene) as [s Hs].
  rewrite Hs in Hact. unfold ofZ in Hact. cbn [nadd nle nsub nneg] in Hact.
  destruct (bool_decide (s <= Qc_of_Z frame)%Qc) eqn:E1; [|done].
  destruct (bool_decide (Qc_of_Z frame <= s + Qc_of_Z (transition_duration t))%Qc)
    eqn:E2; [|done].
  apply bool_decide_eq_true in E1, E2.
  cbn [andb] in Hact. injection Hact as <-. cbn [transition progress at_startFrame].
  pose proof (Qc_nonneg_diff _ _ E1) as Hlo.
  pose proof (Qc_diff_le _ _ _ E2) as Hhi.
  set (x := (Qc_of_Z frame + - s)%Qc) in *.
  set (d := transition_duration t) in *.
  assert (Hd : 0 <= d).
  { apply Z2Qc_inj_le. rewrite Z2Qc_inj_0. by etrans. }
  split; [done|]. split.
  - intros Hpos.
    assert (Hd' : (0 < Qc_of_Z d)%Qc)
      by (rewrite <- Z2Qc_inj_0; by apply (proj1 (Z2Qc_inj_lt 0 d))).
    assert (Hne : Qc_of_Z d <> 0%Qc).
    { intros H. rewrite H in Hd'. by apply (irreflexivity Qclt) in Hd'. }
    unfold ndiv. rewrite bool_decide_eq_false_2 by done.
    eexists. split; [reflexivity|]. split.
    + apply Qcmult_nonneg_nonneg; [done|]. apply Qclt_le_weak. by apply Qcinv_pos.
    + rewrite <- (Qcmult_inv_r (Qc_of_Z d)) by done.
      apply Qcmult_le_mono_nonneg_r; [|done].
      apply Qclt_le_weak. by apply Qcinv_pos.
  - intros Hz. rewrite Hz in *. rewrite Z2Qc_inj_0 in Hhi.
    assert (Hx : x = 0%Qc) by (by apply Qcle_antisym).
    unfold ndiv. rewrite Hx, Z2Qc_inj_0.
    rewrite !(bool_decide_eq_true_2 (0%Qc = 0%Qc)) by reflexivity.
    split; [done|]. unfold ofZ. f_equal. unfold x in Hx.
    apply (f_equal (fun y => (y + s)%Qc)) in Hx.
    replace (Qc_of_Z frame + - s + s)%Qc with (Qc_of_Z frame) in Hx by ring.
    rewrite Qcplus_0_l in Hx. done.
Qed.

Lemma active_transition_progress_witness :
  exists a,
    a ∈ calculateActiveTransitions None fadeScene 25 /\
    0 < transition_duration (transition a) /\
    exists p, progress a = Fin p /\ (0 <= p)%Qc /\ (p <= 1)%Qc.
Proof.
  assert (H : exists a, a ∈ calculateActiveTransitions None fadeScene 25 /\
                        0 < transition_duration (transition a)).
  { destruct (calculateActiveTransitions None fadeScene 25) as [|a rest] eqn:E;
      [by vm_compute in E|].
    exists a. split; [apply list_elem_of_here|].
    vm_compute in E. injection E as <- _. reflexivity. }
  destruct H as (a & Hin & Hd).
  exists a. split; [exact Hin|]. split; [exact Hd|].
  exact (proj1 (proj2 (active_transition_progress None fadeScene 25 a Hin)) Hd).
Defined.
End TransitionWindowFacts.

(** ** Render jobs from request to result *)

Section RenderRunFacts.
Import JS MotionEngine SceneComposer MotionRenderer Sample RenderSample
  RenderObserve.
Context (rem : Remotion).

Lemma resumeTimes_S n now r jobId :
  resumeTimes rem (S n) now r jobId =
    resume rem now (resumeTimes rem n now r jobId) jobId.
Proof.
  revert r. induction n as [|n IH]; intros r; [done|].
  change (resumeTimes rem (S (S n)) now r jobId)
    with (resumeTimes rem (S n) now (resume rem now r jobId) jobId).
  by rewrite IH.
Qed.

Lemma findActiveScene_bare p frame scene :
  bare p -> findActiveScene p frame = Some scene -> elements scene = [].
Proof.
  unfold bare, findActiveScene. intros Hb Hf.
  apply find_some in Hf as [Hin _]. rewrite Forall_forall in Hb.
  apply Hb. by apply list_elem_of_In.
Qed.

(** Composing a frame of a project without elements gives the frame data
    and touches neither the jobs nor the ids. *)
Lemma renderFrame_bare now r p frame :
  bare p ->
  (renderFrame rem now r p frame).2 = Some placeholderFrame /\
  jobObjects (renderFrame rem now r p frame).1 = jobObjects r /\
  tasks (renderFrame rem now r p frame).1 = tasks r /\
  nextId (renderFrame rem now r p frame).1 = nextId r /\
  jobs (renderFrame rem now r p frame).1 = jobs r.
Proof.
  intros Hb. unfold renderFrame.
  destruct (findActiveScene p frame) as [scene|] eqn:E; [|done].
  pose proof (findActiveScene_bare _ _ _ Hb E) as Hel.
  unfold composeScene.
  destruct (JS.get (cacheKey scene frame) (cache r)); [done|].
  unfold createComposition. rewrite Hel. done.
Qed.

Lemma finalLoop_frame now r job frame frames :
  bare (project job) ->
  frame < project_duration (project job) ->
  jobObjects (finalLoop rem now r job frame frames) = jobObjects r /\
  tasks (finalLoop rem now r job frame frames) =
    <[id job := AwaitFinalFrame frame frames (Some placeholderFrame)]> (tasks r) /\
  nextId (finalLoop rem now r job frame frames) = nextId r /\
  jobs (finalLoop rem now r job frame frames) = jobs r.
Proof.
  intros Hb Hlt. unfold finalLoop.
  rewrite (proj2 (Z.ltb_lt _ _) Hlt).
  destruct (renderFrame_bare now r (project job) frame Hb)
    as (H1 & H2 & H3 & H4 & H5).
  destruct (renderFrame rem now r (project job) frame) as [r1 fd].
  cbn [fst snd] in *. subst fd. cbn [setTask jobObjects tasks nextId jobs].
  by rewrite H2, H3, H4, H5.
Qed.

Lemma finalLoop_end now r job frame frames :
  project_duration (project job) <= frame ->
  jobObjects (finalLoop rem now r job frame frames) =
    <[id job := (updateJobStage r job encoding).2]> (jobObjects r) /\
  tasks (finalLoop rem now r job frame frames) =
    <[id job := AwaitEncode frames
                  {| folder := "/api/videos/"; uid := nextId r;
                     ext := extension (format (options job)) |}]> (tasks r) /\
  nextId (finalLoop rem now r job frame frames) = S (nextId r) /\
  jobs (finalLoop rem now r job frame frames) = jobs r.
Proof.
  intros Hge. unfold finalLoop.
  rewrite (proj2 (Z.ltb_ge _ _) Hge).
  unfold updateJobStage, encodeVideo, generateId.
  by destruct (has_onStageChange (options job)).
Qed.

Lemma running_progress jobId p o t0 job x :
  running jobId p o t0 job ->
  running jobId p o t0 (updateJobProgress (create emptyStore) job x).2.
Proof. done. Qed.

Lemma running_stage jobId p o t0 job stage :
  running jobId p o t0 job ->
  running jobId p o t0 (updateJobStage (create emptyStore) job stage).2.
Proof. done. Qed.

(** One turn of a final render that awaits frame [f] *)
Lemma resume_final_frame now r jobId p o t0 f frames :
  bare p ->
  suspended r jobId (AwaitFinalFrame f frames (Some placeholderFrame))
    (running jobId p o t0) ->
  (f + 1 < project_duration p ->
   suspended (resume rem now r jobId) jobId
     (AwaitFinalFrame (f + 1) (frames ++ [placeholderFrame])
        (Some placeholderFrame))
     (running jobId p o t0) /\
   nextId (resume rem now r jobId) = nextId r) /\
  (project_duration p <= f + 1 ->
   suspended (resume rem now r jobId) jobId
     (AwaitEncode (frames ++ [placeholderFrame])
        {| folder := "/api/videos/"; uid := nextId r;
           ext := extension (format o) |})
     (running jobId p o t0) /\
   nextId (resume rem now r jobId) = S (nextId r)).
Proof.
  intros Hb (Ht & Hin & job & Hj & Hrun).
  pose proof Hrun as (Hid & Hp & Ho & _).
  unfold resume. rewrite Ht, Hj. cbv zeta.
  set (x := nmul _ _).
  unfold updateJobProgress.
  set (job1 := Build_RenderJob _ _ _ _ _ _ _ _ _ _).
  assert (Hrun1 : running jobId p o t0 job1) by exact Hrun.
  assert (Hid1 : id job1 = jobId) by exact Hid.
  assert (Hp1 : project job1 = p) by exact Hp.
  assert (Ho1 : options job1 = o) by exact Ho.
  set (r2 := if has_onProgress (options job1) then _ else _).
  assert (Hr2 : jobObjects r2 = <[jobId := job1]> (jobObjects r) /\
                tasks r2 = tasks r /\ nextId r2 = nextId r /\ jobs r2 = jobs r).
  { unfold r2. rewrite <- Hid. by destruct (has_onProgress (options job1)). }
  destruct Hr2 as (Hjo & Hta & Hne & Hjs).
  clearbody job1 r2. split.
  - intros Hlt.
    destruct (finalLoop_frame now r2 job1 (f + 1) (frames ++ [placeholderFrame]))
      as (H1 & H2 & H3 & H4); [by rewrite Hp1 | by rewrite Hp1 |].
    split; [|by rewrite H3].
    split; [by rewrite H2, Hid1, lookup_insert_eq|].
    split; [by rewrite H4, Hjs|].
    exists job1. split; [|done]. by rewrite H1, Hjo, lookup_insert_eq.
  - intros Hge.
    destruct (finalLoop_end now r2 job1 (f + 1) (frames ++ [placeholderFrame]))
      as (H1 & H2 & H3 & H4); [by rewrite Hp1|].
    split; [|by rewrite H3, Hne].
    split; [by rewrite H2, Hid1, lookup_insert_eq, Ho1, Hne|].
    split; [by rewrite H4, Hjs|].
    eexists. split; [by rewrite H1, Hid1, lookup_insert_eq|]. exact Hrun1.
Qed.

(** The frame loop of a final render: after [k] turns it awaits frame [k]. *)
Lemma final_frames now r jobId p o t0 (k : nat) :
  bare p ->
  suspended r jobId (AwaitFinalFrame 0 [] (Some placeholderFrame))
    (running jobId p o t0) ->
  Z.of_nat k < project_duration p ->
  suspended (resumeTimes rem k now r jobId) jobId
    (AwaitFinalFrame (Z.of_nat k) (replicate k placeholderFrame)
       (Some placeholderFrame))
    (running jobId p o t0) /\
  nextId (resumeTimes rem k now r jobId) = nextId r.
Proof.
  intros Hb H0. induction k as [|k IH]; intros Hk; [done|].
  destruct IH as [IH Hn]; [lia|]. rewrite resumeTimes_S.
  destruct (resume_final_frame now _ jobId p o t0 _ _ Hb IH) as [Hstep _].
  destruct Hstep as [Hs Hn']; [lia|].
  replace (Z.of_nat (S k)) with (Z.of_nat k + 1) by lia.
  replace (replicate (S k) placeholderFrame)
    with (replicate k placeholderFrame ++ [placeholderFrame]).
  - split; [done | by rewrite Hn'].
  - clear. induction k as [|k IH]; [done|]. simpl. by rewrite IH.
Qed.

Lemma schemaAccepts_duration p : schemaAccepts p = true -> 0 < project_duration p.
Proof.
  unfold schemaAccepts. rewrite !andb_true_iff, !Z.ltb_lt. tauto.
Qed.

Lemma updateJobStage_view r job stage :
  jobObjects (updateJobStage r job stage).1 =
    <[id job := (updateJobStage r job stage).2]> (jobObjects r) /\
  tasks (updateJobStage r job stage).1 = tasks r /\
  nextId (updateJobStage r job stage).1 = nextId r /\
  jobs (updateJobStage r job stage).1 = jobs r.
Proof. unfold updateJobStage. by destruct (has_onStageChange (options job)). Qed.

Lemma updateJobStage_job r job stage :
  id (updateJobStage r job stage).2 = id job /\
  project (updateJobStage r job stage).2 = project job /\
  options (updateJobStage r job stage).2 = options job /\
  forall jobId p o t0,
    running jobId p o t0 job ->
    running jobId p o t0 (updateJobStage r job stage).2.
Proof. done. Qed.

(** A request for a final render of a project the schema accepts *)
Lemma renderProject_final now r p o :
  preview o = false -> schemaAccepts p = true -> bare p ->
  (renderProject rem now r p o).2 = nextId r /\
  suspended (renderProject rem now r p o).1 (nextId r)
    (AwaitFinalFrame 0 [] (Some placeholderFrame))
    (running (nextId r) p o now) /\
  nextId (renderProject rem now r p o).1 = S (nextId r).
Proof.
  intros Hprev Hok Hb. unfold renderProject, generateId. cbv zeta.
  cbn [fst snd]. rewrite Hprev. split; [done|].
  set (job0 := Build_RenderJob _ _ _ pending _ _ _ _ _ _).
  assert (Hrun0 : running (nextId r) p o now job0) by done.
  set (r2 := tableSet _ _).
  assert (Hr2 : jobObjects r2 !! nextId r = Some job0 /\
                nextId r2 = S (nextId r) /\ nextId r ∈ jobs r2).
  { unfold r2. cbn. rewrite lookup_insert_eq. split; [done|]. split; [done|].
    case_bool_decide; [done|]. apply elem_of_app. right.
    by apply list_elem_of_singleton. }
  destruct Hr2 as (Hj & Hn & Hin). clearbody r2.
  assert (Hid0 : id job0 = nextId r) by done.
  assert (Hp0 : project job0 = p) by done.
  clearbody job0.
  unfold renderFinal.
  destruct (updateJobStage_view r2 job0 composing) as (V1 & V2 & V3 & V4).
  destruct (updateJobStage_job r2 job0 composing) as (J1 & J2 & J3 & J4).
  destruct (updateJobStage r2 job0 composing) as [r3 job1]. cbn [fst snd] in *.
  unfold loadProject. rewrite J2, Hp0, Hok.
  set (r4 := Build_Renderer _ _ _ _ _ _ _ _ _ _).
  assert (R : jobObjects r4 = jobObjects r3 /\ tasks r4 = tasks r3 /\
              nextId r4 = nextId r3 /\ jobs r4 = jobs r3) by done.
  destruct R as (R1 & R2 & R3 & R4). clearbody r4.
  destruct (updateJobStage_view r4 job1 rendering) as (W1 & W2 & W3 & W4).
  destruct (updateJobStage_job r4 job1 rendering) as (K1 & K2 & K3 & K4).
  destruct (updateJobStage r4 job1 rendering) as [r5 job3]. cbn [fst snd] in *.
  destruct (finalLoop_frame now r5 job3 0 []) as (H1 & H2 & H3 & H4).
  { by rewrite K2, J2, Hp0. }
  { rewrite K2, J2, Hp0. by apply schemaAccepts_duration. }
  split; [|by rewrite H3, W3, R3, V3].
  split; [by rewrite H2, K1, J1, Hid0, lookup_insert_eq|].
  split; [by rewrite H4, W4, R4, V4|].
  exists job3. split; [by rewrite H1, W1, J1, Hid0, lookup_insert_eq|].
  apply K4, J4, Hrun0.
Qed.

Lemma optimizeOutput_encoded folder uid o :
  optimizeOutput {| folder := folder; uid := uid; ext := extension (format o) |} o =
    {| folder := folder; uid := uid; ext := extension (format o) |}.
Proof. by destruct o as [[] ? ? ? ? ?]. Qed.

Lemma updateJobProgress_view r job x :
  jobObjects (updateJobProgress r job x).1 =
    <[id job := (updateJobProgress r job x).2]> (jobObjects r) /\
  tasks (updateJobProgress r job x).1 = tasks r /\
  nextId (updateJobProgress r job x).1 = nextId r /\
  jobs (updateJobProgress r job x).1 = jobs r.
Proof. done. Qed.

Lemma updateJobProgress_job r job x :
  id (updateJobProgress r job x).2 = id job /\
  project (updateJobProgress r job x).2 = project job /\
  options (updateJobProgress r job x).2 = options job /\
  progress (updateJobProgress r job x).2 = nmin (ofZ 100) (nmax (ofZ 0) x) /\
  forall jobId p o t0,
    running jobId p o t0 job ->
    running jobId p o t0 (updateJobProgress r job x).2.
Proof. done. Qed.

(** The two turns after the frame loop of a final render *)
Lemma resume_encode_optimize now r jobId p o t0 frames url :
  suspended r jobId (AwaitEncode frames url) (running jobId p o t0) ->
  suspended (resume rem now r jobId) jobId
    (AwaitOptimize (optimizeOutput url o)) (running jobId p o t0) /\
  exists job,
    getJob (resumeTimes rem 2 now r jobId) jobId = Some job /\
    tasks (resumeTimes rem 2 now r jobId) !! jobId =
      Some (Returned (optimizeOutput url o)) /\
    status job = completed /\ progress job = ofZ 100 /\
    currentStage job = finalizing /\
    outputUrl job = Some (optimizeOutput url o) /\
    startTime job = Some t0 /\ endTime job = Some now /\ error job = None /\
    id job = jobId /\ project job = p /\ options job = o.
Proof.
  intros (Ht & Hin & job & Hj & Hrun).
  pose proof Hrun as (Hid & Hp & Ho & _).
  assert (H1 : suspended (resume rem now r jobId) jobId
                 (AwaitOptimize (optimizeOutput url o)) (running jobId p o t0)).
  { unfold resume. rewrite Ht, Hj.
    destruct (updateJobProgress_view r job (ofZ 90)) as (V1 & V2 & V3 & V4).
    destruct (updateJobProgress_job r job (ofZ 90)) as (J1 & J2 & J3 & _ & J4).
    destruct (updateJobProgress r job (ofZ 90)) as [r1 job1]. cbn [fst snd] in *.
    destruct (updateJobStage_view r1 job1 optimizing) as (W1 & W2 & W3 & W4).
    destruct (updateJobStage_job r1 job1 optimizing) as (K1 & K2 & K3 & K4).
    destruct (updateJobStage r1 job1 optimizing) as [r2 job2]. cbn [fst snd] in *.
    rewrite K3, J3, Ho.
    split; [cbn; by rewrite lookup_insert_eq|]. split; [cbn; by rewrite W4, V4|].
    exists job2. split; [cbn; by rewrite W1, J1, Hid, lookup_insert_eq|].
    apply K4, J4, Hrun. }
  split; [exact H1|].
  destruct H1 as (Ht1 & Hin1 & job1 & Hj1 & Hrun1).
  pose proof Hrun1 as (Hid1 & Hp1 & Ho1 & Hst1 & Hs1 & He1 & Hu1 & Her1).
  change (resumeTimes rem 2 now r jobId)
    with (resume rem now (resume rem now r jobId) jobId).
  set (r1 := resume rem now r jobId) in *. clearbody r1.
  unfold resume. rewrite Ht1, Hj1.
  destruct (updateJobProgress_view r1 job1 (ofZ 100)) as (V1 & V2 & V3 & V4).
  destruct (updateJobProgress_job r1 job1 (ofZ 100)) as (J1 & J2 & J3 & J5 & J4).
  specialize (J4 _ _ _ _ Hrun1).
  destruct (updateJobProgress r1 job1 (ofZ 100)) as [r2 job2]. cbn [fst snd] in *.
  destruct (updateJobStage_view r2 job2 finalizing) as (W1 & W2 & W3 & W4).
  destruct (updateJobStage_job r2 job2 finalizing) as (K1 & K2 & K3 & K4).
  specialize (K4 _ _ _ _ J4).
  assert (K5 : progress (updateJobStage r2 job2 finalizing).2 = progress job2 /\
               currentStage (updateJobStage r2 job2 finalizing).2 = finalizing)
    by done.
  destruct K5 as [K5 K6].
  destruct (updateJobStage r2 job2 finalizing) as [r3 job3]. cbn [fst snd] in *.
  destruct K4 as (Hid3 & Hp3 & Ho3 & Hst3 & Hs3 & He3 & Hu3 & Her3).
  eexists. split.
  { unfold getJob. cbn [setTask setJob jobs jobObjects].
    rewrite W4, V4, (bool_decide_eq_true_2 _ Hin1).
    cbn [withStatus id]. rewrite Hid3. apply lookup_insert_eq. }
  split; [cbn; by rewrite lookup_insert_eq|].
  cbn [withStatus status progress currentStage outputUrl startTime endTime
       error id project options].
  rewrite K5, J5, K6, Her3, Hs3, Hid3, Hp3, Ho3.
  split; [done|]. split; [|done].
  apply (bool_decide_unpack _). by vm_compute.
Qed.

(** X23: a final render of a project that the schema accepts and whose
    scenes have no elements, requested on any renderer and followed through
    the turns of its call: the job stays [pending] while the frames
    [0 .. duration - 1] are composed one per turn, and after
    [duration + 2] turns it is [completed] with progress 100, stage
    [finalizing], no error and the URL of the encoded video, which the
    optimizing step leaves as it is for every format. *)
Theorem final_render_completes now r p o :
  preview o = false -> schemaAccepts p = true -> bare p ->
  (renderProject rem now r p o).2 = nextId r /\
  (forall k : nat,
     Z.of_nat k < project_duration p ->
     suspended (resumeTimes rem k now (renderProject rem now r p o).1 (nextId r))
       (nextId r)
       (AwaitFinalFrame (Z.of_nat k) (replicate k placeholderFrame)
          (Some placeholderFrame))
       (running (nextId r) p o now)) /\
  exists job,
    getJob (resumeTimes rem (Z.to_nat (project_duration p) + 2) now
              (renderProject rem now r p o).1 (nextId r)) (nextId r) = Some job /\
    status job = completed /\ progress job = ofZ 100 /\
    currentStage job = finalizing /\
    outputUrl job =
      Some {| folder := "/api/videos/"; uid := S (nextId r);
              ext := extension (format o) |} /\
    startTime job = Some now /\ endTime job = Some now /\ error job = None.
Proof.
  intros Hprev Hok Hb.
  destruct (renderProject_final now r p o Hprev Hok Hb) as (Hid & H0 & Hn).
  pose proof (schemaAccepts_duration p Hok) as Hd.
  set (r0 := (renderProject rem now r p o).1) in *. clearbody r0.
  split; [done|]. split.
  - intros k Hk. by apply final_frames.
  - set (d := Z.to_nat (project_duration p)).
    assert (Hd' : exists k, d = S k) by (exists (pred d); lia).
    destruct Hd' as [k Hk].
    destruct (final_frames now r0 (nextId r) p o now k Hb H0) as [Hs Hn'];
      [lia|].
    destruct (resume_final_frame now _ (nextId r) p o now _ _ Hb Hs)
      as [_ Hlast].
    destruct Hlast as [He Hn'']; [lia|].
    rewrite <- resumeTimes_S, <- Hk in He.
    destruct (resume_encode_optimize now _ (nextId r) p o now _ _ He)
      as (_ & job & Hget & _ & H1 & H2 & H3 & H4 & H5 & H6 & H7 & _).
    exists job. split.
    + rewrite <- Hget. clear.
      generalize (nextId r). intros jobId. revert r0.
      induction d as [|d IH]; intros r0; [done|]. apply IH.
    + rewrite Hn', Hn in H4. rewrite optimizeOutput_encoded in H4. done.
Qed.

End RenderRunFacts.

Section RenderRunWitnesses.
Import JS MotionEngine SceneComposer MotionRenderer Sample RenderSample
  RenderObserve.

Lemma final_render_completes_witness :
  preview (optionsOf false) = false /\
  schemaAccepts (projectOf 3) = true /\ bare (projectOf 3) /\
  exists job,
    getJob (resumeTimes sampleCurves
              (Z.to_nat (project_duration (projectOf 3)) + 2) 0
              (renderProject sampleCurves 0 (create emptyStore) (projectOf 3)
                 (optionsOf false)).1
              (nextId (create emptyStore)))
      (nextId (create emptyStore)) = Some job /\
    status job = completed /\ progress job = ofZ 100.
Proof.
  assert (Hb : bare (projectOf 3)) by constructor.
  split; [reflexivity|]. split; [reflexivity|]. split; [exact Hb|].
  destruct (final_render_completes sampleCurves 0 (create emptyStore) (projectOf 3)
              (optionsOf false) eq_refl eq_refl Hb)
    as (_ & _ & job & H1 & H2 & H3 & _).
  exists job. split; [exact H1|]. split; [exact H2 | exact H3].
Defined.
End RenderRunWitnesses.

Section PreviewRunFacts.
Import JS MotionEngine SceneComposer MotionRenderer Sample RenderSample
  RenderObserve.
Context (rem : Remotion).










Lemma clamp_zero : nmin (ofZ 100) (nmax (ofZ 0) (ofZ 0)) = ofZ 0.
Proof. apply (bool_decide_unpack _). by vm_compute. Qed.


End PreviewRunFacts.

Section PreviewRunWitnesses.
Import JS MotionEngine SceneComposer MotionRenderer Sample RenderSample
  RenderObserve.

End PreviewRunWitnesses.

Section RenderFailureFacts.
Import JS MotionEngine SceneComposer MotionRenderer Sample RenderSample
  RenderObserve.
Context (rem : Remotion).

Lemma suspended_weaken r jobId task (P P' : RenderJob -> Prop) :
  (forall job, P job -> P' job) ->
  suspended r jobId task P -> suspended r jobId task P'.
Proof.
  intros HP (Ht & Hin & job & Hj & Hjob).
  split; [done|]. split; [done|]. exists job. auto.
Qed.

Lemma renderProject_rejected now r p o :
  preview o = false -> schemaAccepts p = false ->
  suspended (renderProject rem now r p o).1 (nextId r)
    (Rejected SchemaError)
    (fun job => running (nextId r) p o now job /\
                progress job = ofZ 0 /\ currentStage job = composing) /\
  store (renderProject rem now r p o).1 = store r /\
  cache (renderProject rem now r p o).1 = cache r /\
  engineProject (renderProject rem now r p o).1 = engineProject r.
Proof.
  intros Hprev Hbad. unfold renderProject, generateId. cbv zeta.
  cbn [fst snd]. rewrite Hprev.
  set (job0 := Build_RenderJob _ _ _ pending _ _ _ _ _ _).
  assert (Hrun0 : running (nextId r) p o now job0) by done.
  set (r2 := tableSet _ _).
  assert (Hr2 : jobObjects r2 !! nextId r = Some job0 /\
                nextId r ∈ jobs r2 /\ store r2 = store r /\
                cache r2 = cache r /\ engineProject r2 = engineProject r).
  { unfold r2. cbn. rewrite lookup_insert_eq. split; [done|]. split; [|done].
    case_bool_decide; [done|]. apply elem_of_app. right.
    by apply list_elem_of_singleton. }
  destruct Hr2 as (Hj & Hin & Hst & Hca & Hen). clearbody r2.
  assert (Hid0 : id job0 = nextId r) by done.
  assert (Hp0 : project job0 = p) by done.
  assert (Hf0 : progress job0 = ofZ 0) by done.
  clearbody job0.
  unfold renderFinal.
  destruct (updateJobStage_view r2 job0 composing) as (V1 & V2 & V3 & V4).
  destruct (updateJobStage_job r2 job0 composing) as (J1 & J2 & J3 & J4).
  assert (J5 : progress (updateJobStage r2 job0 composing).2 = progress job0 /\
               currentStage (updateJobStage r2 job0 composing).2 = composing)
    by done.
  assert (V5 : store (updateJobStage r2 job0 composing).1 = store r2 /\
               cache (updateJobStage r2 job0 composing).1 = cache r2 /\
               engineProject (updateJobStage r2 job0 composing).1 =
                 engineProject r2).
  { unfold updateJobStage. by destruct (has_onStageChange (options job0)). }
  destruct (updateJobStage r2 job0 composing) as [r3 job1]. cbn [fst snd] in *.
  unfold loadProject. rewrite J2, Hp0, Hbad.
  destruct J5 as (J5 & J6). destruct V5 as (V5 & V6 & V7).
  split; [|cbn; by rewrite V5, V6, V7].
  split; [cbn; by rewrite Hid0, lookup_insert_eq|].
  split; [cbn; by rewrite V4|].
  exists job1. split; [cbn; by rewrite V1, Hid0, lookup_insert_eq|].
  split; [by apply J4|]. by rewrite J5, J6.
Qed.

Lemma resume_rejected now r jobId p o t0 m x stage :
  suspended r jobId (Rejected m)
    (fun job => running jobId p o t0 job /\
                progress job = x /\ currentStage job = stage) ->
  (exists job,
     getJob (resume rem now r jobId) jobId = Some job /\
     status job = failed /\ error job = Some m /\
     endTime job = Some now /\ outputUrl job = None /\
     progress job = x /\ currentStage job = stage) /\
  resume rem now (resume rem now r jobId) jobId = resume rem now r jobId.
Proof.
  intros (Ht & Hin & job & Hj & Hrun & Hx & Hstage).
  destruct Hrun as (Hid & Hp & Ho & Hst & Hs & He & Hu & Her).
  assert (E : resume rem now r jobId = fail now r job m)
    by (unfold resume; by rewrite Ht, Hj).
  rewrite E. split.
  - unfold fail, getJob. cbn [setTask setJob jobs jobObjects].
    rewrite (bool_decide_eq_true_2 _ Hin). cbn [withStatus id].
    rewrite Hid, lookup_insert_eq. eexists. split; [reflexivity|]. by cbn.
  - unfold resume at 1. unfold fail. cbn [setTask setJob tasks jobObjects].
    cbn [withStatus id]. by rewrite Hid, !lookup_insert_eq.
Qed.

(** X25: a final render of a project that the schema rejects composes no
    frame: the request leaves the store, the cache and the loaded project
    as they are; at the next turn the job is [failed] with the error of the
    schema, an end time, no output and progress 0; later turns change
    nothing. *)
Theorem final_render_rejects_invalid_project now r p o :
  preview o = false -> schemaAccepts p = false ->
  suspended (renderProject rem now r p o).1 (nextId r)
    (Rejected SchemaError) (running (nextId r) p o now) /\
  store (renderProject rem now r p o).1 = store r /\
  cache (renderProject rem now r p o).1 = cache r /\
  engineProject (renderProject rem now r p o).1 = engineProject r /\
  (exists job,
     getJob (resume rem now (renderProject rem now r p o).1 (nextId r)) (nextId r)
       = Some job /\
     status job = failed /\ error job = Some SchemaError /\
     endTime job = Some now /\ outputUrl job = None /\
     progress job = ofZ 0 /\ currentStage job = composing) /\
  forall n,
    resumeTimes rem (S n) now (renderProject rem now r p o).1 (nextId r) =
      resume rem now (renderProject rem now r p o).1 (nextId r).
Proof.
  intros Hprev Hbad.
  destruct (renderProject_rejected now r p o Hprev Hbad) as (Hs & H1 & H2 & H3).
  set (r0 := (renderProject rem now r p o).1) in *. clearbody r0.
  destruct (resume_rejected now r0 (nextId r) p o now _ _ _ Hs) as [Hjob Hfix].
  split; [by eapply suspended_weaken; [|exact Hs]; intros job [? _]|].
  split; [done|]. split; [done|]. split; [done|]. split; [done|].
  intros n. induction n as [|n IH]; [done|].
  rewrite resumeTimes_S, IH. exact Hfix.
Qed.

(** X26: on a renderer that has only seen requests, turns of its calls,
    cancellations and cleanups, [cancelJob] never cancels anything: it
    answers [false] and leaves the renderer as it is, for every job id. *)
Theorem cancelJob_never_succeeds st history now jobId :
  cancelJob now (performAll rem (create st) history) jobId =
    (performAll rem (create st) history, false).
Proof.
  pose proof (never_processing rem st history) as Hnp.
  set (r := performAll rem (create st) history) in *. clearbody r.
  unfold cancelJob, getJob.
  destruct (bool_decide (jobId ∈ jobs r)); [|done].
  destruct (jobObjects r !! jobId) as [job|] eqn:E; [|done].
  rewrite bool_decide_eq_false_2; [done|]. exact (Hnp _ _ E).
Qed.

Lemma getJob_clearCompletedJobs r jobId :
  getJob (clearCompletedJobs r) jobId =
    match getJob r jobId with
    | Some job =>
        if bool_decide (status job = completed) || bool_decide (status job = failed)
        then None else Some job
    | None => None
    end.
Proof.
  unfold getJob, clearCompletedJobs. cbn [jobs jobObjects].
  set (keep := fun jobId0 : nat => match jobObjects r !! jobId0 with
                            | Some job => negb (bool_decide (status job = completed)
                                                || bool_decide (status job = failed))
                            | None => true
                            end).
  assert (Hf : jobId ∈ List.filter keep (jobs r) <->
               jobId ∈ jobs r /\ keep jobId = true).
  { rewrite !list_elem_of_In. apply filter_In. }
  destruct (decide (jobId ∈ jobs r)) as [Hin|Hnin].
  - rewrite (bool_decide_eq_true_2 _ Hin).
    destruct (jobObjects r !! jobId) as [job|] eqn:E.
    + destruct (bool_decide (status job = completed) ||
                bool_decide (status job = failed)) eqn:Es.
      * rewrite bool_decide_eq_false_2; [done|]. rewrite Hf.
        intros [_ Hk]. unfold keep in Hk. by rewrite E, Es in Hk.
      * rewrite bool_decide_eq_true_2; [done|]. rewrite Hf.
        split; [done|]. unfold keep. by rewrite E, Es.
    + by case_bool_decide.
  - rewrite (bool_decide_eq_false_2 _ Hnin).
    rewrite bool_decide_eq_false_2; [done|]. rewrite Hf. tauto.
Qed.

(** X27: [clearCompletedJobs] removes from the table exactly the jobs that
    are [completed] or [failed] and keeps the others as they are; a second
    cleanup changes nothing; and on a renderer that has only seen requests,
    turns, cancellations and cleanups, every job the table still lists
    after a cleanup is [pending]. *)
Theorem clearCompletedJobs_keeps_unfinished :
  (forall r jobId,
     getJob (clearCompletedJobs r) jobId =
       match getJob r jobId with
       | Some job =>
           if bool_decide (status job = completed) ||
              bool_decide (status job = failed)
           then None else Some job
       | None => None
       end) /\
  (forall r, clearCompletedJobs (clearCompletedJobs r) = clearCompletedJobs r) /\
  (forall st history jobId job,
     getJob (clearCompletedJobs (performAll rem (create st) history)) jobId =
       Some job ->
     status job = pending).
Proof.
  split; [exact getJob_clearCompletedJobs|]. split.
  - intros r. unfold clearCompletedJobs. cbn [jobs jobObjects]. f_equal.
    induction (jobs r) as [|jobId l IH]; [done|]. simpl.
    destruct (match jobObjects r !! jobId with
              | Some job => _ | None => true end) eqn:E; simpl;
      [rewrite E; by f_equal | done].
  - intros st history jobId job.
    rewrite getJob_clearCompletedJobs.
    pose proof (never_processing rem st history) as Hnp.
    set (r := performAll rem (create st) history) in *. clearbody r.
    unfold getJob. destruct (bool_decide (jobId ∈ jobs r)); [|done].
    destruct (jobObjects r !! jobId) as [job'|] eqn:E; [|done].
    specialize (Hnp _ _ E). cbn beta in Hnp.
    destruct (status job') eqn:Es; try done.
    by intros [= <-].
Qed.
End RenderFailureFacts.

Section RenderFailureWitnesses.
Import JS MotionEngine SceneComposer MotionRenderer Sample RenderSample
  RenderObserve.

Lemma final_render_rejects_invalid_project_witness :
  preview (optionsOf false) = false /\ schemaAccepts (projectOf 0) = false /\
  exists job,
    getJob (resume sampleCurves 5
              (renderProject sampleCurves 5 (create emptyStore) (projectOf 0)
                 (optionsOf false)).1
              (nextId (create emptyStore)))
      (nextId (create emptyStore)) = Some job /\
    status job = failed /\ error job = Some SchemaError.
Proof.
  split; [reflexivity|]. split; [reflexivity|].
  destruct (final_render_rejects_invalid_project sampleCurves 5
              (create emptyStore) (projectOf 0) (optionsOf false)
              eq_refl eq_refl)
    as (_ & _ & _ & _ & (job & H1 & H2 & H3 & _) & _).
  exists job. split; [exact H1|]. split; [exact H2 | exact H3].
Defined.

Lemma clearCompletedJobs_keeps_unfinished_witness :
  exists job,
    getJob (clearCompletedJobs
              (performAll sampleCurves (create emptyStore)
                 [(0, Request (projectOf 3) (optionsOf false))])) 0%nat =
      Some job /\
    status job = pending.
Proof.
  destruct (getJob (clearCompletedJobs
              (performAll sampleCurves (create emptyStore)
                 [(0, Request (projectOf 3) (optionsOf false))])) 0%nat)
    as [job|] eqn:E; [|by vm_compute in E].
  exists job. split; [reflexivity|].
  exact (proj2 (proj2 (clearCompletedJobs_keeps_unfinished sampleCurves))
           emptyStore [(0, Request (projectOf 3) (optionsOf false))] 0%nat job E).
Defined.
End RenderFailureWitnesses.

Section RenderInvariantFacts.
Import JS MotionEngine SceneComposer MotionRenderer Sample RenderSample
  RenderObserve.
Context (rem : Remotion).

Lemma consistent_put r r' k job' task' :
  consistent r ->
  jobObjects r' = <[k := job']> (jobObjects r) ->
  tasks r' = <[k := task']> (tasks r) ->
  id job' = k -> inRange job' -> settled job' -> taskOf task' job' ->
  consistent r'.
Proof.
  intros Hc Hjo Hta Hid Hr Hs Ht j job Hj. rewrite Hjo in Hj.
  destruct (decide (j = k)) as [->|Hne].
  - rewrite lookup_insert_eq in Hj. injection Hj as <-.
    split; [done|]. split; [done|]. split; [done|].
    exists task'. by rewrite Hta, lookup_insert_eq.
  - rewrite lookup_insert_ne in Hj by done.
    destruct (Hc j job Hj) as (H1 & H2 & H3 & task & H4 & H5).
    split; [done|]. split; [done|]. split; [done|].
    exists task. by rewrite Hta, lookup_insert_ne.
Qed.

Lemma settled_alike job job' : alike job job' -> settled job -> settled job'.
Proof.
  intros (_ & _ & Hs & He & Hu & Her). unfold settled.
  by rewrite Hs, He, Hu, Her.
Qed.

Lemma alike_trans j1 j2 j3 : alike j1 j2 -> alike j2 j3 -> alike j1 j3.
Proof.
  intros (A1 & A2 & A3 & A4 & A5 & A6) (B1 & B2 & B3 & B4 & B5 & B6).
  unfold alike. by rewrite B1, B2, B3, B4, B5, B6.
Qed.

Lemma updateJobStage_alike r job stage :
  alike job (updateJobStage r job stage).2 /\
  progress (updateJobStage r job stage).2 = progress job.
Proof. done. Qed.

Lemma updateJobProgress_alike r job x :
  alike job (updateJobProgress r job x).2.
Proof. done. Qed.

Lemma clamp_inRange x :
  x <> NaN ->
  exists q, nmin (ofZ 100) (nmax (ofZ 0) x) = Fin q /\
            (0 <= q)%Qc /\ (q <= Qc_of_Z 100)%Qc.
Proof.
  assert (H100 : (0 <= Qc_of_Z 100)%Qc)
    by (rewrite <- Z2Qc_inj_0; by apply (proj1 (Z2Qc_inj_le 0 100))).
  intros Hx. destruct x as [v|[]|]; [| | |done].
  - unfold ofZ. cbn [nmax nle]. rewrite Z2Qc_inj_0.
    destruct (decide (0 <= v)%Qc) as [Hv|Hv].
    + rewrite (bool_decide_eq_true_2 _ Hv). cbn [nmin nle].
      destruct (decide (Qc_of_Z 100 <= v)%Qc) as [Hh|Hh].
      * rewrite (bool_decide_eq_true_2 _ Hh). by eexists.
      * rewrite (bool_decide_eq_false_2 _ Hh). eexists. split; [done|].
        split; [done|]. apply Qclt_le_weak. by apply Qclt_nge.
    + rewrite (bool_decide_eq_false_2 _ Hv). cbn [nmin nle].
      rewrite bool_decide_eq_false_2.
      * eexists. split; [done|]. split; [done|]. done.
      * apply Qclt_nge. rewrite <- Z2Qc_inj_0.
        by apply (proj1 (Z2Qc_inj_lt 0 100)).
  - exists (Qc_of_Z 100). split; [|done]. by vm_compute.
  - exists 0%Qc. split; [|done]. apply (bool_decide_unpack _). by vm_compute.
Qed.

(** The progress computed after a frame that is below the duration is a
    number or an infinity, never NaN. *)
Lemma frame_progress_defined f d scale :
  f < d -> nmul (ndiv (ofZ f) (ofZ d)) (ofZ scale) <> NaN \/ scale = 0.
Proof.
  intros Hlt. destruct (decide (scale = 0)) as [->|Hs]; [by right|]. left.
  assert (Hs' : Qc_of_Z scale <> 0%Qc)
    by (rewrite <- Z2Qc_inj_0; by intros ?%Z2Qc_inj).
  unfold ndiv, ofZ.
  destruct (decide (Qc_of_Z d = 0%Qc)) as [Hd|Hd].
  - rewrite (bool_decide_eq_true_2 _ Hd).
    rewrite <- Z2Qc_inj_0 in Hd. apply Z2Qc_inj in Hd. subst d.
    rewrite bool_decide_eq_false_2.
    + cbn [nmul]. by rewrite (bool_decide_eq_false_2 _ Hs').
    + rewrite <- Z2Qc_inj_0. intros ?%Z2Qc_inj. lia.
  - by rewrite (bool_decide_eq_false_2 _ Hd).
Qed.

Lemma renderFrame_view now r p frame :
  jobObjects (renderFrame rem now r p frame).1 = jobObjects r /\
  tasks (renderFrame rem now r p frame).1 = tasks r.
Proof.
  unfold renderFrame. destruct (findActiveScene p frame); [|done].
  by destruct (composeScene _ _ _ _ _ _ _) as [[[st c] comp]|].
Qed.

Lemma taskOf_alike task job job' :
  alike job job' -> taskOf task job -> taskOf task job'.
Proof.
  intros (_ & Hp & Hs & _ & Hu & Her). unfold taskOf.
  rewrite Hp, Hs, Hu, Her. done.
Qed.

Lemma finalLoop_put now r job frame frames m :
  jobObjects r = <[id job := job]> m ->
  exists job' task',
    jobObjects (finalLoop rem now r job frame frames) = <[id job := job']> m /\
    tasks (finalLoop rem now r job frame frames) =
      <[id job := task']> (tasks r) /\
    alike job job' /\ progress job' = progress job /\
    (status job = pending -> taskOf task' job').
Proof.
  intros Hm. unfold finalLoop.
  destruct (Z.ltb_spec frame (project_duration (project job))) as [Hlt|Hge].
  - destruct (renderFrame_view now r (project job) frame) as [H1 H2].
    destruct (renderFrame rem now r (project job) frame) as [r1 fd].
    cbn [fst snd] in *. exists job, (AwaitFinalFrame frame frames fd).
    cbn [setTask jobObjects tasks]. rewrite H1, H2, Hm.
    split; [done|]. split; [done|]. split; [done|]. split; [done|]. done.
  - destruct (updateJobStage_alike r job encoding) as [A P].
    destruct (updateJobStage_view r job encoding) as (V1 & V2 & V3 & V4).
    destruct (updateJobStage r job encoding) as [r1 job1]. cbn [fst snd] in *.
    unfold encodeVideo, generateId. cbn [setTask jobObjects tasks].
    eexists job1, _. rewrite V1, Hm, insert_insert_eq, V2.
    split; [done|]. split; [done|]. split; [done|]. split; [done|].
    intros Hs. cbn. destruct A as (_ & _ & -> & _). done.
Qed.

Lemma previewLoop_put now r job frame step frames m :
  jobObjects r = <[id job := job]> m ->
  exists job' task',
    jobObjects (previewLoop rem now r job frame step frames) =
      <[id job := job']> m /\
    tasks (previewLoop rem now r job frame step frames) =
      <[id job := task']> (tasks r) /\
    alike job job' /\ progress job' = progress job /\
    (status job = pending -> taskOf task' job').
Proof.
  intros Hm. unfold previewLoop.
  destruct (Z.ltb_spec frame (project_duration (project job))) as [Hlt|Hge].
  - destruct (renderFrame_view now r (project job) frame) as [H1 H2].
    destruct (renderFrame rem now r (project job) frame) as [r1 fd].
    cbn [fst snd] in *. exists job, (AwaitPreviewFrame frame step frames fd).
    cbn [setTask jobObjects tasks]. rewrite H1, H2, Hm.
    split; [done|]. split; [done|]. split; [done|]. split; [done|]. done.
  - destruct (updateJobStage_alike r job finalizing) as [A P].
    destruct (updateJobStage_view r job finalizing) as (V1 & V2 & V3 & V4).
    destruct (updateJobStage r job finalizing) as [r1 job1]. cbn [fst snd] in *.
    unfold createPreviewVideo, generateId. cbn [setTask jobObjects tasks].
    eexists job1, _. rewrite V1, Hm, insert_insert_eq, V2.
    split; [done|]. split; [done|]. split; [done|]. split; [done|].
    intros Hs. cbn. destruct A as (_ & _ & -> & _). done.
Qed.

Lemma inRange_progress job job' :
  progress job' = progress job -> inRange job -> inRange job'.
Proof. intros H (q & Hq & Hb). exists q. by rewrite H. Qed.

Lemma consistent_renderProject now r p o :
  consistent r -> consistent (renderProject rem now r p o).1.
Proof.
  intros Hc. unfold renderProject, generateId. cbv zeta. cbn [fst snd].
  set (job0 := Build_RenderJob _ _ _ pending _ _ _ _ _ _).
  set (r2 := tableSet _ _).
  assert (Hr2 : jobObjects r2 = <[id job0 := job0]> (jobObjects r) /\
                tasks r2 = tasks r) by done.
  destruct Hr2 as [Hjo Hta]. clearbody r2.
  assert (Hs0 : status job0 = pending) by done.
  assert (Hset0 : settled job0) by done.
  assert (Hin0 : inRange job0).
  { exists 0%Qc. split; [by unfold job0, ofZ; cbn; rewrite Z2Qc_inj_0|].
    split; [done|]. rewrite <- Z2Qc_inj_0. by apply (proj1 (Z2Qc_inj_le 0 100)). }
  clearbody job0.
  assert (Hfin : forall r' job' task',
            jobObjects r' = <[id job0 := job']> (jobObjects r) ->
            tasks r' = <[id job0 := task']> (tasks r) ->
            alike job0 job' -> progress job' = progress job0 ->
            taskOf task' job' -> consistent r').
  { intros r' job' task' H1 H2 A P T.
    apply (consistent_put r r' (id job0) job' task'); try done.
    - by destruct A.
    - by eapply inRange_progress.
    - by eapply settled_alike. }
  destruct (preview o).
  - unfold renderPreview.
    destruct (updateJobStage_alike r2 job0 composing) as [A P].
    destruct (updateJobStage_view r2 job0 composing) as (V1 & V2 & _).
    destruct (updateJobStage r2 job0 composing) as [r3 job1]. cbn [fst snd] in *.
    pose proof A as (Aid & _ & As & _).
    destruct (previewLoop_put now r3 job1 0
                (frameStep (project_duration (project job1))) [] (jobObjects r))
      as (job' & task' & H1 & H2 & A' & P' & T').
    { by rewrite V1, Hjo, Aid, insert_insert_eq. }
    rewrite Aid in H1, H2.
    apply (Hfin _ job' task'); [done | by rewrite H2, V2, Hta | | | ].
    + by eapply alike_trans.
    + by rewrite P', P.
    + apply T'. by rewrite As.
  - unfold renderFinal.
    destruct (updateJobStage_alike r2 job0 composing) as [A P].
    destruct (updateJobStage_view r2 job0 composing) as (V1 & V2 & _).
    destruct (updateJobStage r2 job0 composing) as [r3 job1]. cbn [fst snd] in *.
    pose proof A as (Aid & _ & As & _).
    unfold loadProject. destruct (schemaAccepts (project job1)).
    + set (r4 := Build_Renderer _ _ _ _ _ _ _ _ _ _).
      assert (R : jobObjects r4 = jobObjects r3 /\ tasks r4 = tasks r3) by done.
      destruct R as [R1 R2]. clearbody r4.
      destruct (updateJobStage_alike r4 job1 rendering) as [B Q].
      destruct (updateJobStage_view r4 job1 rendering) as (W1 & W2 & _).
      destruct (updateJobStage r4 job1 rendering) as [r5 job3].
      cbn [fst snd] in *.
      pose proof B as (Bid & _ & Bs & _).
      destruct (finalLoop_put now r5 job3 0 [] (jobObjects r))
        as (job' & task' & H1 & H2 & A' & P' & T').
      { by rewrite W1, R1, V1, Hjo, Bid, Aid, !insert_insert_eq. }
      rewrite Bid, Aid in H1, H2.
      apply (Hfin _ job' task');
        [done | by rewrite H2, W2, R2, V2, Hta | | | ].
      * eapply alike_trans; [|exact A']. by eapply alike_trans.
      * by rewrite P', Q, P.
      * apply T'. by rewrite Bs, As.
    + apply (Hfin _ job1 (Rejected SchemaError)).
      * cbn. by rewrite V1, Hjo, insert_insert_eq.
      * cbn. by rewrite V2, Hta.
      * done.
      * done.
      * cbn. by rewrite As.
Qed.

Lemma consistent_resume now r jobId :
  consistent r -> consistent (resume rem now r jobId).
Proof.
  intros Hc. unfold resume.
  destruct (tasks r !! jobId) as [task|] eqn:Ht; [|done].
  destruct (jobObjects r !! jobId) as [job|] eqn:Hj; [|done].
  destruct (Hc _ _ Hj) as (Hid & Hin & Hset & task0 & Ht0 & Htask).
  rewrite Ht in Ht0. injection Ht0 as <-.
  assert (Hjo : jobObjects r = <[id job := job]> (jobObjects r))
    by (by rewrite Hid, insert_id).
  assert (Hfin : forall r' job' task',
            jobObjects r' = <[id job := job']> (jobObjects r) ->
            tasks r' = <[id job := task']> (tasks r) ->
            id job' = id job -> inRange job' -> settled job' ->
            taskOf task' job' -> consistent r').
  { intros r' job' task' H1 H2 I R S T. rewrite Hid in *.
    by apply (consistent_put r r' jobId job' task'). }
  assert (Hloop : forall x scale frame,
            frame < project_duration (project job) -> status job = pending ->
            x = nmul (ndiv (ofZ frame) (ofZ (project_duration (project job))))
                     (ofZ scale) ->
            scale <> 0 ->
            forall r1 job1,
              updateJobProgress r job x = (r1, job1) ->
              jobObjects r1 = <[id job1 := job1]> (jobObjects r) /\
              tasks r1 = tasks r /\ alike job job1 /\ inRange job1).
  { intros x scale frame Hlt Hs -> Hscale r1 job1 E.
    pose proof (updateJobProgress_view r job
                  (nmul (ndiv (ofZ frame) (ofZ (project_duration (project job))))
                        (ofZ scale))) as (V1 & V2 & _).
    pose proof (updateJobProgress_job r job
                  (nmul (ndiv (ofZ frame) (ofZ (project_duration (project job))))
                        (ofZ scale))) as (J1 & _ & _ & J5 & _).
    pose proof (updateJobProgress_alike r job
                  (nmul (ndiv (ofZ frame) (ofZ (project_duration (project job))))
                        (ofZ scale))) as A.
    rewrite E in *. cbn [fst snd] in *.
    split; [by rewrite V1, J1|]. split; [done|]. split; [done|].
    destruct (frame_progress_defined frame (project_duration (project job))
                scale Hlt) as [Hx|]; [|done].
    destruct (clamp_inRange _ Hx) as (q & Hq & Hb).
    exists q. by rewrite J5. }
  destruct task as [frame step frames [fd|] | frames url | frame frames [fd|]
                    | frames url | url | m | url | m].
  - destruct Htask as [Hlt Hs].
    destruct (updateJobProgress r job _) as [r1 job1] eqn:E.
    destruct (Hloop _ 100 frame Hlt Hs eq_refl ltac:(lia) r1 job1 E)
      as (V1 & V2 & A & R).
    pose proof A as (Aid & _ & As & _).
    destruct (previewLoop_put now r1 job1 (frame + step) step
                (frames ++ [fd]) (jobObjects r) V1)
      as (job' & task' & H1 & H2 & A' & P' & T').
    rewrite Aid in H1, H2.
    apply (Hfin _ job' task'); [done | | | | | ].
    + rewrite H2, V2. by rewrite <- (insert_id (tasks r) _ _ Ht), Hid,
        insert_insert_eq.
    + destruct A' as (-> & _). done.
    + by eapply inRange_progress.
    + eapply settled_alike; [exact A'|]. by eapply settled_alike.
    + apply T'. by rewrite As.
  - destruct Htask as [Hlt Hs].
    apply (Hfin _ job (Rejected RuntimeError)); try done.
    cbn. by rewrite Hid.
  - cbn in Htask.
    apply (Hfin _ (withStatus job completed (error job) (Some url) (Some now))
             (Returned url)); try done.
    + cbn. by rewrite Hid.
    + unfold settled in *. rewrite Htask in Hset. cbn.
      destruct Hset as (_ & _ & ->). done.
  - destruct Htask as [Hlt Hs].
    destruct (updateJobProgress r job _) as [r1 job1] eqn:E.
    destruct (Hloop _ 80 frame Hlt Hs eq_refl ltac:(lia) r1 job1 E)
      as (V1 & V2 & A & R).
    pose proof A as (Aid & _ & As & _).
    set (r2 := if has_onProgress (options job1) then _ else _).
    assert (Hr2 : jobObjects r2 = jobObjects r1 /\ tasks r2 = tasks r1)
      by (unfold r2; by destruct (has_onProgress (options job1))).
    destruct Hr2 as [R1 R2]. clearbody r2. rewrite <- R1 in V1.
    destruct (finalLoop_put now r2 job1 (frame + 1) (frames ++ [fd])
                (jobObjects r) V1)
      as (job' & task' & H1 & H2 & A' & P' & T').
    rewrite Aid in H1, H2.
    apply (Hfin _ job' task'); [done | | | | | ].
    + rewrite H2, R2, V2. by rewrite <- (insert_id (tasks r) _ _ Ht), Hid,
        insert_insert_eq.
    + destruct A' as (-> & _). done.
    + by eapply inRange_progress.
    + eapply settled_alike; [exact A'|]. by eapply settled_alike.
    + apply T'. by rewrite As.
  - destruct Htask as [Hlt Hs].
    apply (Hfin _ job (Rejected RuntimeError)); try done.
    cbn. by rewrite Hid.
  - cbn in Htask.
    pose proof (updateJobProgress_view r job (ofZ 90)) as (V1 & V2 & _).
    pose proof (updateJobProgress_job r job (ofZ 90)) as (J1 & _ & _ & J5 & _).
    pose proof (updateJobProgress_alike r job (ofZ 90)) as A.
    destruct (updateJobProgress r job (ofZ 90)) as [r1 job1]. cbn [fst snd] in *.
    destruct (updateJobStage_alike r1 job1 optimizing) as [B Q].
    destruct (updateJobStage_view r1 job1 optimizing) as (W1 & W2 & _).
    destruct (updateJobStage r1 job1 optimizing) as [r2 job2]. cbn [fst snd] in *.
    pose proof B as (Bid & _ & Bs & _). pose proof A as (Aid & _ & As & _).
    apply (Hfin _ job2 (AwaitOptimize (optimizeOutput url (options job2)))).
    + cbn. by rewrite W1, V1, J1, insert_insert_eq.
    + cbn. by rewrite W2, V2, Hid.
    + by rewrite Bid, Aid.
    + destruct (clamp_inRange (ofZ 90)) as (q & Hq & Hb); [done|].
      exists q. by rewrite Q, J5.
    + eapply settled_alike; [exact B|]. by eapply settled_alike.
    + cbn. by rewrite Bs, As.
  - cbn in Htask.
    pose proof (updateJobProgress_view r job (ofZ 100)) as (V1 & V2 & _).
    pose proof (updateJobProgress_job r job (ofZ 100)) as (J1 & _ & _ & J5 & _).
    pose proof (updateJobProgress_alike r job (ofZ 100)) as A.
    destruct (updateJobProgress r job (ofZ 100)) as [r1 job1]. cbn [fst snd] in *.
    destruct (updateJobStage_alike r1 job1 finalizing) as [B Q].
    destruct (updateJobStage_view r1 job1 finalizing) as (W1 & W2 & _).
    destruct (updateJobStage r1 job1 finalizing) as [r2 job2]. cbn [fst snd] in *.
    pose proof B as (Bid & _ & Bs & _ & _ & Be).
    pose proof A as (Aid & _ & As & _ & _ & Ae).
    apply (Hfin _ (withStatus job2 completed (error job2) (Some url) (Some now))
             (Returned url)).
    + cbn. by rewrite Bid, W1, V1, J1, !insert_insert_eq.
    + cbn. by rewrite W2, V2, Hid.
    + cbn. by rewrite Bid, Aid.
    + destruct (clamp_inRange (ofZ 100)) as (q & Hq & Hb); [done|].
      exists q. cbn. by rewrite Q, J5.
    + unfold settled in *. rewrite Htask in Hset. cbn.
      destruct Hset as (_ & _ & Her). by rewrite Be, Ae, Her.
    + done.
  - cbn in Htask. unfold fail.
    apply (Hfin _ (withStatus job failed (Some m) (outputUrl job) (Some now))
             (Thrown m)); try done.
    unfold settled in *. rewrite Htask in Hset. cbn.
    destruct Hset as (_ & -> & _). done.
  - done.
  - done.
Qed.

Lemma consistent_cancelJob now r jobId :
  consistent r -> (cancelJob now r jobId).1 = r.
Proof.
  intros Hc. unfold cancelJob, getJob.
  destruct (bool_decide (jobId ∈ jobs r)); [|done].
  destruct (jobObjects r !! jobId) as [job|] eqn:E; [|done].
  destruct (Hc _ _ E) as (_ & _ & Hset & _).
  rewrite bool_decide_eq_false_2; [done|].
  intros Hs. unfold settled in Hset. by rewrite Hs in Hset.
Qed.

Lemma consistent_performAll history : forall r,
  consistent r -> consistent (performAll rem r history).
Proof.
  induction history as [|[now op] history IH]; intros r Hc; [done|].
  change (performAll rem r ((now, op) :: history))
    with (performAll rem (perform rem now r op) history).
  apply IH. destruct op as [p o | jobId | jobId |]; cbn [perform].
  - by apply consistent_renderProject.
  - by apply consistent_resume.
  - by rewrite consistent_cancelJob.
  - done.
Qed.

(** X28: on a renderer that has only seen requests, turns of its calls,
    cancellations and cleanups, every job is stored under its own id, its
    progress is a number from 0 to 100, and its fields go with its status:
    a pending job has no end time, output or error; a completed job has an
    output URL and an end time and no error; a failed job has an error and
    an end time and no output; no job is [processing]. *)
Theorem jobs_stay_consistent st history jobId job :
  getJob (performAll rem (create st) history) jobId = Some job ->
  id job = jobId /\ inRange job /\ settled job.
Proof.
  assert (Hc : consistent (performAll rem (create st) history)).
  { apply consistent_performAll. intros j jb Hj. by cbn in Hj. }
  unfold getJob. destruct (bool_decide _); [|done]. intros Hj.
  by destruct (Hc _ _ Hj) as (H1 & H2 & H3 & _).
Qed.
End RenderInvariantFacts.

Section RenderInvariantWitnesses.
Import JS MotionEngine SceneComposer MotionRenderer Sample RenderSample
  RenderObserve.

Lemma jobs_stay_consistent_witness :
  exists job,
    getJob (performAll sampleCurves (create emptyStore)
              [(0, Request (projectOf 3) (optionsOf false)); (1, Resume 0%nat)])
      0%nat = Some job /\
    id job = 0%nat /\ inRange job /\ settled job.
Proof.
  destruct (getJob (performAll sampleCurves (create emptyStore)
              [(0, Request (projectOf 3) (optionsOf false)); (1, Resume 0%nat)])
              0%nat) as [job|] eqn:E; [|by vm_compute in E].
  exists job. split; [reflexivity|].
  exact (jobs_stay_consistent sampleCurves emptyStore
           [(0, Request (projectOf 3) (optionsOf false)); (1, Resume 0%nat)]
           0%nat job E).
Defined.
End RenderInvariantWitnesses.

(** ** The timeline: history and keyframe navigation *)

Section TimelineFacts.
Import JS TimelineManager.

Lemma pop_snoc {A} (l : list A) x : pop (l ++ [x]) = Some (l, x).
Proof. unfold pop. by rewrite last_snoc, removelast_last. Qed.

Lemma pop_Some {A} (l rest : list A) x :
  pop l = Some (rest, x) -> l = rest ++ [x].
Proof.
  unfold pop. destruct (last l) as [y|] eqn:E; [|done].
  intros [= <- <-]. apply last_Some in E as [l' ->].
  by rewrite removelast_last.
Qed.

Lemma pop_nil {A} : pop (@nil A) = None.
Proof. done. Qed.

(** What [saveStateToUndo] leaves on the undo stack: the state on top of
    the old entries, the oldest one dropped when there were 50 or more. *)
Lemma saveStateToUndo_stack m :
  undoStack (saveStateToUndo m) =
    (if (maxUndoSteps <=? length (undoStack m))%nat
     then tail (undoStack m) else undoStack m) ++ [state m] /\
  redoStack (saveStateToUndo m) = [] /\
  state (saveStateToUndo m) = state m /\
  tracks (saveStateToUndo m) = tracks m.
Proof.
  unfold saveStateToUndo. cbn [undoStack redoStack state tracks].
  split; [|done]. rewrite length_app. cbn [length].
  destruct (Nat.leb_spec maxUndoSteps (length (undoStack m))) as [H|H].
  - rewrite (proj2 (Nat.ltb_lt _ _)) by lia.
    destruct (undoStack m) as [|s0 rest] eqn:E; [|done].
    rewrite ?E in H. unfold maxUndoSteps in H. simpl in H. lia.
  - by rewrite (proj2 (Nat.ltb_ge _ _)) by lia.
Qed.

Lemma setState_history m updates :
  (length (undoStack m) + length (redoStack m) <= maxUndoSteps)%nat ->
  (length (undoStack (setState m updates)) +
   length (redoStack (setState m updates)) <= maxUndoSteps)%nat.
Proof.
  intros H. unfold setState. cbn [undoStack redoStack].
  destruct (saveStateToUndo_stack m) as (-> & -> & _).
  rewrite length_app. cbn [length].
  destruct (Nat.leb_spec maxUndoSteps (length (undoStack m))) as [H'|H'].
  - unfold maxUndoSteps in *.
    destruct (undoStack m) as [|s0 rest] eqn:E; simpl in *; lia.
  - lia.
Qed.

Lemma edit_history m e :
  (length (undoStack m) + length (redoStack m) <= maxUndoSteps)%nat ->
  (length (undoStack (edit m e)) + length (redoStack (edit m e))
     <= maxUndoSteps)%nat.
Proof.
  intros H.
  destruct e as [u | id [] | id [] | | | z | p | | |]; cbn [edit];
    unfold selectElement, selectKeyframe, clearSelection, toggleLooping,
      setZoom, setScrollPosition, fitTimelineToWindow;
    try (by apply setState_history);
    try (destruct (includes _ id); [done | by apply setState_history]).
  - unfold undo. destruct (pop (undoStack m)) as [[rest x]|] eqn:E; [|done].
    apply pop_Some in E. cbn. rewrite E in H.
    rewrite length_app in *. simpl in *. lia.
  - unfold redo. destruct (pop (redoStack m)) as [[rest x]|] eqn:E; [|done].
    apply pop_Some in E. cbn. rewrite E in H.
    rewrite length_app in *. simpl in *. lia.
Qed.

(** X29: the history of the timeline state.  A successful [undo] followed
    by [redo] gives back exactly the timeline there was, and so does a
    successful [redo] followed by [undo].  After [setState] an [undo]
    succeeds and restores the state there was before, and a [redo] fails:
    the edit discarded what could be redone.  Selecting, with
    [addToSelection], an element that is selected already changes nothing
    and records no step.  From the constructor on, through any state,
    selection, view and history calls, the undo and redo stacks together
    never hold more than 50 states. *)
Theorem timeline_history :
  (forall m m1, undo m = (m1, true) -> redo m1 = (m, true)) /\
  (forall m m1, redo m = (m1, true) -> undo m1 = (m, true)) /\
  (forall m updates,
     exists m1,
       undo (setState m updates) = (m1, true) /\ state m1 = state m /\
       redo (setState m updates) = (setState m updates, false)) /\
  (forall m id,
     includes (selectedElements (state m)) id = true ->
     selectElement m id true = m) /\
  (forall es,
     (length (undoStack (edits create es)) +
      length (redoStack (edits create es)) <= maxUndoSteps)%nat).
Proof.
  split; [|split; [|split; [|split]]].
  - intros m m1. unfold undo.
    destruct (pop (undoStack m)) as [[rest x]|] eqn:E; [|done].
    intros [= <-]. apply pop_Some in E. unfold redo. cbn.
    rewrite pop_snoc. rewrite <- E. by destruct m.
  - intros m m1. unfold redo.
    destruct (pop (redoStack m)) as [[rest x]|] eqn:E; [|done].
    intros [= <-]. apply pop_Some in E. unfold undo. cbn.
    rewrite pop_snoc. rewrite <- E. by destruct m.
  - intros m updates. unfold undo, redo, setState. cbn [undoStack redoStack].
    destruct (saveStateToUndo_stack m) as (-> & -> & _ & _).
    rewrite pop_snoc, pop_nil. by eexists.
  - intros m id H. unfold selectElement. by rewrite H.
  - intros es. unfold edits.
    assert (H : (length (undoStack create) + length (redoStack create)
                   <= maxUndoSteps)%nat) by (cbn; unfold maxUndoSteps; lia).
    revert H. generalize create. induction es as [|e es IH]; intros m H;
      [done|].
    simpl. apply IH. by apply edit_history.
Qed.

Lemma timeline_history_witness :
  includes (selectedElements (state (selectElement create "a" false))) "a" =
    true /\
  selectElement (selectElement create "a" false) "a" true =
    selectElement create "a" false.
Proof.
  split; [reflexivity|].
  destruct timeline_history as (_ & _ & _ & Hsame & _).
  exact (Hsame (selectElement create "a" false) "a" eq_refl).
Defined.

Lemma nextKeyframe_fold current (l : list TimelineKeyframe) :
  forall seen acc,
    match acc with
    | (None, None) => forall k, k ∈ seen -> frame k <= current
    | (Some d, Some best) =>
        best ∈ seen /\ d = frame best - current /\ current < frame best /\
        forall k, k ∈ seen -> current < frame k -> frame best <= frame k
    | _ => False
    end ->
    match fold_left
            (fun (acc : option Z * option TimelineKeyframe) keyframe =>
               if current <? frame keyframe then
                 let distance := frame keyframe - current in
                 if match acc.1 with
                    | Some minDistance => distance <? minDistance
                    | None => true
                    end
                 then (Some distance, Some keyframe) else acc
               else acc) l acc with
    | (None, None) => forall k, k ∈ seen ++ l -> frame k <= current
    | (Some d, Some best) =>
        best ∈ seen ++ l /\ d = frame best - current /\ current < frame best /\
        forall k, k ∈ seen ++ l -> current < frame k -> frame best <= frame k
    | _ => False
    end.
Proof.
  induction l as [|kf l IH]; intros seen acc Hacc.
  - rewrite app_nil_r. exact Hacc.
  - cbn [fold_left].
    replace (seen ++ kf :: l) with ((seen ++ [kf]) ++ l)
      by (by rewrite <- app_assoc).
    apply IH. destruct acc as [[d|] [best|]]; try done; cbn [fst].
    + destruct Hacc as (Hin & -> & Hlt & Hmin).
      destruct (Z.ltb_spec current (frame kf)) as [Hk|Hk]; cbv zeta.
      * destruct (Z.ltb_spec (frame kf - current) (frame best - current))
          as [Hd|Hd].
        -- split; [apply elem_of_app; right; by apply list_elem_of_singleton|].
           split; [done|]. split; [done|].
           intros k [Hs|Hq%list_elem_of_singleton]%elem_of_app Hc; [|subst k; lia].
           specialize (Hmin k Hs Hc). lia.
        -- split; [apply elem_of_app; by left|]. split; [done|]. split; [done|].
           intros k [Hs|Hq%list_elem_of_singleton]%elem_of_app Hc; [|subst k; lia].
           by apply Hmin.
      * split; [apply elem_of_app; by left|]. split; [done|]. split; [done|].
        intros k [Hs|Hq%list_elem_of_singleton]%elem_of_app Hc; [|subst k; lia].
        by apply Hmin.
    + destruct (Z.ltb_spec current (frame kf)) as [Hk|Hk]; cbv zeta.
      * split; [apply elem_of_app; right; by apply list_elem_of_singleton|].
        split; [done|]. split; [done|].
        intros k [Hs|Hq%list_elem_of_singleton]%elem_of_app Hc; [|subst k; lia].
        specialize (Hacc k Hs). lia.
      * intros k [Hs|Hq%list_elem_of_singleton]%elem_of_app; [|subst k; lia].
        by apply Hacc.
Qed.

Lemma previousKeyframe_fold current (l : list TimelineKeyframe) :
  forall seen acc,
    match acc with
    | (None, None) => forall k, k ∈ seen -> current <= frame k
    | (Some d, Some best) =>
        best ∈ seen /\ d = current - frame best /\ frame best < current /\
        forall k, k ∈ seen -> frame k < current -> frame k <= frame best
    | _ => False
    end ->
    match fold_left
            (fun (acc : option Z * option TimelineKeyframe) keyframe =>
               if frame keyframe <? current then
                 let distance := current - frame keyframe in
                 if match acc.1 with
                    | Some minDistance => distance <? minDistance
                    | None => true
                    end
                 then (Some distance, Some keyframe) else acc
               else acc) l acc with
    | (None, None) => forall k, k ∈ seen ++ l -> current <= frame k
    | (Some d, Some best) =>
        best ∈ seen ++ l /\ d = current - frame best /\ frame best < current /\
        forall k, k ∈ seen ++ l -> frame k < current -> frame k <= frame best
    | _ => False
    end.
Proof.
  induction l as [|kf l IH]; intros seen acc Hacc.
  - rewrite app_nil_r. exact Hacc.
  - cbn [fold_left].
    replace (seen ++ kf :: l) with ((seen ++ [kf]) ++ l)
      by (by rewrite <- app_assoc).
    apply IH. destruct acc as [[d|] [best|]]; try done; cbn [fst].
    + destruct Hacc as (Hin & -> & Hlt & Hmin).
      destruct (Z.ltb_spec (frame kf) current) as [Hk|Hk]; cbv zeta.
      * destruct (Z.ltb_spec (current - frame kf) (current - frame best))
          as [Hd|Hd].
        -- split; [apply elem_of_app; right; by apply list_elem_of_singleton|].
           split; [done|]. split; [done|].
           intros k [Hs|Hq%list_elem_of_singleton]%elem_of_app Hc; [|subst k; lia].
           specialize (Hmin k Hs Hc). lia.
        -- split; [apply elem_of_app; by left|]. split; [done|]. split; [done|].
           intros k [Hs|Hq%list_elem_of_singleton]%elem_of_app Hc; [|subst k; lia].
           by apply Hmin.
      * split; [apply elem_of_app; by left|]. split; [done|]. split; [done|].
        intros k [Hs|Hq%list_elem_of_singleton]%elem_of_app Hc; [|subst k; lia].
        by apply Hmin.
    + destruct (Z.ltb_spec (frame kf) current) as [Hk|Hk]; cbv zeta.
      * split; [apply elem_of_app; right; by apply list_elem_of_singleton|].
        split; [done|]. split; [done|].
        intros k [Hs|Hq%list_elem_of_singleton]%elem_of_app Hc; [|subst k; lia].
        specialize (Hacc k Hs). lia.
      * intros k [Hs|Hq%list_elem_of_singleton]%elem_of_app; [|subst k; lia].
        by apply Hacc.
Qed.

(** X30: [findNextKeyframe] returns a keyframe of the tracks that lies
    after the frame and that no keyframe after the frame precedes, and
    returns nothing exactly when no keyframe lies after the frame;
    [findPreviousKeyframe] returns the mirror image: a keyframe before the
    frame that no keyframe before the frame follows. *)
Theorem keyframe_navigation ts current :
  match findNextKeyframe ts current with
  | Some next =>
      next ∈ allKeyframes ts /\ current < frame next /\
      forall k, k ∈ allKeyframes ts -> current < frame k ->
                frame next <= frame k
  | None => forall k, k ∈ allKeyframes ts -> frame k <= current
  end /\
  match findPreviousKeyframe ts current with
  | Some previous =>
      previous ∈ allKeyframes ts /\ frame previous < current /\
      forall k, k ∈ allKeyframes ts -> frame k < current ->
                frame k <= frame previous
  | None => forall k, k ∈ allKeyframes ts -> current <= frame k
  end.
Proof.
  split.
  - unfold findNextKeyframe.
    pose proof (nextKeyframe_fold current (allKeyframes ts) [] (None, None))
      as H.
    cbn [app] in H.
    destruct (fold_left _ (allKeyframes ts) (None, None)) as [[d|] [best|]];
      cbn [snd].
    + destruct H as (H1 & _ & H2 & H3); [by intros k ?%elem_of_nil|]. done.
    + exfalso. apply H. by intros k ?%elem_of_nil.
    + exfalso. apply H. by intros k ?%elem_of_nil.
    + apply H. by intros k ?%elem_of_nil.
  - unfold findPreviousKeyframe.
    pose proof (previousKeyframe_fold current (allKeyframes ts) [] (None, None))
      as H.
    cbn [app] in H.
    destruct (fold_left _ (allKeyframes ts) (None, None)) as [[d|] [best|]];
      cbn [snd].
    + destruct H as (H1 & _ & H2 & H3); [by intros k ?%elem_of_nil|]. done.
    + exfalso. apply H. by intros k ?%elem_of_nil.
    + exfalso. apply H. by intros k ?%elem_of_nil.
    + apply H. by intros k ?%elem_of_nil.
Qed.

Lemma keyframe_navigation_witness :
  findNextKeyframe [TimelineSample.opacityTrack] 5 =
    Some (TimelineSample.timelineKeyframe "early" 10) /\
  forall k, k ∈ allKeyframes [TimelineSample.opacityTrack] -> 5 < frame k ->
            frame (TimelineSample.timelineKeyframe "early" 10) <= frame k.
Proof.
  split; [reflexivity|].
  pose proof (proj1 (keyframe_navigation [TimelineSample.opacityTrack] 5)) as H.
  change (findNextKeyframe [TimelineSample.opacityTrack] 5)
    with (Some (TimelineSample.timelineKeyframe "early" 10)) in H.
  exact (proj2 (proj2 H)).
Defined.
End TimelineFacts.
